(** * prvhash SAT-solving simulations: gradilac_sat.py and t642_sat.py

    A shallow embedding of the two simulation scripts.  Both scripts define
    the same bit-vector arithmetic ([inibits], [full_adder], [add], [xor],
    [mul]), the same concrete mixing core ([prvhash_core_calc]) and the same
    symbolic mixing core ([prvhash_core_sat]); they differ in the schedule
    that drives the cores.

    Conventions.
    - Python integers are [Z]; the state width [bits] and loop counters are
      [nat]; [&], [|], [^], [<<], [>>] are [Z.land], [Z.lor], [Z.lxor],
      [Z.shiftl], [Z.shiftr].
    - A Python list is a [list]; [l[i]] is the lookup [l !! i], which raises
      out of range.  A raised exception ([AssertionError], [IndexError],
      [ZeroDivisionError]) is [None] in the [option] monad.
    - The objects of the external [autosat] library (constants, free
      variables, [^] and [&] on them, the outputs of a function decorated
      with [autosat.sat]) are the terms of [bitf]; their meaning under a
      model is [eval]. *)

From Stdlib Require Import ZArith Lia List Bool.
From stdpp Require Import base option list.

Local Open Scope Z_scope.

(** ** Control flow of the scripts *)

(** [assert c] *)
Definition py_assert (c : bool) : option unit :=
  if c then Some tt else None.

(** [for i in l: s = body(i, s)] *)
Fixpoint for_in {A S : Type} (l : list A) (body : A → S → option S) (s : S)
  : option S :=
  match l with
  | [] => Some s
  | i :: l' => s' ← body i s; for_in l' body s'
  end.

(** [range(n)] and [range(a, b)] *)
Definition range (n : nat) : list nat := seq 0 n.
Definition range2 (a b : nat) : list nat := seq a (b - a).

(** [x % m] on non-negative integers; [m = 0] raises. *)
Definition py_mod (x m : nat) : option nat :=
  if (m =? 0)%nat then None else Some (x mod m)%nat.

(** [l[i] = v] on a list; out of range raises. *)
Definition py_setitem {A : Type} (l : list A) (i : nat) (v : A)
  : option (list A) :=
  if (i <? length l)%nat then Some (<[i:=v]> l) else None.

(** ** Bit formulas (the [autosat] objects) *)

Inductive bitf : Type :=
  | BConst (b : bool)                 (* [inst.get_constant(v)], [True], [False] *)
  | BVar (n : nat)                    (* one of [inst.new_vars(..)] *)
  | BXor (a b : bitf)                 (* [a ^ b] *)
  | BAnd (a b : bitf)                 (* [a & b] *)
  | BAdderSum (a b c : bitf)          (* first output of [full_adder(a, b, c)] *)
  | BAdderCarry (a b c : bitf).       (* second output of [full_adder(a, b, c)] *)

Definition bv : Type := list bitf.

#[global] Instance bitf_inhabited : Inhabited bitf := populate (BConst false).
#[global] Instance bv_inhabited : Inhabited bv := populate [].

(** The body of [full_adder], on the truth values the decorator feeds it:
    [r = a + b + carry_in; return r & 1, (r & 2) >> 1]. *)
Definition full_adder_body (a b carry_in : bool) : Z * Z :=
  let r := Z.b2z a + Z.b2z b + Z.b2z carry_in in
  (Z.land r 1, Z.shiftr (Z.land r 2) 1).

(** Python truth value of an integer. *)
Definition py_bool (z : Z) : bool := negb (z =? 0).

Fixpoint eval (m : nat → bool) (f : bitf) : bool :=
  match f with
  | BConst b => b
  | BVar n => m n
  | BXor a b => xorb (eval m a) (eval m b)
  | BAnd a b => andb (eval m a) (eval m b)
  | BAdderSum a b c =>
      py_bool (fst (full_adder_body (eval m a) (eval m b) (eval m c)))
  | BAdderCarry a b c =>
      py_bool (snd (full_adder_body (eval m a) (eval m b) (eval m c)))
  end.

(** [full_adder] as decorated by [autosat.sat]: two formulas tied to the
    inputs by the truth table of the body. *)
Definition full_adder (a b carry_in : bitf) : bitf * bitf :=
  (BAdderSum a b carry_in, BAdderCarry a b carry_in).

(** [autosat.decode_number(v, model)]: least-significant bit first. *)
Fixpoint decode_number (m : nat → bool) (v : bv) : Z :=
  match v with
  | [] => 0
  | b :: v' => Z.b2z (eval m b) + 2 * decode_number m v'
  end.

(** [inibits(inst, l, ini)] *)
Definition inibits (l : nat) (ini : Z) : bv :=
  map (λ i : nat,
         let v := if py_bool (Z.land (Z.shiftr ini (Z.of_nat i)) 1)
                  then true else false in
         BConst v)
      (range l).

(** [inst.new_vars(n)], with the instance's variable counter passed along. *)
Definition new_vars (n : nat) (next : nat) : bv * nat :=
  (map BVar (seq next n), (next + n)%nat).

(** ** Symbolic arithmetic *)

Fixpoint add_loop (carry : bitf) (ab : list (bitf * bitf)) : bv :=
  match ab with
  | [] => []
  | (a_bit, b_bit) :: t =>
      let '(sum_bit, carry') := full_adder a_bit b_bit carry in
      sum_bit :: add_loop carry' t
  end.

Definition add (a b : bv) : option bv :=
  _ ← py_assert (length a =? length b)%nat;
  Some (add_loop (BConst false) (zip a b)).

Definition xor (a b : bv) : option bv :=
  _ ← py_assert (length a =? length b)%nat;
  Some (map (λ ij, BXor ij.1 ij.2) (zip a b)).

Definition and_ (a b : bv) : option bv :=
  _ ← py_assert (length a =? length b)%nat;
  Some (map (λ ij, BAnd ij.1 ij.2) (zip a b)).

(** [[a[i] & bit for bit in b]]: [a[i]] is looked up once per element of
    [b], so an empty [b] never touches [a]. *)
Definition and_bit (a : bv) (i : nat) (b : bv) : option bv :=
  mapM (λ bit, ai ← a !! i; Some (BAnd ai bit)) b.

(** [b[:-i]] for [i >= 1] *)
Definition drop_last {A : Type} (i : nat) (b : list A) : list A :=
  take (length b - i) b.

Definition mul (a b : bv) : option bv :=
  _ ← py_assert (length a =? length b)%nat;
  result ← and_bit a 0 b;
  for_in (range2 1 (length a))
    (λ i result,
       addend ← and_bit a i (drop_last i b);
       tail ← add (drop i result) addend;
       Some (take i result ++ tail))
    result.

(** ** The round constants and the concrete mixing core *)

Section Core.

Variable bits : nat.

Definition bits2 : nat := Nat.shiftr bits 1.
Definition bmask : Z := Z.shiftl 1 (Z.of_nat bits) - 1.

(** The loop [for i in range(bits2): rawbits5 <<= 2; rawbits5 |= 0x1;
    rawbitsA <<= 2; rawbitsA |= 0x2], as the pair (rawbits5, rawbitsA). *)
Definition rawbits : Z * Z :=
  fold_left (λ '(r5, rA) (_ : nat),
               (Z.lor (Z.shiftl r5 2) 1, Z.lor (Z.shiftl rA 2) 2))
            (range bits2) (0, 0).
Definition rawbits5 : Z := fst rawbits.
Definition rawbitsA : Z := snd rawbits.

Definition prvhash_core_calc (seed lcg h : Z) : Z * Z * Z * Z :=
  let seed := seed * (lcg * 2 + 1) in
  let seed := Z.land seed bmask in
  let rs := Z.lor (Z.shiftr seed (Z.of_nat bits2))
                  (Z.shiftl seed (Z.of_nat bits2)) in
  let rs := Z.land rs bmask in
  let h := h + (rs + rawbitsA) in
  let h := Z.land h bmask in
  let lcg := lcg + (seed + rawbits5) in
  let lcg := Z.land lcg bmask in
  let seed := Z.lxor seed h in
  let out := Z.lxor lcg rs in
  (seed, lcg, h, out).

Definition BITR5 : bv := inibits bits rawbits5.
Definition BITRA : bv := inibits bits rawbitsA.

Definition prvhash_core_sat (seed lcg h : bv) : option (bv * bv * bv * bv) :=
  seed ← mul seed ([BConst true] ++ drop_last 1 lcg);
  let rs := drop bits2 seed ++ take bits2 seed in
  t ← add rs BITRA;
  h ← add h t;
  t ← add seed BITR5;
  lcg ← add lcg t;
  seed ← xor seed h;
  out ← xor lcg rs;
  Some (seed, lcg, h, out).

End Core.

(** ** Driving a core

    Every call of a core in the scripts is the statement

      [seed, lcg, h[x % hc], out = core(seed, lcg, h[x % hc])]

    over the integers ([prvhash_core_calc]) or over bit-vectors
    ([prvhash_core_sat]).  [call_core] is that statement for either kind of
    word [W].  It also appends a record of the call to a log; the log is not
    in the scripts, it is the trace the properties on schedules are stated
    about. *)

Record call (W : Type) : Type := Call {
  call_core_id : nat;            (* 0: the main core; 1..4: a firewall core *)
  call_index : nat;              (* the index of the hash element passed *)
  call_args : W * W * W;         (* seed, lcg, hash word passed in *)
  call_result : W * W * W * W    (* seed, lcg, hash word, output returned *)
}.
Arguments Call {W}.
Arguments call_core_id {W}.
Arguments call_index {W}.
Arguments call_args {W}.
Arguments call_result {W}.

(** The components of what a core returns. *)
Definition res_seed {W : Type} (r : W * W * W * W) : W := r.1.1.1.
Definition res_lcg {W : Type} (r : W * W * W * W) : W := r.1.1.2.
Definition res_h {W : Type} (r : W * W * W * W) : W := r.1.2.
Definition res_out {W : Type} (r : W * W * W * W) : W := r.2.

Definition call_out {W : Type} (c : call W) : W := res_out (call_result c).

Definition call_core {W : Type} (core : W → W → W → option (W * W * W * W))
    (who : nat) (seed lcg : W) (h : list W) (x modulus : nat)
    (log : list (call W))
  : option (W * W * list W * W * list (call W)) :=
  i ← py_mod x modulus;
  hw ← h !! i;
  r ← core seed lcg hw;
  let '(seed', lcg', hw', out) := r in
  h' ← py_setitem h i hw';
  Some (seed', lcg', h', out, log ++ [Call who i (seed, lcg, hw) r]).

(** The state of the main core: [seed], [lcg], the hash array [h] and the
    counter [x] ([calc_seed], [calc_lcg], [calc_h], [calc_x] in the concrete
    run). *)
Record machine (W : Type) : Type := Machine {
  m_seed : W;
  m_lcg : W;
  m_h : list W;
  m_x : nat
}.
Arguments Machine {W}.
Arguments m_seed {W}.
Arguments m_lcg {W}.
Arguments m_h {W}.
Arguments m_x {W}.

(** [seed, lcg, h[x % hc], out1 = core(seed, lcg, h[x % hc])] *)
Definition step {W : Type} (core : W → W → W → option (W * W * W * W))
    (hc : nat) (st : machine W) (log : list (call W))
  : option (machine W * W * list (call W)) :=
  '(seed, lcg, h, out, log) ←
    call_core core 0 (m_seed st) (m_lcg st) (m_h st) (m_x st) hc log;
  Some (Machine seed lcg h (m_x st), out, log).

(** [x += 1] *)
Definition next {W : Type} (st : machine W) : machine W :=
  Machine (m_seed st) (m_lcg st) (m_h st) (m_x st + 1).

(** [for i in range(5): step] — the counter is not advanced. *)
Definition warm_up {W : Type} (core : W → W → W → option (W * W * W * W))
    (hc : nat) (s : machine W * list (call W))
  : option (machine W * list (call W)) :=
  for_in (range 5)
    (λ _ '(st, log), '(st, out1, log) ← step core hc st log; Some (st, log))
    s.

(** [for i in range(n): step; x += 1] *)
Definition advance {W : Type} (core : W → W → W → option (W * W * W * W))
    (n hc : nat) (s : machine W * list (call W))
  : option (machine W * list (call W)) :=
  for_in (range n)
    (λ _ '(st, log),
       '(st, out1, log) ← step core hc st log;
       let st := next st in
       Some (st, log))
    s.

(** A sequence of calls of a core, the counter value of each call given. *)
Definition run_calls {W : Type} (core : W → W → W → option (W * W * W * W))
    (hc : nat) (xs : list nat) (s : machine W * list (call W))
  : option (machine W * list (call W)) :=
  for_in xs
    (λ x '(st, log),
       '(st, out, log) ←
         step core hc (Machine (m_seed st) (m_lcg st) (m_h st) x) log;
       Some (st, log))
    s.

(** The two cores as arguments of [call_core]. *)
Definition calc (bits : nat) (seed lcg h : Z) : option (Z * Z * Z * Z) :=
  Some (prvhash_core_calc bits seed lcg h).
Definition sat (bits : nat) (seed lcg h : bv) : option (bv * bv * bv * bv) :=
  prvhash_core_sat bits seed lcg h.

(** [for i, b in enumerate(out): b.make_equal(bool((obs[j] >> i) & 1))],
    each [make_equal] adding one pair to the constraints. *)
Definition bind_output (out : bv) (obs : list Z) (j : nat)
    (constraints : list (bitf * bool)) : option (list (bitf * bool)) :=
  for_in (zip (seq 0 (length out)) out)
    (λ '(i, b) cs,
       o ← obs !! j;
       Some (cs ++ [(b, py_bool (Z.land (Z.shiftr o (Z.of_nat i)) 1))]))
    constraints.

(** ** gradilac_sat.py: the fused-output schedule (Variant A) *)

Module Gradilac.
Section Run.

Variables bits hci hc num_obs : nat.
Variables seed_i lcg_i : Z.
Variable hcv : list Z.

(** [for i in range(hc): if(i < hci): calc_h.append(hcv[i]&bmask)
    else: calc_h.append(0)] *)
Definition init_calc_h : option (list Z) :=
  for_in (range hc)
    (λ i calc_h,
       if (i <? hci)%nat
       then v ← hcv !! i; Some (calc_h ++ [Z.land v (bmask bits)])
       else Some (calc_h ++ [0]))
    [].

(** One round of the last loop of the concrete run, on
    (machine, log, obs). *)
Definition calc_round (i : nat) (s : machine Z * list (call Z) * list Z)
  : option (machine Z * list (call Z) * list Z) :=
  let '(st, log, obs) := s in
  '(st, out1, log) ← step (calc bits) hc st log;
  let st := next st in
  '(st, out2, log) ← step (calc bits) hc st log;
  let st := next st in
  Some (st, log, obs ++ [Z.lxor out1 out2]).

(** The concrete run: the final state, the log and [obs]. *)
Definition calc_run : option (machine Z * list (call Z) * list Z) :=
  calc_h ← init_calc_h;
  let s := (Machine (Z.land seed_i (bmask bits)) (Z.land lcg_i (bmask bits))
                    calc_h 0, []) in
  s ← warm_up (calc bits) hc s;
  s ← advance (calc bits) (hc + 1) hc s;
  for_in (range num_obs) calc_round (s.1, s.2, []).

(** [for i in range(hc): if(i < hci): start_h.append(inst.new_vars(bits));
    h.append(start_h[i][:]) else: h.append(inibits(inst, bits, 0))],
    on (start_h, h, variable counter). *)
Definition init_h (fresh : nat) : option (list bv * list bv * nat) :=
  for_in (range hc)
    (λ i '(start_h, h, fresh),
       if (i <? hci)%nat
       then let '(v, fresh) := new_vars bits fresh in
            let start_h := start_h ++ [v] in
            w ← start_h !! i;
            Some (start_h, h ++ [w], fresh)
       else Some (start_h, h ++ [inibits bits 0], fresh))
    ([], [], fresh).

Record instance : Type := Instance {
  start_seed : bv;
  start_lcg : bv;
  start_h : list bv;
  final : machine bv;
  sat_log : list (call bv);
  constraints : list (bitf * bool)
}.

(** One round of the last loop of the symbolic run, on
    (machine, log, constraints). *)
Definition sat_round (obs : list Z) (k : nat)
    (s : machine bv * list (call bv) * list (bitf * bool))
  : option (machine bv * list (call bv) * list (bitf * bool)) :=
  let '(st, log, cs) := s in
  '(st, out1, log) ← step (sat bits) hc st log;
  let st := next st in
  '(st, out2, log) ← step (sat bits) hc st log;
  let st := next st in
  out ← xor out1 out2;
  cs ← bind_output out obs k cs;
  Some (st, log, cs).

(** The symbolic run, given the observations [obs] of the concrete one. *)
Definition sat_run (obs : list Z) : option instance :=
  let '(start_seed, fresh) := new_vars bits 0 in
  let '(start_lcg, fresh) := new_vars bits fresh in
  '(start_h, h, fresh) ← init_h fresh;
  let s := (Machine start_seed start_lcg h 0, []) in
  s ← warm_up (sat bits) hc s;
  s ← advance (sat bits) (hc + 1) hc s;
  '(st, log, cs) ← for_in (range num_obs) (sat_round obs) (s.1, s.2, []);
  Some (Instance start_seed start_lcg start_h st log cs).

(** The script up to the call of the solver. *)
Definition script : option (list Z * instance) :=
  '(_, _, obs) ← calc_run;
  inst ← sat_run obs;
  Some (obs, inst).

End Run.
End Gradilac.

(** ** t642_sat.py: the keyed schedule with nonce and firewall (Variant B) *)

Module Tango642.

(** The firewall state: four (seed, lcg) pairs, the array [h2] and the
    counter [x2] ([calc_seed1] .. [calc_lcg4], [calc_h2], [calc_x2] in the
    concrete run). *)
Record firewall (W : Type) : Type := Firewall {
  seed1 : W; lcg1 : W;
  seed2 : W; lcg2 : W;
  seed3 : W; lcg3 : W;
  seed4 : W; lcg4 : W;
  h2 : list W;
  x2 : nat
}.
Arguments Firewall {W}.
Arguments seed1 {W}. Arguments lcg1 {W}.
Arguments seed2 {W}. Arguments lcg2 {W}.
Arguments seed3 {W}. Arguments lcg3 {W}.
Arguments seed4 {W}. Arguments lcg4 {W}.
Arguments h2 {W}. Arguments x2 {W}.

(** The four statements of a round that advance the firewall cores, after
    [seed4] has taken the output of the main core, and [x2 += 1]. *)
Definition firewall_round {W : Type}
    (core : W → W → W → option (W * W * W * W))
    (fw : firewall W) (log : list (call W))
  : option (firewall W * (W * W * W * W) * list (call W)) :=
  '(seed1, lcg1, h2, outf1, log) ←
    call_core core 1 (seed1 fw) (lcg1 fw) (h2 fw) (x2 fw + 0) 5 log;
  '(seed2, lcg2, h2, outf2, log) ←
    call_core core 2 (seed2 fw) (lcg2 fw) h2 (x2 fw + 1) 5 log;
  '(seed3, lcg3, h2, outf3, log) ←
    call_core core 3 (seed3 fw) (lcg3 fw) h2 (x2 fw + 2) 5 log;
  '(seed4, lcg4, h2, outf4, log) ←
    call_core core 4 (seed4 fw) (lcg4 fw) h2 (x2 fw + 3) 5 log;
  Some (Firewall seed1 lcg1 seed2 lcg2 seed3 lcg3 seed4 lcg4 h2 (x2 fw + 1),
        (outf1, outf2, outf3, outf4), log).

(** [seed4 = seed4 ^ out1] *)
Definition feed {W : Type} (fw : firewall W) (seed4' : W) : firewall W :=
  Firewall (seed1 fw) (lcg1 fw) (seed2 fw) (lcg2 fw) (seed3 fw) (lcg3 fw)
           seed4' (lcg4 fw) (h2 fw) (x2 fw).

Section Run.

Variables bits hci ivlen hc fc num_obs : nat.
Variable seed_i : Z.
Variables hcv iv : list Z.

Definition init_calc_h : option (list Z) :=
  for_in (range hc)
    (λ i calc_h,
       if (i <? hci)%nat
       then v ← hcv !! i; Some (calc_h ++ [Z.land v (bmask bits)])
       else Some (calc_h ++ [0]))
    [].

(** [for i in range(hc): if((i&1)==1 and ivpos < ivlen): calc_seed ^=
    iv[ivpos]&bmask; calc_lcg ^= iv[ivpos]&bmask; ivpos += 1] then the
    step and [calc_x += 1]; on (machine, log, ivpos). *)
Definition calc_inject (s : machine Z * list (call Z) * nat)
  : option (machine Z * list (call Z) * nat) :=
  for_in (range hc)
    (λ i '(st, log, ivpos),
       '(st, ivpos) ←
         (if (Nat.land i 1 =? 1)%nat && (ivpos <? ivlen)%nat
          then w ← iv !! ivpos;
               let calc_seed := Z.lxor (m_seed st) (Z.land w (bmask bits)) in
               w ← iv !! ivpos;
               let calc_lcg := Z.lxor (m_lcg st) (Z.land w (bmask bits)) in
               Some (Machine calc_seed calc_lcg (m_h st) (m_x st),
                     (ivpos + 1)%nat)
          else Some (st, ivpos));
       '(st, out1, log) ← step (calc bits) hc st log;
       let st := next st in
       Some (st, log, ivpos))
    s.

(** One round of the last loop of the concrete run, on
    (machine, firewall, log, obs). *)
Definition calc_round (i : nat)
    (s : machine Z * firewall Z * list (call Z) * list Z)
  : option (machine Z * firewall Z * list (call Z) * list Z) :=
  let '(st, fw, log, obs) := s in
  '(st, out1, log) ← step (calc bits) hc st log;
  let st := next st in
  let fw := feed fw (Z.lxor (seed4 fw) out1) in
  '(fw, (outf1, outf2, outf3, outf4), log) ← firewall_round (calc bits) fw log;
  let obs := if (fc <=? i)%nat
             then ((((obs ++ [outf1]) ++ [outf2]) ++ [outf3]) ++ [outf4])
             else obs in
  Some (st, fw, log, obs).

Definition calc_run
  : option (machine Z * firewall Z * list (call Z) * list Z) :=
  calc_h ← init_calc_h;
  let fw := Firewall 0 0 0 0 0 0 0 0 [0; 0; 0; 0; 0] 0%nat in
  let s := (Machine (Z.land seed_i (bmask bits)) 0 calc_h 0, []) in
  s ← warm_up (calc bits) hc s;
  '(st, log, ivpos) ← calc_inject (s.1, s.2, 0%nat);
  s ← advance (calc bits) (hc + 1) hc (st, log);
  for_in (range (fc + num_obs)) calc_round (s.1, fw, s.2, []).

Definition init_h (fresh : nat) : option (list bv * list bv * nat) :=
  for_in (range hc)
    (λ i '(start_h, h, fresh),
       if (i <? hci)%nat
       then let '(v, fresh) := new_vars bits fresh in
            let start_h := start_h ++ [v] in
            w ← start_h !! i;
            Some (start_h, h ++ [w], fresh)
       else Some (start_h, h ++ [inibits bits 0], fresh))
    ([], [], fresh).

(** The same loop over bit-vectors: [seed = xor(seed,
    inibits(inst,bits,iv[ivpos])); lcg = xor(lcg,
    inibits(inst,bits,iv[ivpos])); ivpos += 1]. *)
Definition sat_inject (s : machine bv * list (call bv) * nat)
  : option (machine bv * list (call bv) * nat) :=
  for_in (range hc)
    (λ k '(st, log, ivpos),
       '(st, ivpos) ←
         (if (Nat.land k 1 =? 1)%nat && (ivpos <? ivlen)%nat
          then w ← iv !! ivpos;
               seed ← xor (m_seed st) (inibits bits w);
               w ← iv !! ivpos;
               lcg ← xor (m_lcg st) (inibits bits w);
               Some (Machine seed lcg (m_h st) (m_x st), (ivpos + 1)%nat)
          else Some (st, ivpos));
       '(st, out1, log) ← step (sat bits) hc st log;
       let st := next st in
       Some (st, log, ivpos))
    s.

(** One round of the last loop of the symbolic run, on
    (machine, firewall, log, constraints). *)
Definition sat_round (obs : list Z) (k : nat)
    (s : machine bv * firewall bv * list (call bv) * list (bitf * bool))
  : option (machine bv * firewall bv * list (call bv) * list (bitf * bool)) :=
  let '(st, fw, log, cs) := s in
  '(st, out1, log) ← step (sat bits) hc st log;
  let st := next st in
  seed4' ← xor (seed4 fw) out1;
  let fw := feed fw seed4' in
  '(fw, (outf1, outf2, outf3, outf4), log) ← firewall_round (sat bits) fw log;
  cs ← (if (fc <=? k)%nat
        then cs ← bind_output outf1 obs ((k - fc) * 4 + 0) cs;
             cs ← bind_output outf2 obs ((k - fc) * 4 + 1) cs;
             cs ← bind_output outf3 obs ((k - fc) * 4 + 2) cs;
             bind_output outf4 obs ((k - fc) * 4 + 3) cs
        else Some cs);
  Some (st, fw, log, cs).

Record instance : Type := Instance {
  start_seed : bv;
  start_h : list bv;
  final : machine bv;
  final_firewall : firewall bv;
  sat_log : list (call bv);
  constraints : list (bitf * bool)
}.

Definition sat_run (obs : list Z) : option instance :=
  let '(start_seed, fresh) := new_vars bits 0 in
  '(start_h, h, fresh) ← init_h fresh;
  let lcg := inibits bits 0 in
  let z := inibits bits 0 in
  let fw := Firewall z z z z z z z z [z; z; z; z; z] 0%nat in
  let s := (Machine start_seed lcg h 0, []) in
  s ← warm_up (sat bits) hc s;
  '(st, log, ivpos) ← sat_inject (s.1, s.2, 0%nat);
  s ← advance (sat bits) (hc + 1) hc (st, log);
  '(st, fw, log, cs) ←
    for_in (range (fc + num_obs)) (sat_round obs) (s.1, fw, s.2, []);
  Some (Instance start_seed start_h st fw log cs).

Definition script : option (list Z * instance) :=
  '(_, _, _, obs) ← calc_run;
  inst ← sat_run obs;
  Some (obs, inst).

End Run.
End Tango642.

(** ** What a log shows

    Of a call: which core, which hash element, and the four returned words,
    decoded under a model for a symbolic call. *)

Definition decode4 (m : nat → bool) (r : bv * bv * bv * bv) : Z * Z * Z * Z :=
  let '(seed, lcg, h, out) := r in
  (decode_number m seed, decode_number m lcg, decode_number m h,
   decode_number m out).

Definition shown_calc (c : call Z) : nat * nat * (Z * Z * Z * Z) :=
  (call_core_id c, call_index c, call_result c).

Definition shown_sat (m : nat → bool) (c : call bv) : nat * nat * (Z * Z * Z * Z) :=
  (call_core_id c, call_index c, decode4 m (call_result c)).

(** ** Reading a log *)

Definition arg_seed {W : Type} (c : call W) : W := (call_args c).1.1.
Definition arg_lcg {W : Type} (c : call W) : W := (call_args c).1.2.
Definition arg_h {W : Type} (c : call W) : W := (call_args c).2.
Definition ret_seed {W : Type} (c : call W) : W := res_seed (call_result c).
Definition ret_lcg {W : Type} (c : call W) : W := res_lcg (call_result c).
Definition ret_h {W : Type} (c : call W) : W := res_h (call_result c).

#[global] Instance call_inhabited {W : Type} `{Inhabited W} : Inhabited (call W) :=
  populate (Call 0%nat 0%nat (inhabitant, inhabitant, inhabitant)
              (inhabitant, inhabitant, inhabitant, inhabitant)).

(** The entry is a call of [core]: what it returned is [core] of what it
    was passed. *)
Definition genuine {W : Type} (core : W → W → W → option (W * W * W * W))
    (c : call W) : Prop :=
  core (arg_seed c) (arg_lcg c) (arg_h c) = Some (call_result c).

(** The (seed, lcg) left by the call before position [j] of [L], or [start]
    when [j] is the first position. *)
Definition prev_of {W : Type} `{Inhabited W} (start : W * W)
    (L : list (call W)) (j : nat) : W * W :=
  match j with
  | O => start
  | S j' => (ret_seed (L !!! j'), ret_lcg (L !!! j'))
  end.

(** [L] is a run of calls of the main core: call [j] passes hash element
    [xf j mod hc], and its (seed, lcg) are those left by the call before,
    changed by [pre j]. *)
Definition calls_from {W : Type} `{Inhabited W}
    (core : W → W → W → option (W * W * W * W)) (hc : nat) (xf : nat → nat)
    (pre : nat → W * W → option (W * W)) (start : W * W) (L : list (call W))
  : Prop :=
  ∀ j, (j < length L)%nat →
    let c := L !!! j in
    call_core_id c = 0%nat
    ∧ call_index c = (xf j mod hc)%nat
    ∧ genuine core c
    ∧ pre j (prev_of start L j) = Some (arg_seed c, arg_lcg c).

(** Nothing happens to (seed, lcg) between two calls. *)
Definition untouched {W : Type} (j : nat) (p : W * W) : option (W * W) := Some p.

(** ** The step as the specification words it

    These definitions follow the specification's text, not the scripts; the
    theorems below compare them with [prvhash_core_calc]. *)

(** Exchange the low and the high half of a [w]-bit word. *)
Definition rotate_halves (w : nat) (x : Z) : Z :=
  let half := 2 ^ Z.of_nat (w / 2) in
  (x mod half) * half + x / half.

(** The two-bit group [g] written [n] times, lowest group first. *)
Fixpoint replicate_group (g : Z) (n : nat) : Z :=
  match n with
  | O => 0
  | S n' => g + 4 * replicate_group g n'
  end.

Definition ROUND_CONST_A (w : nat) : Z := replicate_group 2 (w / 2).
Definition ROUND_CONST_B (w : nat) : Z := replicate_group 1 (w / 2).

Definition step_spec (w : nat) (seed lcg hash_word : Z) : Z * Z * Z * Z :=
  let seed' := (seed * (2 * lcg + 1)) mod 2 ^ Z.of_nat w in
  let rotated := rotate_halves w seed' in
  let hash_word' := (hash_word + rotated + ROUND_CONST_A w) mod 2 ^ Z.of_nat w in
  let lcg' := (lcg + seed' + ROUND_CONST_B w) mod 2 ^ Z.of_nat w in
  let seed'' := Z.lxor seed' hash_word' in
  let output := Z.lxor lcg' rotated in
  (seed'', lcg', hash_word', output).

(** ** Relations and invariants the properties are stated with *)

(** [2^n] *)
Definition pow2 (n : nat) : Z := 2 ^ Z.of_nat n.

(** Both fail, or both return and what they return is related. *)
Definition rel_opt {A B : Type} (R : A → B → Prop) (a : option A) (b : option B)
  : Prop :=
  match a, b with
  | Some a, Some b => R a b
  | None, None => True
  | _, _ => False
  end.

(** A bit-vector of the width stands, under the model [m], for an integer
    modulo [2^bits], or for the integer itself. *)
Definition word_rel (m : nat → bool) (bits : nat) (w : bv) (c : Z) : Prop :=
  length w = bits ∧ decode_number m w = c mod pow2 bits.

Definition word_eq (m : nat → bool) (bits : nat) (w : bv) (c : Z) : Prop :=
  length w = bits ∧ decode_number m w = c.

(** The two logs show the same calls. *)
Definition shown_log_rel (m : nat → bool) (slog : list (call bv))
    (clog : list (call Z)) : Prop :=
  map (shown_sat m) slog = map shown_calc clog.

Definition machine_rel (m : nat → bool) (bits : nat) (ss : machine bv)
    (cs : machine Z) : Prop :=
  word_rel m bits (m_seed ss) (m_seed cs)
  ∧ word_rel m bits (m_lcg ss) (m_lcg cs)
  ∧ Forall2 (word_rel m bits) (m_h ss) (m_h cs) ∧ m_x ss = m_x cs.

Definition run_rel (m : nat → bool) (bits : nat)
    (s : machine bv * list (call bv)) (c : machine Z * list (call Z)) : Prop :=
  machine_rel m bits s.1 c.1 ∧ shown_log_rel m s.2 c.2.

(** On good words the core returns, and returns good words. *)
Definition core_total {W : Type} (core : W → W → W → option (W * W * W * W))
    (good : W → Prop) : Prop :=
  ∀ s l h, good s → good l → good h →
    ∃ r, core s l h = Some r
         ∧ good (res_seed r) ∧ good (res_lcg r) ∧ good (res_h r)
         ∧ good (res_out r).

Definition good_machine {W : Type} (good : W → Prop) (hc : nat)
    (st : machine W) : Prop :=
  good (m_seed st) ∧ good (m_lcg st) ∧ Forall good (m_h st)
  ∧ length (m_h st) = hc.

(** The (seed, lcg) of the machine are those the last call of [L] left,
    or [start] when there is none. *)
Definition left_by {W : Type} `{Inhabited W} (start : W * W)
    (L : list (call W)) (st : machine W) : Prop :=
  (m_seed st, m_lcg st) = prev_of start L (length L).

(** The machine is in the middle of a run of calls [L] that started at
    counter [x0]. *)
Definition running {W : Type} `{Inhabited W}
    (core : W → W → W → option (W * W * W * W)) (good : W → Prop)
    (hc x0 : nat) (start : W * W) (L : list (call W)) (st : machine W) : Prop :=
  good_machine good hc st
  ∧ m_x st = (x0 + length L)%nat
  ∧ calls_from core hc (λ j, (x0 + j)%nat) untouched start L
  ∧ left_by start L st.

(** The constraints [bind_output] adds: bit [i] of [out] with bit [i] of
    the observation. *)
Definition bound (out : bv) (o : Z) : list (bitf * bool) :=
  map (λ ib : nat * bitf, (ib.2, Z.testbit o (Z.of_nat ib.1)))
      (zip (seq 0 (length out)) out).

(** The counter [x] at call [j] of a run: it stays at 0 during the five
    warm-up calls and advances by one after each later call. *)
Definition fused_counter (j : nat) : nat := if (j <? 5)%nat then 0%nat else (j - 5)%nat.

(** ** The keyed schedule as properties of a log

    The nonce pass: step [i] of the pass injects a nonce word when [i] is
    odd and words are left; the word is number [i / 2]. *)

Definition injected (ivlen i : nat) : bool := Nat.odd i && (i / 2 <? ivlen)%nat.

(** What the pass does to (seed, lcg) before step [i], over the integers
    and over bit-vectors. *)
Definition calc_nonce (bits ivlen : nat) (iv : list Z) (i : nat) (p : Z * Z)
  : option (Z * Z) :=
  if injected ivlen i
  then w ← iv !! (i / 2)%nat;
       Some (Z.lxor p.1 (Z.land w (bmask bits)),
             Z.lxor p.2 (Z.land w (bmask bits)))
  else Some p.

Definition sat_nonce (bits ivlen : nat) (iv : list Z) (i : nat) (p : bv * bv)
  : option (bv * bv) :=
  if injected ivlen i
  then w ← iv !! (i / 2)%nat;
       seed ← xor p.1 (inibits bits w);
       lcg ← xor p.2 (inibits bits w);
       Some (seed, lcg)
  else Some p.

(** [f] applies to the [n] calls from position [a] on, nothing happens
    before the others. *)
Definition during {W : Type} (a n : nat) (f : nat → W * W → option (W * W))
    (j : nat) (p : W * W) : option (W * W) :=
  if (a <=? j)%nat && (j <? a + n)%nat then f (j - a)%nat p else Some p.

(** The rounds start at position [base] of the log; round [r] is the five
    entries from [base + 5 r]: the call of the main core ([k = 0]) and the
    calls of the firewall cores [k = 1 .. 4]. *)
Definition entry {W : Type} `{Inhabited W} (log : list (call W))
    (base r k : nat) : call W :=
  log !!! (base + 5 * r + k)%nat.

(** The (seed, lcg) the main core holds before round [r]: left by its call
    of the round before, or by the last call before the rounds. *)
Definition main_prev {W : Type} `{Inhabited W} (log : list (call W))
    (base r : nat) : W * W :=
  match r with
  | O => (ret_seed (log !!! (base - 1)%nat), ret_lcg (log !!! (base - 1)%nat))
  | S r' => (ret_seed (entry log base r' 0), ret_lcg (entry log base r' 0))
  end.

(** The (seed, lcg) firewall core [k] holds before round [r]. *)
Definition fw_prev {W : Type} `{Inhabited W} (zero : W) (log : list (call W))
    (base r k : nat) : W * W :=
  match r with
  | O => (zero, zero)
  | S r' => (ret_seed (entry log base r' k), ret_lcg (entry log base r' k))
  end.

(** The element of [h2] firewall core [k] is passed in round [r]: what core
    [k + 1] returned in the round before, and for core 4 what core 1
    returned two rounds before. *)
Definition h2_source {W : Type} `{Inhabited W} (zero : W) (log : list (call W))
    (base r k : nat) : W :=
  match k with
  | 4%nat => match r with
             | S (S r') => ret_h (entry log base r' 1)
             | _ => zero
             end
  | _ => match r with
         | S r' => ret_h (entry log base r' (k + 1))
         | O => zero
         end
  end.

Definition main_call {W : Type} `{Inhabited W}
    (core : W → W → W → option (W * W * W * W)) (hc x0 : nat)
    (log : list (call W)) (base r : nat) : Prop :=
  let c := entry log base r 0 in
  call_core_id c = 0%nat
  ∧ call_index c = ((x0 + r) mod hc)%nat
  ∧ genuine core c
  ∧ (arg_seed c, arg_lcg c) = main_prev log base r.

Definition fw_call {W : Type} `{Inhabited W}
    (core : W → W → W → option (W * W * W * W)) (zero : W)
    (log : list (call W)) (base r k : nat) (seed_in : W) : Prop :=
  let c := entry log base r k in
  call_core_id c = k
  ∧ call_index c = ((r + k - 1) mod 5)%nat
  ∧ genuine core c
  ∧ arg_seed c = seed_in
  ∧ arg_lcg c = (fw_prev zero log base r k).2
  ∧ arg_h c = h2_source zero log base r k.

(** Round [r]: the main core advances by one step; its output is combined
    by [wxor] into the seed of firewall core 4; the four firewall cores
    advance by one step each. *)
Definition round_shape {W : Type} `{Inhabited W}
    (core : W → W → W → option (W * W * W * W)) (wxor : W → W → option W)
    (zero : W) (hc x0 : nat) (log : list (call W)) (base r : nat) : Prop :=
  main_call core hc x0 log base r
  ∧ fw_call core zero log base r 1 (fw_prev zero log base r 1).1
  ∧ fw_call core zero log base r 2 (fw_prev zero log base r 2).1
  ∧ fw_call core zero log base r 3 (fw_prev zero log base r 3).1
  ∧ ∃ seed4, wxor (fw_prev zero log base r 4).1 (call_out (entry log base r 0))
             = Some seed4
             ∧ fw_call core zero log base r 4 seed4.

Definition calc_xor (a b : Z) : option Z := Some (Z.lxor a b).

Definition good_firewall {W : Type} (good : W → Prop)
    (fw : Tango642.firewall W) : Prop :=
  good (Tango642.seed1 fw) ∧ good (Tango642.lcg1 fw)
  ∧ good (Tango642.seed2 fw) ∧ good (Tango642.lcg2 fw)
  ∧ good (Tango642.seed3 fw) ∧ good (Tango642.lcg3 fw)
  ∧ good (Tango642.seed4 fw) ∧ good (Tango642.lcg4 fw)
  ∧ Forall good (Tango642.h2 fw) ∧ length (Tango642.h2 fw) = 5%nat.

(** Entry [c] is the call of firewall core [k] made at counter [x2 = x]
    from seed [s], lcg [l] and the array [h]. *)
Definition fw_made {W : Type} `{Inhabited W}
    (core : W → W → W → option (W * W * W * W)) (k x : nat) (s l : W)
    (h : list W) (c : call W) : Prop :=
  call_core_id c = k
  ∧ call_index c = ((x + k - 1) mod 5)%nat
  ∧ genuine core c
  ∧ arg_seed c = s ∧ arg_lcg c = l
  ∧ arg_h c = h !!! ((x + k - 1) mod 5)%nat.

(** What holds after [r] rounds of the last loop of t642_sat.py. *)
Definition keyed_rounds_inv {W : Type} `{Inhabited W}
    (core : W → W → W → option (W * W * W * W)) (wxor : W → W → option W)
    (good : W → Prop) (zero : W) (hc x0 base r : nat)
    (st : machine W) (fw : Tango642.firewall W) (log : list (call W)) : Prop :=
  length log = (base + 5 * r)%nat
  ∧ good_machine good hc st
  ∧ m_x st = (x0 + r)%nat
  ∧ (m_seed st, m_lcg st) = main_prev log base r
  ∧ good_firewall good fw
  ∧ Tango642.x2 fw = r
  ∧ (Tango642.seed1 fw, Tango642.lcg1 fw) = fw_prev zero log base r 1
  ∧ (Tango642.seed2 fw, Tango642.lcg2 fw) = fw_prev zero log base r 2
  ∧ (Tango642.seed3 fw, Tango642.lcg3 fw) = fw_prev zero log base r 3
  ∧ (Tango642.seed4 fw, Tango642.lcg4 fw) = fw_prev zero log base r 4
  ∧ Tango642.h2 fw !!! ((r + 0) mod 5)%nat = h2_source zero log base r 1
  ∧ Tango642.h2 fw !!! ((r + 1) mod 5)%nat = h2_source zero log base r 2
  ∧ Tango642.h2 fw !!! ((r + 2) mod 5)%nat = h2_source zero log base r 3
  ∧ Tango642.h2 fw !!! ((r + 3) mod 5)%nat = h2_source zero log base r 4
  ∧ Tango642.h2 fw !!! ((r + 4) mod 5)%nat = h2_source zero log base (S r) 4
  ∧ ∀ r', (r' < r)%nat → round_shape core wxor zero hc x0 log base r'.

(** The number of calls of t642_sat.py before the rounds: the warm-up, the
    nonce pass and the [hc + 1] further steps. *)
Definition keyed_base (hc : nat) : nat := (5 + hc + (hc + 1))%nat.

(** The claim that one counter, advanced after every call, selects the
    hash element of every call of a log. *)
Definition round_robin_every_call {W : Type} `{Inhabited W} (hc : nat)
    (log : list (call W)) : Prop :=
  ∃ x0, ∀ j, (j < length log)%nat →
    call_index (log !!! j) = ((x0 + j) mod hc)%nat.

(** What holds instead of the calls of the main core: element 0 during
    the five warm-up calls, then a counter from 0 advanced after each
    call. *)
Definition round_robin_after_warm_up {W : Type} `{Inhabited W} (hc n : nat)
    (log : list (call W)) : Prop :=
  ∀ j, (j < n)%nat →
    call_core_id (log !!! j) = 0%nat
    ∧ call_index (log !!! j) = (if (j <? 5)%nat then 0 else (j - 5) mod hc)%nat.

(** And of the rounds of t642_sat.py: the main core goes on with its
    counter, firewall core [k] passes element [(r + k - 1) mod 5] of the
    other array. *)
Definition round_robin_in_rounds {W : Type} `{Inhabited W} (hc R : nat)
    (log : list (call W)) : Prop :=
  ∀ r, (r < R)%nat →
    call_core_id (entry log (keyed_base hc) r 0) = 0%nat
    ∧ call_index (entry log (keyed_base hc) r 0)
      = ((keyed_base hc + r - 5) mod hc)%nat
    ∧ ∀ k, (1 ≤ k ≤ 4)%nat →
        call_core_id (entry log (keyed_base hc) r k) = k
        ∧ call_index (entry log (keyed_base hc) r k) = ((r + k - 1) mod 5)%nat.

(** The firewall cores share [h2]: in a round they pass four distinct
    elements; the element core [k + 1] returned in round [r] is the one
    core [k] is passed in round [r + 1], and the element core 1 returned
    in round [r] is the one core 4 is passed in round [r + 2]. *)
Definition h2_shared {W : Type} `{Inhabited W} (R base : nat)
    (log : list (call W)) : Prop :=
  ∀ r, (r < R)%nat →
    (∀ k, (1 ≤ k ≤ 4)%nat →
       call_core_id (entry log base r k) = k
       ∧ call_index (entry log base r k) = ((r + k - 1) mod 5)%nat)
    ∧ (∀ k k', (1 ≤ k < k')%nat → (k' ≤ 4)%nat →
         call_index (entry log base r k) ≠ call_index (entry log base r k'))
    ∧ (∀ k, (1 ≤ k ≤ 3)%nat → (r + 1 < R)%nat →
         call_index (entry log base (r + 1) k)
         = call_index (entry log base r (k + 1))
         ∧ arg_h (entry log base (r + 1) k) = ret_h (entry log base r (k + 1)))
    ∧ ((r + 2 < R)%nat →
       call_index (entry log base (r + 2) 4) = call_index (entry log base r 1)
       ∧ arg_h (entry log base (r + 2) 4) = ret_h (entry log base r 1)).

(** ** Solutions, keys and observations

    What the statements on whole runs are written with. *)

(** A model satisfies the constraints: every [make_equal] holds. *)
Definition satisfies (m : nat → bool) (constraints : list (bitf * bool)) : Prop :=
  Forall (λ c, eval m c.1 = c.2) constraints.

(** The unknown words allocated from variable [fresh] on: word [i] is the
    variables [fresh + i * bits .. fresh + i * bits + bits - 1]. *)
Definition key_words (bits fresh n : nat) : list bv :=
  map (λ i, map BVar (seq (fresh + i * bits) bits)) (seq 0 n).

(** The model that gives the unknown bits the bits of the words [words]:
    variable [j * bits + i] is bit [i] of word [j]. *)
Definition key_model (bits : nat) (words : list Z) : nat → bool :=
  λ n, Z.testbit (default 0 (words !! (n / bits)%nat)) (Z.of_nat (n mod bits)).

(** The values a model gives the unknown words [ws]. *)
Definition decode_words (m : nat → bool) (ws : list bv) : list Z :=
  map (decode_number m) ws.

(** [obs] as far as the constraints of a run see it: the first [n]
    observations, each modulo [2^bits]. *)
Definition seen (bits n : nat) (obs : list Z) : list Z :=
  map (λ o, o mod 2 ^ Z.of_nat bits) (take n obs).

(** The symbolic firewall state stands for the concrete one. *)
Definition firewall_rel (m : nat → bool) (bits : nat)
    (fw : Tango642.firewall bv) (cfw : Tango642.firewall Z) : Prop :=
  word_rel m bits (Tango642.seed1 fw) (Tango642.seed1 cfw)
  ∧ word_rel m bits (Tango642.lcg1 fw) (Tango642.lcg1 cfw)
  ∧ word_rel m bits (Tango642.seed2 fw) (Tango642.seed2 cfw)
  ∧ word_rel m bits (Tango642.lcg2 fw) (Tango642.lcg2 cfw)
  ∧ word_rel m bits (Tango642.seed3 fw) (Tango642.seed3 cfw)
  ∧ word_rel m bits (Tango642.lcg3 fw) (Tango642.lcg3 cfw)
  ∧ word_rel m bits (Tango642.seed4 fw) (Tango642.seed4 cfw)
  ∧ word_rel m bits (Tango642.lcg4 fw) (Tango642.lcg4 cfw)
  ∧ Forall2 (word_rel m bits) (Tango642.h2 fw) (Tango642.h2 cfw)
  ∧ Tango642.x2 fw = Tango642.x2 cfw.

(** The body of the nonce pass of the concrete run, as in
    [Tango642.calc_inject]. *)
Definition calc_inject_body (bits ivlen hc : nat) (iv : list Z) (i : nat)
    (s : machine Z * list (call Z) * nat)
  : option (machine Z * list (call Z) * nat) :=
  let '(st, log, ivpos) := s in
  '(st, ivpos) ←
    (if (Nat.land i 1 =? 1)%nat && (ivpos <? ivlen)%nat
     then w ← iv !! ivpos;
          let calc_seed := Z.lxor (m_seed st) (Z.land w (bmask bits)) in
          w ← iv !! ivpos;
          let calc_lcg := Z.lxor (m_lcg st) (Z.land w (bmask bits)) in
          Some (Machine calc_seed calc_lcg (m_h st) (m_x st),
                (ivpos + 1)%nat)
     else Some (st, ivpos));
  '(st, out1, log) ← step (calc bits) hc st log;
  let st := next st in
  Some (st, log, ivpos).

(** * Properties *)

(** ** Arithmetic on powers of two *)


Lemma pow2_pos n : 0 < pow2 n.
Proof. unfold pow2. apply Z.pow_pos_nonneg; lia. Qed.

Lemma pow2_S n : pow2 (S n) = 2 * pow2 n.
Proof. unfold pow2. rewrite Nat2Z.inj_succ, Z.pow_succ_r; lia. Qed.

Lemma pow2_add n k : pow2 (n + k) = pow2 n * pow2 k.
Proof. unfold pow2. rewrite Nat2Z.inj_add, Z.pow_add_r; lia. Qed.

Lemma mod_glue L K M y :
  0 ≤ L < K → 0 < M → (L + K * y) mod (K * M) = L + K * (y mod M).
Proof.
  intros HL HM.
  rewrite Z.rem_mul_r by lia.
  replace (L + K * y) with (L + y * K) by ring.
  rewrite Z.mod_add, Z.div_add by lia.
  rewrite Z.mod_small, Z.div_small by lia.
  reflexivity.
Qed.

Lemma land_bmask bits x : Z.land x (bmask bits) = x mod pow2 bits.
Proof.
  unfold bmask, pow2.
  change (Z.shiftl 1 (Z.of_nat bits) - 1) with (Z.pred (Z.shiftl 1 (Z.of_nat bits))).
  fold (Z.ones (Z.of_nat bits)).
  apply Z.land_ones. lia.
Qed.

Lemma land_1_testbit x : py_bool (Z.land x 1) = Z.testbit x 0.
Proof.
  change 1 with (Z.ones 1) at 1. rewrite Z.land_ones by lia.
  change (2 ^ 1) with 2. rewrite <- Z.bit0_mod.
  unfold py_bool. destruct (Z.testbit x 0); reflexivity.
Qed.

Lemma b2z_cons_testbit_0 (p : bool) x : Z.testbit (Z.b2z p + 2 * x) 0 = p.
Proof. rewrite Z.add_comm. apply Z.testbit_0_r. Qed.

Lemma b2z_cons_testbit_S (p : bool) x i :
  0 ≤ i → Z.testbit (Z.b2z p + 2 * x) (Z.succ i) = Z.testbit x i.
Proof. intros. rewrite Z.add_comm. apply Z.testbit_succ_r. assumption. Qed.

Lemma lxor_cons (p q : bool) x y :
  Z.lxor (Z.b2z p + 2 * x) (Z.b2z q + 2 * y) = Z.b2z (xorb p q) + 2 * Z.lxor x y.
Proof.
  apply Z.bits_inj'. intros i Hi.
  rewrite Z.lxor_spec.
  destruct (Z.eq_dec i 0) as [->|Hne].
  - rewrite !b2z_cons_testbit_0. reflexivity.
  - replace i with (Z.succ (i - 1)) by lia.
    rewrite !b2z_cons_testbit_S by lia.
    rewrite Z.lxor_spec. reflexivity.
Qed.

(** ** Decoding bit-vectors *)

Section Decode.

Variable m : nat → bool.

Lemma decode_number_bound v : 0 ≤ decode_number m v < pow2 (length v).
Proof.
  induction v as [|b v IH]; simpl.
  - unfold pow2. simpl. lia.
  - rewrite pow2_S. destruct (eval m b); simpl Z.b2z; lia.
Qed.

Lemma decode_number_app a b :
  decode_number m (a ++ b)
  = decode_number m a + pow2 (length a) * decode_number m b.
Proof.
  induction a as [|x a IH]; simpl.
  - unfold pow2. simpl. lia.
  - rewrite IH, pow2_S. ring.
Qed.

Lemma decode_number_take i v :
  (i ≤ length v)%nat →
  decode_number m (take i v) = decode_number m v mod pow2 i.
Proof.
  intros Hi.
  rewrite <- (take_drop i v) at 2.
  rewrite decode_number_app, length_take, Nat.min_l by lia.
  rewrite Z.mul_comm, Z.mod_add by (pose proof (pow2_pos i); lia).
  pose proof (decode_number_bound (take i v)) as Hb.
  rewrite length_take, Nat.min_l in Hb by lia.
  rewrite Z.mod_small; lia.
Qed.

Lemma decode_number_drop i v :
  (i ≤ length v)%nat →
  decode_number m (drop i v) = decode_number m v / pow2 i.
Proof.
  intros Hi.
  rewrite <- (take_drop i v) at 2.
  rewrite decode_number_app, length_take, Nat.min_l by lia.
  pose proof (decode_number_bound (take i v)) as Hb.
  rewrite length_take, Nat.min_l in Hb by lia.
  rewrite Z.mul_comm, Z.div_add by (pose proof (pow2_pos i); lia).
  rewrite Z.div_small; lia.
Qed.

Lemma decode_inibits_from k n x :
  decode_number m
    (map (λ i : nat,
            BConst (if py_bool (Z.land (Z.shiftr x (Z.of_nat i)) 1)
                    then true else false))
         (seq k n))
  = (x / pow2 k) mod pow2 n.
Proof.
  revert k. induction n as [|n IH]; intros k; simpl.
  - unfold pow2 at 2. simpl. rewrite Z.mod_1_r. reflexivity.
  - rewrite IH, land_1_testbit, Z.shiftr_spec by lia.
    rewrite Z.add_0_l.
    rewrite (pow2_S n), Z.rem_mul_r by (pose proof (pow2_pos n); lia).
    rewrite (pow2_S k), (Z.mul_comm 2 (pow2 k)), <- Z.div_div
      by (pose proof (pow2_pos k); lia).
    f_equal.
    rewrite <- Z.bit0_mod.
    unfold pow2. rewrite <- Z.shiftr_div_pow2, Z.shiftr_spec by lia.
    rewrite Z.add_0_l.
    destruct (Z.testbit x (Z.of_nat k)); reflexivity.
Qed.

Lemma decode_inibits n x : decode_number m (inibits n x) = x mod pow2 n.
Proof.
  unfold inibits, range. rewrite decode_inibits_from.
  unfold pow2 at 1. simpl. rewrite Z.div_1_r. reflexivity.
Qed.

Lemma length_inibits n x : length (inibits n x) = n.
Proof. unfold inibits, range. rewrite length_map, length_seq. reflexivity. Qed.

End Decode.

(** ** The symbolic operations compute on the decoded numbers *)

Lemma py_assert_true c : c = true → py_assert c = Some tt.
Proof. intros ->. reflexivity. Qed.

Lemma full_adder_body_sum (a b c : bool) :
  Z.b2z (py_bool (fst (full_adder_body a b c)))
  + 2 * Z.b2z (py_bool (snd (full_adder_body a b c)))
  = Z.b2z a + Z.b2z b + Z.b2z c.
Proof. destruct a, b, c; reflexivity. Qed.

Section Engine.

Variable m : nat → bool.

Lemma length_add_loop c ab : length (add_loop c ab) = length ab.
Proof.
  revert c. induction ab as [|[x y] ab IH]; intros c; simpl; [reflexivity|].
  rewrite IH. reflexivity.
Qed.

Lemma decode_add_loop c (a b : bv) :
  length a = length b →
  decode_number m (add_loop c (zip a b))
  = (decode_number m a + decode_number m b + Z.b2z (eval m c)) mod pow2 (length a).
Proof.
  revert b c. induction a as [|x a IH]; intros [|y b] c Hlen;
    simpl in Hlen; try discriminate.
  - simpl. unfold pow2. simpl. rewrite Z.mod_1_r. reflexivity.
  - injection Hlen as Hlen.
    cbn [zip zip_with add_loop full_adder decode_number length].
    rewrite (IH b _ Hlen). cbn [eval].
    pose proof (full_adder_body_sum (eval m x) (eval m y) (eval m c)) as Hfa.
    set (s := py_bool (fst (full_adder_body (eval m x) (eval m y) (eval m c)))) in *.
    set (k := py_bool (snd (full_adder_body (eval m x) (eval m y) (eval m c)))) in *.
    rewrite pow2_S.
    rewrite <- (mod_glue (Z.b2z s) 2) by (pose proof (pow2_pos (length a));
                                          destruct s; simpl; lia).
    f_equal. lia.
Qed.

Lemma add_spec (a b : bv) :
  length a = length b →
  ∃ r, add a b = Some r ∧ length r = length a
       ∧ decode_number m r = (decode_number m a + decode_number m b) mod pow2 (length a).
Proof.
  intros Hlen. unfold add.
  rewrite py_assert_true by (apply Nat.eqb_eq; exact Hlen).
  eexists. split; [reflexivity|]. split.
  - rewrite length_add_loop, length_zip, <- Hlen. apply Nat.min_id.
  - rewrite decode_add_loop by exact Hlen. simpl. rewrite Z.add_0_r. reflexivity.
Qed.

Lemma decode_xor_zip (a b : bv) :
  length a = length b →
  decode_number m (map (λ ij, BXor ij.1 ij.2) (zip a b)) = Z.lxor (decode_number m a) (decode_number m b).
Proof.
  revert b. induction a as [|x a IH]; intros [|y b] Hlen;
    simpl in Hlen; try discriminate.
  - reflexivity.
  - injection Hlen as Hlen.
    cbn [zip zip_with map decode_number eval fst snd].
    rewrite (IH b Hlen), lxor_cons. reflexivity.
Qed.

Lemma xor_spec (a b : bv) :
  length a = length b →
  ∃ r, xor a b = Some r ∧ length r = length a
       ∧ decode_number m r = Z.lxor (decode_number m a) (decode_number m b).
Proof.
  intros Hlen. unfold xor.
  rewrite py_assert_true by (apply Nat.eqb_eq; exact Hlen).
  eexists. split; [reflexivity|]. split.
  - rewrite length_map, length_zip, <- Hlen. apply Nat.min_id.
  - apply decode_xor_zip. exact Hlen.
Qed.

Lemma and_bit_Some (a : bv) i ai (b : bv) :
  a !! i = Some ai → and_bit a i b = Some (map (BAnd ai) b).
Proof.
  intros Hai. unfold and_bit.
  induction b as [|y b IH]; [reflexivity|].
  cbn [mapM map]. rewrite IH, Hai. reflexivity.
Qed.

Lemma and_bit_nil (a : bv) i : and_bit a i [] = Some [].
Proof. reflexivity. Qed.

Lemma decode_map_and ai (b : bv) :
  decode_number m (map (BAnd ai) b) = Z.b2z (eval m ai) * decode_number m b.
Proof.
  induction b as [|y b IH]; simpl; [lia|].
  rewrite IH. destruct (eval m ai), (eval m y); simpl Z.b2z; lia.
Qed.

Lemma decode_take_S i (a : bv) ai :
  a !! i = Some ai →
  decode_number m (take (S i) a) = decode_number m (take i a) + pow2 i * Z.b2z (eval m ai).
Proof.
  intros Hai.
  rewrite (take_S_r a i ai Hai), decode_number_app.
  rewrite length_take, Nat.min_l by (apply lookup_lt_Some in Hai; lia).
  simpl. lia.
Qed.

End Engine.

(** A loop over [seq start len] that keeps an invariant returns, and the
    invariant holds of what it returns. *)
Lemma for_in_seq_invariant {S : Type} (P : nat → S → Prop)
    (body : nat → S → option S) (len start : nat) (s : S) :
  P start s →
  (∀ i s, (start ≤ i < start + len)%nat → P i s →
          ∃ s', body i s = Some s' ∧ P (Datatypes.S i) s') →
  ∃ s', for_in (seq start len) body s = Some s' ∧ P (start + len)%nat s'.
Proof.
  revert start s. induction len as [|len IH]; intros start s H0 Hstep.
  - exists s. rewrite Nat.add_0_r. split; [reflexivity | exact H0].
  - destruct (Hstep start s ltac:(lia) H0) as (s1 & Hb & H1).
    destruct (IH (Datatypes.S start) s1 H1) as (s2 & Hf & H2).
    { intros i s' Hi. apply Hstep. lia. }
    exists s2. split.
    + cbn [seq for_in]. rewrite Hb. exact Hf.
    + replace (start + Datatypes.S len)%nat with (Datatypes.S start + len)%nat by lia.
      exact H2.
Qed.

Section Multiplier.

Variable m : nat → bool.

Lemma mul_step (n i : nat) (a b result : bv) :
  length a = n → length b = n → (1 ≤ i < n)%nat →
  length result = n →
  decode_number m result = (decode_number m (take i a) * decode_number m b) mod pow2 n →
  ∃ result',
    (addend ← and_bit a i (drop_last i b);
     tail ← add (drop i result) addend;
     Some (take i result ++ tail)) = Some result'
    ∧ length result' = n
    ∧ decode_number m result' = (decode_number m (take (S i) a) * decode_number m b) mod pow2 n.
Proof.
  intros Ha Hb Hi Hr Hdec.
  destruct (lookup_lt_is_Some_2 a i ltac:(lia)) as [ai Hai].
  rewrite (and_bit_Some a i ai _ Hai). cbn [mbind option_bind].
  destruct (add_spec m (drop i result) (map (BAnd ai) (drop_last i b)))
    as (tail & Hadd & Hlen & Htail).
  { unfold drop_last. rewrite length_drop, length_map, length_take. lia. }
  rewrite Hadd. cbn [mbind option_bind].
  eexists. split; [reflexivity|].
  rewrite length_drop, Hr in Hlen, Htail.
  split.
  - rewrite length_app, length_take, Hlen. lia.
  - rewrite decode_number_app, length_take, Nat.min_l by lia.
    rewrite Htail, decode_map_and. unfold drop_last.
    rewrite decode_number_take, decode_number_drop, decode_number_take by lia.
    rewrite Hb.
    rewrite (decode_take_S m i a ai Hai).
    pose proof (pow2_pos i) as Hpi. pose proof (pow2_pos (n - i)) as Hpn.
    assert (Hsplit : pow2 n = pow2 i * pow2 (n - i)).
    { rewrite <- pow2_add. f_equal. lia. }
    set (R := decode_number m result) in *. set (B := decode_number m b). set (A := decode_number m (take i a)) in *.
    set (x := Z.b2z (eval m ai)).
    rewrite (Z.add_mod _ (x * (B mod pow2 (n - i)))), Z.mul_mod_idemp_r,
      <- Z.add_mod by lia.
    rewrite <- mod_glue by (try apply Z.mod_pos_bound; lia).
    rewrite <- Hsplit.
    assert (Hre : R mod pow2 i + pow2 i * (R / pow2 i + x * B)
                  = pow2 i * (R / pow2 i) + R mod pow2 i + pow2 i * x * B) by ring.
    rewrite Hre, <- (Z.div_mod R (pow2 i)) by lia.
    rewrite Hdec, Zplus_mod_idemp_l.
    apply (f_equal (λ z, z mod pow2 n)). subst B. ring.
Qed.

Lemma mul_spec (a b : bv) :
  length a = length b →
  ∃ r, mul a b = Some r ∧ length r = length a
       ∧ decode_number m r = (decode_number m a * decode_number m b) mod pow2 (length a).
Proof.
  intros Hlen. unfold mul.
  rewrite py_assert_true by (apply Nat.eqb_eq; exact Hlen).
  cbn [mbind option_bind].
  destruct a as [|a0 a'].
  - destruct b; [|discriminate]. exists []. repeat split.
  - rewrite (and_bit_Some (a0 :: a') 0 a0 b eq_refl). cbn [mbind option_bind].
    set (a := a0 :: a') in *. set (n := length a) in *.
    destruct (for_in_seq_invariant
                (λ i r, length r = n ∧ decode_number m r = (decode_number m (take i a) * decode_number m b) mod pow2 n)
                (λ i result,
                   addend ← and_bit a i (drop_last i b);
                   tail ← add (drop i result) addend;
                   Some (take i result ++ tail))
                (n - 1) 1 (map (BAnd a0) b))
      as (r & Hfor & Hrl & Hrd).
    + split; [rewrite length_map; lia|].
      rewrite decode_map_and. change (take 1 a) with [a0].
      cbn [decode_number].
      pose proof (decode_number_bound m b) as Hbb. rewrite <- Hlen in Hbb.
      replace ((Z.b2z (eval m a0) + 2 * 0) * decode_number m b) with (Z.b2z (eval m a0) * decode_number m b) by ring.
      symmetry. apply Z.mod_small.
      destruct (eval m a0); simpl Z.b2z; lia.
    + intros i s Hi [Hs1 Hs2].
      destruct (mul_step n i a b s eq_refl (eq_sym Hlen) ltac:(lia) Hs1 Hs2)
        as (s' & E & H1 & H2).
      exists s'. split; [exact E | split; assumption].
    + exists r. unfold range2. split; [exact Hfor|]. split; [exact Hrl|].
      rewrite Hrd. replace (1 + (n - 1))%nat with n by (subst n a; simpl; lia).
      unfold n. rewrite firstn_all. reflexivity.
Qed.

End Multiplier.

(** ** The concrete step in arithmetic form *)

Lemma lor_shiftl_low r n g :
  0 ≤ n → 0 ≤ g < 2 ^ n → Z.lor (Z.shiftl r n) g = r * 2 ^ n + g.
Proof.
  intros Hn Hg.
  assert (Hland : Z.land (Z.shiftl r n) g = 0).
  { apply Z.bits_inj'. intros i Hi.
    rewrite Z.land_spec, Z.bits_0.
    destruct (Z.lt_ge_cases i n) as [Hlt|Hge].
    - rewrite Z.shiftl_spec_low by exact Hlt. reflexivity.
    - destruct (Z.eq_dec g 0) as [->|Hg0].
      + rewrite Z.bits_0. apply andb_false_r.
      + rewrite (Z.bits_above_log2 g i), andb_false_r; [reflexivity | lia |].
        apply Z.log2_lt_pow2; [lia|].
        apply Z.lt_le_trans with (2 ^ n); [lia|].
        apply Z.pow_le_mono_r; lia. }
  rewrite <- Z.lxor_lor by exact Hland.
  rewrite <- Z.add_nocarry_lxor by exact Hland.
  rewrite Z.shiftl_mul_pow2 by exact Hn. reflexivity.
Qed.

Lemma bits2_half bits : bits2 bits = (bits / 2)%nat.
Proof. unfold bits2. rewrite Nat.shiftr_div_pow2. reflexivity. Qed.

Lemma rawbits_replicate n :
  fold_left (λ '(r5, rA) (_ : nat),
               (Z.lor (Z.shiftl r5 2) 1, Z.lor (Z.shiftl rA 2) 2))
            (range n) (0, 0)
  = (replicate_group 1 n, replicate_group 2 n).
Proof.
  assert (Hgen : ∀ (l : list nat) j,
            fold_left (λ '(r5, rA) (_ : nat),
                         (Z.lor (Z.shiftl r5 2) 1, Z.lor (Z.shiftl rA 2) 2))
                      l (replicate_group 1 j, replicate_group 2 j)
            = (replicate_group 1 (length l + j), replicate_group 2 (length l + j))).
  { induction l as [|x l IH]; intros j; [reflexivity|].
    cbn [fold_left length].
    rewrite !lor_shiftl_low by lia.
    change (2 ^ 2) with 4.
    replace (replicate_group 1 j * 4 + 1) with (replicate_group 1 (S j))
      by (cbn [replicate_group]; lia).
    replace (replicate_group 2 j * 4 + 2) with (replicate_group 2 (S j))
      by (cbn [replicate_group]; lia).
    rewrite IH. replace (length l + S j)%nat with (S (length l) + j)%nat by lia.
    reflexivity. }
  specialize (Hgen (range n) O). cbn [replicate_group] in Hgen.
  rewrite Hgen. unfold range. rewrite length_seq, Nat.add_0_r. reflexivity.
Qed.

Lemma rawbits5_spec bits : rawbits5 bits = ROUND_CONST_B bits.
Proof.
  unfold rawbits5, rawbits, ROUND_CONST_B.
  rewrite rawbits_replicate, bits2_half. reflexivity.
Qed.

Lemma rawbitsA_spec bits : rawbitsA bits = ROUND_CONST_A bits.
Proof.
  unfold rawbitsA, rawbits, ROUND_CONST_A.
  rewrite rawbits_replicate, bits2_half. reflexivity.
Qed.

Lemma even_halves bits : Nat.Even bits → (bits = bits / 2 + bits / 2)%nat.
Proof.
  intros [k ->]. rewrite Nat.mul_comm, Nat.div_mul by lia. lia.
Qed.

(** The masked double shift is the exchange of halves. *)
Lemma rotate_calc bits s :
  Nat.Even bits → 0 ≤ s < pow2 bits →
  Z.land (Z.lor (Z.shiftr s (Z.of_nat (bits2 bits)))
                (Z.shiftl s (Z.of_nat (bits2 bits))))
         (bmask bits)
  = rotate_halves bits s.
Proof.
  intros Hev Hs. rewrite land_bmask, bits2_half. unfold rotate_halves.
  fold (pow2 (bits / 2)).
  pose proof (pow2_pos (bits / 2)) as Hp.
  assert (Hsplit : pow2 bits = pow2 (bits / 2) * pow2 (bits / 2)).
  { rewrite <- pow2_add, <- even_halves by exact Hev. reflexivity. }
  assert (Hhi : 0 ≤ s / pow2 (bits / 2) < pow2 (bits / 2)).
  { split; [apply Z.div_pos; lia|].
    apply Z.div_lt_upper_bound; lia. }
  rewrite Z.lor_comm, Z.shiftr_div_pow2 by lia.
  fold (pow2 (bits / 2)).
  rewrite lor_shiftl_low by (fold (pow2 (bits / 2)); lia).
  fold (pow2 (bits / 2)).
  rewrite Hsplit, Z.add_comm, (Z.mul_comm s), mod_glue by lia.
  lia.
Qed.

Lemma calc_arith bits seed lcg h :
  Nat.Even bits → prvhash_core_calc bits seed lcg h = step_spec bits seed lcg h.
Proof.
  intros Hev. unfold prvhash_core_calc, step_spec. fold (pow2 bits).
  rewrite (land_bmask bits (seed * _)).
  replace (lcg * 2 + 1) with (2 * lcg + 1) by ring.
  set (seed' := (seed * (2 * lcg + 1)) mod pow2 bits).
  assert (Hs : 0 ≤ seed' < pow2 bits)
    by (apply Z.mod_pos_bound, pow2_pos).
  rewrite (rotate_calc bits seed' Hev Hs).
  rewrite !land_bmask, rawbits5_spec, rawbitsA_spec.
  rewrite !Z.add_assoc. reflexivity.
Qed.

(** ** One symbolic step decodes to one concrete step *)

Section SatStep.

Variable m : nat → bool.

Variable bits : nat.
Hypothesis bits_even : Nat.Even bits.
Hypothesis bits_pos : (0 < bits)%nat.

Lemma length_multiplier (lcg : bv) :
  length lcg = bits → length ([BConst true] ++ drop_last 1 lcg) = bits.
Proof.
  intros Hl. unfold drop_last.
  rewrite length_app, length_take, Hl. simpl. lia.
Qed.

Lemma decode_multiplier (lcg : bv) :
  length lcg = bits →
  decode_number m ([BConst true] ++ drop_last 1 lcg) mod pow2 bits
  = (2 * decode_number m lcg + 1) mod pow2 bits.
Proof.
  intros Hl. unfold drop_last. cbn [app decode_number eval Z.b2z].
  rewrite decode_number_take by lia. rewrite Hl.
  replace bits with (S (bits - 1)) at 2 3 by lia.
  rewrite pow2_S.
  pose proof (pow2_pos (bits - 1)) as Hp.
  rewrite <- Z.mul_mod_distr_l by lia.
  rewrite Z.add_mod_idemp_r by lia.
  f_equal. ring.
Qed.

Lemma sat_step_spec (seed lcg h : bv) :
  length seed = bits → length lcg = bits → length h = bits →
  ∃ seed' lcg' h' out,
    prvhash_core_sat bits seed lcg h = Some (seed', lcg', h', out)
    ∧ length seed' = bits ∧ length lcg' = bits
    ∧ length h' = bits ∧ length out = bits
    ∧ (decode_number m seed', decode_number m lcg', decode_number m h', decode_number m out)
      = prvhash_core_calc bits (decode_number m seed) (decode_number m lcg) (decode_number m h).
Proof.
  intros Hs Hl Hh. unfold prvhash_core_sat.
  pose proof (pow2_pos bits) as Hpb.
  destruct (mul_spec m seed ([BConst true] ++ drop_last 1 lcg))
    as (s1 & -> & Hs1 & Ds1).
  { rewrite length_multiplier by exact Hl. exact Hs. }
  rewrite Hs in Hs1, Ds1. cbn [mbind option_bind].
  rewrite <- Z.mul_mod_idemp_r, decode_multiplier, Z.mul_mod_idemp_r in Ds1
    by (try exact Hl; lia).
  set (rs := drop (bits2 bits) s1 ++ take (bits2 bits) s1).
  assert (Hhalf : (bits2 bits ≤ bits)%nat).
  { rewrite bits2_half. apply Nat.Div0.div_le_upper_bound. lia. }
  assert (Hrs : length rs = bits).
  { unfold rs. rewrite length_app, length_drop, length_take, Hs1. lia. }
  assert (Drs : decode_number m rs = rotate_halves bits (decode_number m s1)).
  { unfold rs, rotate_halves.
    rewrite decode_number_app, decode_number_drop, decode_number_take,
      length_drop, Hs1 by lia.
    rewrite bits2_half. fold (pow2 (bits / 2)).
    replace (bits - bits / 2)%nat with (bits / 2)%nat
      by (pose proof (even_halves bits bits_even); lia).
    ring. }
  destruct (add_spec m rs (BITRA bits)) as (t1 & -> & Ht1 & Dt1).
  { unfold BITRA. rewrite length_inibits. exact Hrs. }
  rewrite Hrs in Ht1, Dt1. cbn [mbind option_bind].
  destruct (add_spec m h t1) as (h1 & -> & Hh1 & Dh1); [congruence|].
  rewrite Hh in Hh1, Dh1. cbn [mbind option_bind].
  destruct (add_spec m s1 (BITR5 bits)) as (t2 & -> & Ht2 & Dt2).
  { unfold BITR5. rewrite length_inibits. exact Hs1. }
  rewrite Hs1 in Ht2, Dt2. cbn [mbind option_bind].
  destruct (add_spec m lcg t2) as (l1 & -> & Hl1 & Dl1); [congruence|].
  rewrite Hl in Hl1, Dl1. cbn [mbind option_bind].
  destruct (xor_spec m s1 h1) as (s2 & -> & Hs2 & Ds2); [congruence|].
  cbn [mbind option_bind].
  destruct (xor_spec m l1 rs) as (o1 & -> & Ho1 & Do1); [congruence|].
  cbn [mbind option_bind].
  exists s2, l1, h1, o1. split; [reflexivity|].
  repeat (split; [congruence|]).
  rewrite (calc_arith bits _ _ _ bits_even). unfold step_spec. fold (pow2 bits).
  rewrite Ds2, Do1, Dh1, Dl1, Dt1, Dt2, Drs, Ds1.
  unfold BITRA, BITR5. rewrite !decode_inibits.
  rewrite !Z.add_mod_idemp_r by lia.
  rewrite rawbits5_spec, rawbitsA_spec.
  rewrite !Z.add_assoc, !Z.add_mod_idemp_r by lia. reflexivity.
Qed.

End SatStep.

(** * The claims on the arithmetic and on one step *)

(** [C3] Adder correctness: for integers [a], [b] within the width, adding
    their constant bit-vectors returns a bit-vector of the same width that
    decodes, under every model, to [(a + b) mod 2^width]; the carry out of
    the top bit is dropped. *)
Theorem adder_correct (m : nat → bool) (width : nat) (a b : Z) :
  0 ≤ a < 2 ^ Z.of_nat width → 0 ≤ b < 2 ^ Z.of_nat width →
  ∃ r, add (inibits width a) (inibits width b) = Some r
       ∧ length r = width
       ∧ decode_number m r = (a + b) mod 2 ^ Z.of_nat width.
Proof.
  intros Ha Hb.
  destruct (add_spec m (inibits width a) (inibits width b)) as (r & E & Hl & Hd).
  { rewrite !length_inibits. reflexivity. }
  exists r. rewrite length_inibits in Hl, Hd.
  rewrite !decode_inibits in Hd. unfold pow2 in Hd.
  rewrite (Z.mod_small a), (Z.mod_small b) in Hd by assumption.
  auto.
Qed.

Lemma adder_correct_witness :
  ∃ r, add (inibits 6 45) (inibits 6 37) = Some r
       ∧ length r = 6%nat
       ∧ decode_number (λ _, false) r = (45 + 37) mod 2 ^ Z.of_nat 6.
Proof. apply (adder_correct (λ _, false) 6 45 37); cbn; lia. Defined.

(** [C4] Multiplier correctness: for integers [a], [b] within the width,
    the shift-and-add product of their constant bit-vectors has the same
    width and decodes, under every model, to [(a * b) mod 2^width]. *)
Theorem multiplier_correct (m : nat → bool) (width : nat) (a b : Z) :
  0 ≤ a < 2 ^ Z.of_nat width → 0 ≤ b < 2 ^ Z.of_nat width →
  ∃ r, mul (inibits width a) (inibits width b) = Some r
       ∧ length r = width
       ∧ decode_number m r = (a * b) mod 2 ^ Z.of_nat width.
Proof.
  intros Ha Hb.
  destruct (mul_spec m (inibits width a) (inibits width b)) as (r & E & Hl & Hd).
  { rewrite !length_inibits. reflexivity. }
  exists r. rewrite length_inibits in Hl, Hd.
  rewrite !decode_inibits in Hd. unfold pow2 in Hd.
  rewrite (Z.mod_small a), (Z.mod_small b) in Hd by assumption.
  auto.
Qed.

Lemma multiplier_correct_witness :
  ∃ r, mul (inibits 6 45) (inibits 6 37) = Some r
       ∧ length r = 6%nat
       ∧ decode_number (λ _, false) r = (45 * 37) mod 2 ^ Z.of_nat 6.
Proof. apply (multiplier_correct (λ _, false) 6 45 37); cbn; lia. Defined.

(** [C2] For an even width [w] and all inputs (in particular those of
    width [w]), one concrete step returns what the specification's
    recurrence [step_spec] returns: the product modulo [2^w], its halves
    exchanged, the two sums with the round constants modulo [2^w], and the
    two exclusive-ors; the round constants are the groups [10] and [01]
    repeated [w/2] times. *)
Theorem core_calc_is_step_spec (w : nat) (seed lcg h : Z) :
  Nat.Even w →
  prvhash_core_calc w seed lcg h = step_spec w seed lcg h
  ∧ rawbitsA w = ROUND_CONST_A w ∧ rawbits5 w = ROUND_CONST_B w.
Proof.
  intros Hev. split; [apply calc_arith; exact Hev|].
  split; [apply rawbitsA_spec | apply rawbits5_spec].
Qed.

Lemma core_calc_is_step_spec_witness :
  prvhash_core_calc 6 4 5 13 = step_spec 6 4 5 13
  ∧ rawbitsA 6 = ROUND_CONST_A 6 ∧ rawbits5 6 = ROUND_CONST_B 6.
Proof.
  apply (core_calc_is_step_spec 6 4 5 13). exists 3%nat. reflexivity.
Defined.

(** The multiplier [2*lcg + 1] modulo [2^bits] does not see the top bit of
    [lcg]. *)
Lemma multiplier_ignores_top bits lcg1 lcg2 :
  (0 < bits)%nat →
  (∀ i, 0 ≤ i < Z.of_nat bits - 1 → Z.testbit lcg1 i = Z.testbit lcg2 i) →
  (lcg1 * 2 + 1) mod pow2 bits = (lcg2 * 2 + 1) mod pow2 bits.
Proof.
  intros Hpos Hbits.
  assert (Hlow : lcg1 mod pow2 (bits - 1) = lcg2 mod pow2 (bits - 1)).
  { apply Z.bits_inj'. intros i Hi. unfold pow2.
    destruct (Z.lt_ge_cases i (Z.of_nat (bits - 1))) as [Hlt|Hge].
    - rewrite !Z.mod_pow2_bits_low by lia. apply Hbits. lia.
    - rewrite !Z.mod_pow2_bits_high by lia. reflexivity. }
  replace bits with (S (bits - 1)) by lia. rewrite pow2_S.
  pose proof (pow2_pos (bits - 1)) as Hp.
  rewrite (Z.mul_comm lcg1), (Z.mul_comm lcg2).
  rewrite <- (Z.add_mod_idemp_l (2 * lcg1)), <- (Z.add_mod_idemp_l (2 * lcg2)) by lia.
  rewrite !Z.mul_mod_distr_l, Hlow by lia.
  reflexivity.
Qed.

Lemma add_same_length (a1 a2 b : bv) :
  length a1 = length a2 →
  match add a1 b, add a2 b with
  | Some r1, Some r2 => length r1 = length r2
  | None, None => True
  | _, _ => False
  end.
Proof.
  intros Hl. unfold add. rewrite <- Hl.
  destruct (length a1 =? length b)%nat; cbn; [|exact I].
  rewrite !length_add_loop, !length_zip. lia.
Qed.

Lemma xor_same_length (a1 a2 b : bv) :
  length a1 = length a2 →
  match xor a1 b, xor a2 b with
  | Some _, Some _ | None, None => True
  | _, _ => False
  end.
Proof.
  intros Hl. unfold xor. rewrite <- Hl.
  destruct (length a1 =? length b)%nat; cbn; exact I.
Qed.

(** [C9] The top bit of [lcg] never reaches the new seed or the new hash
    word.  Concretely: two step inputs whose [lcg] agree on every bit below
    the top one return the same seed and hash word.  Symbolically: the
    multiplier is built from [lcg] without its last element, so two [lcg]
    bit-vectors that agree up to the last element give the same seed and
    hash-word formulas.  (The returned [lcg] and output may differ.) *)
Theorem lcg_top_bit_not_in_seed (bits : nat) :
  (0 < bits)%nat →
  (∀ seed lcg1 lcg2 h : Z,
     (∀ i, 0 ≤ i < Z.of_nat bits - 1 → Z.testbit lcg1 i = Z.testbit lcg2 i) →
     res_seed (prvhash_core_calc bits seed lcg1 h)
     = res_seed (prvhash_core_calc bits seed lcg2 h)
     ∧ res_h (prvhash_core_calc bits seed lcg1 h)
       = res_h (prvhash_core_calc bits seed lcg2 h))
  ∧ (∀ seed lcg1 lcg2 h : bv,
       length lcg1 = length lcg2 →
       drop_last 1 lcg1 = drop_last 1 lcg2 →
       (λ r, (res_seed r, res_h r)) <$> prvhash_core_sat bits seed lcg1 h
       = (λ r, (res_seed r, res_h r)) <$> prvhash_core_sat bits seed lcg2 h).
Proof.
  intros Hpos. split.
  - intros seed lcg1 lcg2 h Hbits.
    assert (Hprod : Z.land (seed * (lcg1 * 2 + 1)) (bmask bits)
                    = Z.land (seed * (lcg2 * 2 + 1)) (bmask bits)).
    { rewrite !land_bmask.
      pose proof (pow2_pos bits) as Hp.
      rewrite <- (Z.mul_mod_idemp_r seed (lcg1 * 2 + 1)) by lia.
      rewrite <- (Z.mul_mod_idemp_r seed (lcg2 * 2 + 1)) by lia.
      rewrite (multiplier_ignores_top bits lcg1 lcg2 Hpos Hbits).
      reflexivity. }
    unfold prvhash_core_calc, res_seed, res_h. cbn [fst snd].
    rewrite Hprod. split; reflexivity.
  - intros seed lcg1 lcg2 h Hlen Hdrop.
    unfold prvhash_core_sat. rewrite Hdrop.
    destruct (mul seed ([BConst true] ++ drop_last 1 lcg2)) as [s1|];
      [cbn [mbind option_bind]|reflexivity].
    destruct (add (drop (bits2 bits) s1 ++ take (bits2 bits) s1) (BITRA bits))
      as [t1|]; [cbn [mbind option_bind]|reflexivity].
    destruct (add h t1) as [h1|]; [cbn [mbind option_bind]|reflexivity].
    destruct (add s1 (BITR5 bits)) as [t2|]; [cbn [mbind option_bind]|reflexivity].
    pose proof (add_same_length lcg1 lcg2 t2 Hlen) as Hadd.
    destruct (add lcg1 t2) as [l1|], (add lcg2 t2) as [l2|];
      try contradiction; [cbn [mbind option_bind]|reflexivity].
    destruct (xor s1 h1) as [s2|]; [cbn [mbind option_bind]|reflexivity].
    pose proof (xor_same_length l1 l2
                  (drop (bits2 bits) s1 ++ take (bits2 bits) s1) Hadd) as Hxor.
    destruct (xor l1 _) as [o1|], (xor l2 _) as [o2|]; try contradiction;
      reflexivity.
Qed.

Lemma lcg_top_bit_not_in_seed_witness :
  res_seed (prvhash_core_calc 6 4 5 13) = res_seed (prvhash_core_calc 6 4 37 13)
  ∧ res_h (prvhash_core_calc 6 4 5 13) = res_h (prvhash_core_calc 6 4 37 13).
Proof.
  apply (proj1 (lcg_top_bit_not_in_seed 6 ltac:(lia)) 4 5 37 13).
  intros i Hi.
  assert (Hc : i = 0 ∨ i = 1 ∨ i = 2 ∨ i = 3 ∨ i = 4) by lia.
  destruct Hc as [->|[->|[->|[->| ->]]]]; reflexivity.
Defined.

(** The returned [lcg] and output do see the top bit. *)
Example lcg_top_bit_in_lcg_and_out :
  prvhash_core_calc 6 4 5 13 = (48, 6, 28, 35)
  ∧ prvhash_core_calc 6 4 (5 + 32) 13 = (48, 38, 28, 3).
Proof. split; vm_compute; reflexivity. Qed.

(** * A symbolic run decodes to the concrete run *)


Lemma for_in_sim {A S1 S2 : Type} (R : S1 → S2 → Prop) (l : list A)
    (body1 : A → S1 → option S1) (body2 : A → S2 → option S2) s1 s2 :
  R s1 s2 →
  (∀ i s1 s2, R s1 s2 → rel_opt R (body1 i s1) (body2 i s2)) →
  rel_opt R (for_in l body1 s1) (for_in l body2 s2).
Proof.
  intros H0 Hstep. revert s1 s2 H0.
  induction l as [|i l IH]; intros s1 s2 H0; [exact H0|].
  cbn [for_in]. specialize (Hstep i s1 s2 H0).
  destruct (body1 i s1) as [s1'|], (body2 i s2) as [s2'|]; try contradiction;
    cbn [mbind option_bind]; [auto | exact I].
Qed.

Lemma calc_mod bits seed lcg h :
  Nat.Even bits →
  prvhash_core_calc bits (seed mod pow2 bits) (lcg mod pow2 bits) (h mod pow2 bits)
  = prvhash_core_calc bits seed lcg h.
Proof.
  intros Hev. rewrite !calc_arith by exact Hev. unfold step_spec.
  fold (pow2 bits). pose proof (pow2_pos bits) as Hp.
  assert (Hs : ((seed mod pow2 bits) * (2 * (lcg mod pow2 bits) + 1)) mod pow2 bits
               = (seed * (2 * lcg + 1)) mod pow2 bits).
  { assert (Hm : (2 * (lcg mod pow2 bits) + 1) mod pow2 bits
                 = (2 * lcg + 1) mod pow2 bits).
    { rewrite <- (Z.add_mod_idemp_l (2 * (lcg mod pow2 bits))) by lia.
      rewrite (Z.mul_mod_idemp_r 2 lcg) by lia.
      rewrite Z.add_mod_idemp_l by lia. reflexivity. }
    rewrite Z.mul_mod_idemp_l by lia.
    rewrite <- (Z.mul_mod_idemp_r seed (2 * (lcg mod pow2 bits) + 1)) by lia.
    rewrite Hm, Z.mul_mod_idemp_r by lia. reflexivity. }
  rewrite Hs.
  rewrite <- !Z.add_assoc.
  rewrite !(Z.add_mod_idemp_l _ _ (pow2 bits)) by lia.
  reflexivity.
Qed.

Section Simulation.

Variable m : nat → bool.
Variable bits : nat.
Hypothesis bits_even : Nat.Even bits.
Hypothesis bits_pos : (0 < bits)%nat.



Lemma word_eq_rel w c : (word_eq m bits) w c → (word_rel m bits) w c.
Proof.
  intros [Hl Hd]. split; [exact Hl|].
  pose proof (decode_number_bound m w) as Hb. rewrite Hl, Hd in Hb.
  rewrite Z.mod_small by exact Hb. exact Hd.
Qed.

Lemma word_rel_inibits c : (word_rel m bits) (inibits bits c) c.
Proof. split; [apply length_inibits | apply decode_inibits]. Qed.

Lemma sat_step_sim (s l h : bv) (cs cl ch : Z) :
  (word_rel m bits) s cs → (word_rel m bits) l cl → (word_rel m bits) h ch →
  ∃ r, prvhash_core_sat bits s l h = Some r
       ∧ (word_eq m bits) (res_seed r) (res_seed (prvhash_core_calc bits cs cl ch))
       ∧ (word_eq m bits) (res_lcg r) (res_lcg (prvhash_core_calc bits cs cl ch))
       ∧ (word_eq m bits) (res_h r) (res_h (prvhash_core_calc bits cs cl ch))
       ∧ (word_eq m bits) (res_out r) (res_out (prvhash_core_calc bits cs cl ch))
       ∧ decode4 m r = prvhash_core_calc bits cs cl ch.
Proof.
  intros [Ls Ds] [Ll Dl] [Lh Dh].
  destruct (sat_step_spec m bits bits_even bits_pos s l h Ls Ll Lh)
    as (s' & l' & h' & o & E & Ls' & Ll' & Lh' & Lo & Hd).
  rewrite Ds, Dl, Dh, calc_mod in Hd by exact bits_even.
  exists (s', l', h', o). split; [exact E|].
  unfold word_eq, res_seed, res_lcg, res_h, res_out, decode4. cbn [fst snd].
  rewrite <- Hd. cbn [fst snd]. repeat split; assumption.
Qed.


(** One call, symbolic and concrete, from related arguments. *)
Lemma call_core_sim who (s l : bv) (hs : list bv) (cs cl : Z) (ch : list Z)
    (x modulus : nat) slog clog :
  (word_rel m bits) s cs → (word_rel m bits) l cl → Forall2 (word_rel m bits) hs ch →
  (shown_log_rel m) slog clog →
  rel_opt (λ '(s', l', hs', o, slog') '(cs', cl', ch', co, clog'),
             (word_eq m bits) s' cs' ∧ (word_eq m bits) l' cl' ∧ Forall2 (word_rel m bits) hs' ch'
             ∧ (word_eq m bits) o co ∧ (shown_log_rel m) slog' clog')
    (call_core (sat bits) who s l hs x modulus slog)
    (call_core (calc bits) who cs cl ch x modulus clog).
Proof.
  intros Hs Hl Hh Hlog. unfold call_core, py_mod.
  destruct (modulus =? 0)%nat; [exact I|]. cbn [mbind option_bind].
  set (i := (x mod modulus)%nat).
  pose proof (Forall2_length _ _ _ Hh) as Hlen.
  destruct (hs !! i) as [hw|] eqn:Ehs; cbn [mbind option_bind].
  2:{ apply lookup_ge_None in Ehs.
      rewrite (lookup_ge_None_2 ch i) by lia. exact I. }
  destruct (lookup_lt_is_Some_2 ch i) as [chw Ech].
  { apply lookup_lt_Some in Ehs. lia. }
  rewrite Ech. cbn [mbind option_bind].
  pose proof (Forall2_lookup_lr _ _ _ _ _ _ Hh Ehs Ech) as Hw.
  destruct (sat_step_sim s l hw cs cl chw Hs Hl Hw)
    as ([[[s' l'] h'] o] & E & Hs' & Hl' & Hh' & Ho & Hd).
  unfold sat, calc. rewrite E. cbn [mbind option_bind].
  destruct (prvhash_core_calc bits cs cl chw) as [[[cs' cl'] ch'] co] eqn:Ec.
  unfold res_seed, res_lcg, res_h, res_out in *. cbn [fst snd] in *.
  unfold py_setitem.
  replace (i <? length hs)%nat with true
    by (symmetry; apply Nat.ltb_lt; apply lookup_lt_Some in Ehs; exact Ehs).
  replace (i <? length ch)%nat with true
    by (symmetry; apply Nat.ltb_lt; apply lookup_lt_Some in Ech; exact Ech).
  cbn [mbind option_bind rel_opt].
  repeat (split; [assumption|]). split.
  { apply Forall2_insert; [exact Hh | apply word_eq_rel; exact Hh']. }
  split; [exact Ho|].
  unfold shown_log_rel in *. rewrite !map_app, Hlog. cbn [map].
  unfold shown_sat, shown_calc. cbn [call_core_id call_index call_result].
  rewrite Hd. reflexivity.
Qed.



Lemma step_sim hc ss cs slog clog :
  (machine_rel m bits) ss cs → (shown_log_rel m) slog clog →
  rel_opt (λ '(ss', o, slog') '(cs', co, clog'),
             (machine_rel m bits) ss' cs' ∧ (word_eq m bits) o co ∧ (shown_log_rel m) slog' clog')
    (step (sat bits) hc ss slog) (step (calc bits) hc cs clog).
Proof.
  intros (Hs & Hl & Hh & Hx) Hlog. unfold step. rewrite Hx.
  pose proof (call_core_sim 0 _ _ _ _ _ _ (m_x cs) hc _ _ Hs Hl Hh Hlog) as H.
  destruct (call_core (sat bits) _ _ _ _ _ _ _) as [[[[[s' l'] hs'] o] slog']|],
           (call_core (calc bits) _ _ _ _ _ _ _) as [[[[[cs' cl'] ch'] co] clog']|];
    try contradiction; cbn [mbind option_bind rel_opt]; [|exact I].
  destruct H as (Hs' & Hl' & Hh' & Ho & Hlog').
  repeat split; try apply word_eq_rel; try assumption; apply Hs' || apply Hl' || apply Ho.
Qed.

Lemma next_rel ss cs : (machine_rel m bits) ss cs → (machine_rel m bits) (next ss) (next cs).
Proof.
  intros (Hs & Hl & Hh & Hx). unfold next, machine_rel. cbn. rewrite Hx. auto.
Qed.

Lemma run_calls_sim hc xs s c :
  (run_rel m bits) s c →
  rel_opt (run_rel m bits) (run_calls (sat bits) hc xs s) (run_calls (calc bits) hc xs c).
Proof.
  intros H. unfold run_calls. apply for_in_sim; [exact H|].
  intros x [ss slog] [cs clog] [(Hs & Hl & Hh & Hx) Hlog]. cbn [fst snd] in *.
  assert (Hm : (machine_rel m bits) (Machine (m_seed ss) (m_lcg ss) (m_h ss) x)
                           (Machine (m_seed cs) (m_lcg cs) (m_h cs) x))
    by (unfold machine_rel; cbn; auto).
  pose proof (step_sim hc _ _ slog clog Hm Hlog) as Hstep.
  destruct (step (sat bits) _ _ _) as [[[ss' o] slog']|],
           (step (calc bits) _ _ _) as [[[cs' co] clog']|];
    cbn [mbind option_bind rel_opt] in *; try exact Hstep.
  destruct Hstep as (H1 & _ & H3). split; assumption.
Qed.

End Simulation.

(** * Schedules *)

Ltac mod_facts :=
  repeat match goal with
  | |- context [(?a mod ?b)%nat] =>
      lazymatch goal with
      | _ : a = (b * (a / b) + a mod b)%nat |- _ => fail
      | _ => pose proof (Nat.div_mod_eq a b);
             pose proof (Nat.mod_upper_bound a b ltac:(lia))
      end
  | _ : context [(?a mod ?b)%nat] |- _ =>
      lazymatch goal with
      | _ : a = (b * (a / b) + a mod b)%nat |- _ => fail
      | _ => pose proof (Nat.div_mod_eq a b);
             pose proof (Nat.mod_upper_bound a b ltac:(lia))
      end
  end.

Section Drive.

Context {W : Type} `{Inhabited W}.
Variable core : W → W → W → option (W * W * W * W).
Variable good : W → Prop.


Hypothesis core_good : (core_total core good).

Lemma call_core_good who s l (h : list W) x md log :
  (0 < md)%nat → length h = md → good s → good l → Forall good h →
  ∃ r, core s l (h !!! (x mod md)%nat) = Some r
       ∧ call_core core who s l h x md log
         = Some (res_seed r, res_lcg r, <[(x mod md)%nat := res_h r]> h,
                 res_out r,
                 log ++ [Call who (x mod md)%nat (s, l, h !!! (x mod md)%nat) r])
       ∧ good (res_seed r) ∧ good (res_lcg r) ∧ good (res_out r)
       ∧ Forall good (<[(x mod md)%nat := res_h r]> h).
Proof.
  intros Hmd Hlen Hs Hl Hh.
  assert (Hi : (x mod md < length h)%nat)
    by (rewrite Hlen; apply Nat.mod_upper_bound; lia).
  pose proof (Forall_lookup_total_1 good h _ Hh Hi) as Hhw.
  destruct (core_good s l _ Hs Hl Hhw) as (r & E & G1 & G2 & G3 & G4).
  exists r. split; [exact E|]. split.
  - unfold call_core, py_mod.
    replace (md =? 0)%nat with false by (symmetry; apply Nat.eqb_neq; lia).
    cbn [mbind option_bind].
    rewrite (list_lookup_lookup_total_lt h _ Hi). cbn [mbind option_bind].
    rewrite E. cbn [mbind option_bind].
    destruct r as [[[s' l'] h'] o]. unfold py_setitem.
    replace (x mod md <? length h)%nat with true
      by (symmetry; apply Nat.ltb_lt; exact Hi).
    reflexivity.
  - repeat split; try assumption. apply Forall_insert; assumption.
Qed.


Lemma step_good hc st log :
  (0 < hc)%nat → (good_machine good) hc st →
  ∃ c st',
    step core hc st log = Some (st', call_out c, log ++ [c])
    ∧ (good_machine good) hc st' ∧ good (call_out c)
    ∧ m_x st' = m_x st
    ∧ m_seed st' = ret_seed c ∧ m_lcg st' = ret_lcg c
    ∧ call_core_id c = 0%nat ∧ call_index c = (m_x st mod hc)%nat
    ∧ genuine core c
    ∧ arg_seed c = m_seed st ∧ arg_lcg c = m_lcg st.
Proof.
  intros Hhc (Gs & Gl & Gh & Hlen).
  destruct (call_core_good 0 (m_seed st) (m_lcg st) (m_h st) (m_x st) hc log
              Hhc Hlen Gs Gl Gh) as (r & E & Ecall & G1 & G2 & G3 & G4).
  eexists (Call 0 _ _ r), _. unfold step. rewrite Ecall.
  cbn [mbind option_bind]. split; [reflexivity|].
  unfold good_machine, genuine, ret_seed, ret_lcg, call_out, arg_seed, arg_lcg,
    arg_h.
  cbn [m_seed m_lcg m_h m_x call_result call_args call_core_id call_index
       fst snd].
  rewrite length_insert. repeat split; assumption.
Qed.

Lemma next_good hc st : (good_machine good) hc st → (good_machine good) hc (next st).
Proof. intros H0. exact H0. Qed.

(** Appending a call that continues the run. *)
Lemma calls_from_snoc hc xf pre start (L : list (call W)) c :
  calls_from core hc xf pre start L →
  call_core_id c = 0%nat →
  call_index c = (xf (length L) mod hc)%nat →
  genuine core c →
  pre (length L) (prev_of start L (length L)) = Some (arg_seed c, arg_lcg c) →
  calls_from core hc xf pre start (L ++ [c]).
Proof.
  intros HL Hid Hidx Hgen Hpre j Hj.
  rewrite length_app in Hj. cbn [length] in Hj.
  destruct (Nat.eq_dec j (length L)) as [->|Hne].
  - rewrite list_lookup_total_middle by reflexivity.
    cbv zeta. repeat split; try assumption.
    replace (prev_of start (L ++ [c]) (length L))
      with (prev_of start L (length L)); [exact Hpre|].
    destruct (length L) as [|n] eqn:En; [reflexivity|].
    cbn [prev_of]. rewrite lookup_total_app_l by lia. reflexivity.
  - assert (Hlt : (j < length L)%nat) by lia.
    specialize (HL j Hlt). cbv zeta in *.
    rewrite lookup_total_app_l by exact Hlt.
    replace (prev_of start (L ++ [c]) j) with (prev_of start L j); [exact HL|].
    destruct j as [|n]; [reflexivity|].
    cbn [prev_of]. rewrite lookup_total_app_l by lia. reflexivity.
Qed.


(** The plain loops [warm_up] ([bump = false]) and [advance]
    ([bump = true]). *)
Lemma plain_loop (bump : bool) hc n a st log :
  (0 < hc)%nat → (good_machine good) hc st →
  ∃ st' L,
    for_in (seq a n)
      (λ _ '(st, log),
         '(st, out1, log) ← step core hc st log;
         Some ((if bump then next st else st), log))
      (st, log) = Some (st', log ++ L)
    ∧ (good_machine good) hc st'
    ∧ m_x st' = (if bump then m_x st + n else m_x st)%nat
    ∧ length L = n
    ∧ calls_from core hc (λ j, if bump then (m_x st + j)%nat else m_x st)
        untouched (m_seed st, m_lcg st) L
    ∧ left_by (m_seed st, m_lcg st) L st'.
Proof.
  intros Hhc Hgood.
  destruct (for_in_seq_invariant
              (λ i '(st', log'),
                 ∃ L, log' = log ++ L
                      ∧ (good_machine good) hc st'
                      ∧ m_x st' = (if bump then m_x st + (i - a) else m_x st)%nat
                      ∧ length L = (i - a)%nat
                      ∧ calls_from core hc
                          (λ j, if bump then (m_x st + j)%nat else m_x st)
                          untouched (m_seed st, m_lcg st) L
                      ∧ left_by (m_seed st, m_lcg st) L st')
              (λ _ '(st, log),
                 '(st, out1, log) ← step core hc st log;
                 Some ((if bump then next st else st), log))
              n a (st, log)) as ([st' log'] & E & L & -> & HG & Hx & HL & HC & HB).
  - exists []. rewrite app_nil_r, Nat.sub_diag.
    split; [reflexivity|]. split; [exact Hgood|].
    split; [destruct bump; lia|]. split; [reflexivity|].
    split; [|reflexivity].
    intros j Hj. cbn in Hj. lia.
  - intros i [st1 log1] Hi (L & -> & HG & Hx & HL & HC & HB).
    destruct (step_good hc st1 (log ++ L) Hhc HG)
      as (c & st2 & E & HG2 & _ & Hx2 & Hs2 & Hl2 & Hid & Hidx & Hgen & Has & Hal).
    rewrite E. cbn [mbind option_bind].
    eexists. split; [reflexivity|].
    exists (L ++ [c]). rewrite app_assoc. split; [reflexivity|].
    split; [destruct bump; [apply next_good|]; exact HG2|].
    split; [destruct bump; cbn [next m_x]; lia|].
    split; [rewrite length_app; cbn [length]; lia|].
    split.
    + apply calls_from_snoc; try assumption.
      * rewrite Hidx, Hx, HL. reflexivity.
      * unfold untouched. rewrite Has, Hal. f_equal. symmetry. exact HB.
    + unfold left_by. rewrite length_app. cbn [length].
      rewrite Nat.add_1_r. cbn [prev_of].
      rewrite list_lookup_total_middle by reflexivity.
      destruct bump; cbn [next m_seed m_lcg]; rewrite Hs2, Hl2; reflexivity.
  - exists st', L. replace (a + n - a)%nat with n in * by lia.
    split; [exact E|]. auto.
Qed.


Lemma running_start hc st :
  (good_machine good) hc st → (running core good) hc (m_x st) (m_seed st, m_lcg st) [] st.
Proof.
  intros HG. split; [exact HG|]. split; [cbn; lia|].
  split; [|reflexivity]. intros j Hj. cbn in Hj. lia.
Qed.

(** [step; x += 1] in the middle of a run. *)
Lemma step_bump hc x0 start L st log :
  (0 < hc)%nat → (running core good) hc x0 start L st →
  ∃ c st',
    step core hc st log = Some (st', call_out c, log ++ [c])
    ∧ (running core good) hc x0 start (L ++ [c]) (next st')
    ∧ good (call_out c).
Proof.
  intros Hhc (HG & Hx & HC & HB).
  destruct (step_good hc st log Hhc HG)
    as (c & st2 & E & HG2 & Ho & Hx2 & Hs2 & Hl2 & Hid & Hidx & Hgen & Has & Hal).
  exists c, st2. split; [exact E|]. split; [|exact Ho].
  split; [exact HG2|].
  split; [cbn [next m_x]; rewrite length_app; cbn [length]; lia|].
  split.
  - apply calls_from_snoc; try assumption.
    + rewrite Hidx, Hx. reflexivity.
    + unfold untouched. rewrite Has, Hal. f_equal. symmetry. exact HB.
  - unfold left_by. rewrite length_app. cbn [length].
    rewrite Nat.add_1_r. cbn [prev_of].
    rewrite list_lookup_total_middle by reflexivity.
    cbn [next m_seed m_lcg]. rewrite Hs2, Hl2. reflexivity.
Qed.

End Drive.

(** ** The two cores are total on the words they are run on *)

Lemma calc_total bits : core_total (calc bits) (λ _, True).
Proof. intros s l h _ _ _. eexists. split; [reflexivity|]. auto. Qed.

Lemma sat_total bits :
  Nat.Even bits → (0 < bits)%nat →
  core_total (sat bits) (λ w : bv, length w = bits).
Proof.
  intros Hev Hpos s l h Hs Hl Hh.
  destruct (sat_step_spec (λ _, false) bits Hev Hpos s l h Hs Hl Hh)
    as (s' & l' & h' & o & E & H1 & H2 & H3 & H4 & _).
  exists (s', l', h', o). split; [exact E|]. auto.
Qed.

(** ** Gluing runs of calls *)

Section Glue.

Context {W : Type} `{Inhabited W}.
Variable core : W → W → W → option (W * W * W * W).

Lemma prev_of_app_l start (L1 L2 : list (call W)) j :
  (j ≤ length L1)%nat → prev_of start (L1 ++ L2) j = prev_of start L1 j.
Proof.
  intros Hj. destruct j as [|n]; [reflexivity|].
  cbn [prev_of]. rewrite lookup_total_app_l by lia. reflexivity.
Qed.

Lemma prev_of_app_r start (L1 L2 : list (call W)) j :
  prev_of start (L1 ++ L2) (length L1 + j)
  = prev_of (prev_of start L1 (length L1)) L2 j.
Proof.
  destruct j as [|n].
  - rewrite Nat.add_0_r.
    change (prev_of (prev_of start L1 (length L1)) L2 0)
      with (prev_of start L1 (length L1)).
    apply prev_of_app_l. lia.
  - rewrite Nat.add_succ_r. cbn [prev_of].
    rewrite lookup_total_app_r by lia.
    replace (length L1 + n - length L1)%nat with n by lia. reflexivity.
Qed.

Lemma calls_from_app hc xf pre start (L1 L2 : list (call W)) :
  calls_from core hc xf pre start L1 →
  calls_from core hc (λ j, xf (length L1 + j)%nat)
    (λ j, pre (length L1 + j)%nat) (prev_of start L1 (length L1)) L2 →
  calls_from core hc xf pre start (L1 ++ L2).
Proof.
  intros H1 H2 j Hj. rewrite length_app in Hj. cbv zeta.
  destruct (Nat.lt_ge_cases j (length L1)) as [Hlt|Hge].
  - rewrite lookup_total_app_l, prev_of_app_l by lia. apply H1. exact Hlt.
  - assert (Hd : ∃ d, j = (length L1 + d)%nat) by (exists (j - length L1)%nat; lia).
    destruct Hd as [d ->].
    rewrite lookup_total_app_r, prev_of_app_r by lia.
    replace (length L1 + d - length L1)%nat with d by lia.
    apply (H2 d). lia.
Qed.

Lemma calls_from_ext hc xf xf' pre pre' start (L : list (call W)) :
  (∀ j, (j < length L)%nat → xf j = xf' j) →
  (∀ j p, (j < length L)%nat → pre j p = pre' j p) →
  calls_from core hc xf pre start L → calls_from core hc xf' pre' start L.
Proof.
  intros Hxf Hpre HL j Hj. specialize (HL j Hj). cbv zeta in *.
  rewrite <- Hxf, <- Hpre by exact Hj. exact HL.
Qed.

Lemma calls_from_glue hc xf pre start (L1 : list (call W)) st xf2 pre2 L2 st' :
  calls_from core hc xf pre start L1 → left_by start L1 st →
  calls_from core hc xf2 pre2 (m_seed st, m_lcg st) L2 →
  left_by (m_seed st, m_lcg st) L2 st' →
  (∀ j, (j < length L2)%nat → xf (length L1 + j)%nat = xf2 j) →
  (∀ j p, (j < length L2)%nat → pre (length L1 + j)%nat p = pre2 j p) →
  calls_from core hc xf pre start (L1 ++ L2) ∧ left_by start (L1 ++ L2) st'.
Proof.
  intros H1 HB1 H2 HB2 Hxf Hpre. unfold left_by in *. split.
  - apply calls_from_app; [exact H1|]. rewrite <- HB1.
    apply (calls_from_ext hc xf2 _ pre2); auto.
    + intros j Hj. symmetry. auto.
    + intros j p0 Hj. symmetry. auto.
  - rewrite length_app, prev_of_app_r, <- HB1. exact HB2.
Qed.

(** The calls that open a run of [gradilac_sat.py]: [warm_up] then
    [advance (hc + 1)]. *)
Lemma fused_prefix good hc st log :
  core_total core good →
  (0 < hc)%nat → good_machine good hc st → m_x st = 0%nat →
  ∃ s1 st' L,
    warm_up core hc (st, log) = Some s1
    ∧ advance core (hc + 1) hc s1 = Some (st', log ++ L)
    ∧ good_machine good hc st'
    ∧ m_x st' = (hc + 1)%nat
    ∧ length L = (5 + (hc + 1))%nat
    ∧ calls_from core hc fused_counter untouched (m_seed st, m_lcg st) L
    ∧ left_by (m_seed st, m_lcg st) L st'.
Proof.
  intros Htot Hhc HG Hx.
  destruct (plain_loop core good Htot false hc 5 0 st log Hhc HG)
    as (st1 & L1 & E1 & HG1 & Hx1 & HL1 & HC1 & HB1).
  assert (E1' : warm_up core hc (st, log) = Some (st1, log ++ L1)) by exact E1.
  destruct (plain_loop core good Htot true hc (hc + 1) 0 st1 (log ++ L1) Hhc HG1)
    as (st2 & L2 & E2 & HG2 & Hx2 & HL2 & HC2 & HB2).
  assert (E2' : advance core (hc + 1) hc (st1, log ++ L1)
                = Some (st2, (log ++ L1) ++ L2)) by exact E2.
  exists (st1, log ++ L1), st2, (L1 ++ L2). rewrite app_assoc.
  split; [exact E1'|]. split; [exact E2'|].
  split; [exact HG2|]. split; [lia|].
  split; [rewrite length_app; lia|].
  eapply calls_from_glue; [|exact HB1|exact HC2|exact HB2| |].
  - apply (calls_from_ext hc (λ _, m_x st) _ untouched untouched); auto.
    intros j Hj. unfold fused_counter.
    replace (j <? 5)%nat with true by (symmetry; apply Nat.ltb_lt; lia). lia.
  - intros j Hj. unfold fused_counter.
    replace (length L1 + j <? 5)%nat with false
      by (symmetry; apply Nat.ltb_ge; lia). cbv beta iota. lia.
  - reflexivity.
Qed.

(** The whole run of [gradilac_sat.py] once the rounds are glued on. *)
Lemma fused_glue good hc n (L1 L3 : list (call W)) start st st' :
  length L1 = (5 + (hc + 1))%nat → m_x st = (hc + 1)%nat →
  calls_from core hc fused_counter untouched start L1 →
  left_by start L1 st →
  running core good hc (m_x st) (m_seed st, m_lcg st) L3 st' →
  length L3 = n →
  length (L1 ++ L3) = (5 + (hc + 1) + n)%nat
  ∧ calls_from core hc fused_counter untouched start (L1 ++ L3).
Proof.
  intros HL1 Hx HC1 HB1 (_ & _ & HC3 & HB3) HL3.
  split; [rewrite length_app; lia|].
  eapply calls_from_glue; [exact HC1|exact HB1|exact HC3|exact HB3| |].
  - intros j Hj. unfold fused_counter.
    replace (length L1 + j <? 5)%nat with false
      by (symmetry; apply Nat.ltb_ge; lia). lia.
  - reflexivity.
Qed.

End Glue.

(** ** The hash arrays at the start *)

Lemma init_calc_h_spec bits hci hc (hcv : list Z) :
  (hci ≤ length hcv)%nat →
  ∃ calc_h, Gradilac.init_calc_h bits hci hc hcv = Some calc_h
            ∧ length calc_h = hc.
Proof.
  intros Hhci. unfold Gradilac.init_calc_h, range.
  destruct (for_in_seq_invariant (λ i (l : list Z), length l = i)
              (λ i calc_h,
                 if (i <? hci)%nat
                 then v ← hcv !! i; Some (calc_h ++ [Z.land v (bmask bits)])
                 else Some (calc_h ++ [0]))
              hc 0 []) as (l & E & Hl).
  - reflexivity.
  - intros i l Hi Hl.
    destruct (i <? hci)%nat eqn:Ei.
    + apply Nat.ltb_lt in Ei.
      destruct (lookup_lt_is_Some_2 hcv i ltac:(lia)) as [v ->].
      cbn [mbind option_bind]. eexists. split; [reflexivity|].
      rewrite length_app. cbn [length]. lia.
    + eexists. split; [reflexivity|].
      rewrite length_app. cbn [length]. lia.
  - exists l. auto.
Qed.

Lemma init_h_spec bits hci hc fresh :
  ∃ start_h h fresh',
    Gradilac.init_h bits hci hc fresh = Some (start_h, h, fresh')
    ∧ length h = hc ∧ Forall (λ w : bv, length w = bits) h.
Proof.
  unfold Gradilac.init_h, range.
  destruct (for_in_seq_invariant
              (λ i '(start_h, h, fresh'),
                 length h = i ∧ Forall (λ w : bv, length w = bits) h
                 ∧ length start_h = Nat.min i hci
                 ∧ Forall (λ w : bv, length w = bits) start_h)
              (λ i '(start_h, h, fresh),
                 if (i <? hci)%nat
                 then let '(v, fresh) := new_vars bits fresh in
                      let start_h := start_h ++ [v] in
                      w ← start_h !! i;
                      Some (start_h, h ++ [w], fresh)
                 else Some (start_h, h ++ [inibits bits 0], fresh))
              hc 0 (([] : list bv), ([] : list bv), fresh))
    as ([[sh h] f] & E & Hl & Hw & _).
  - repeat split; constructor.
  - intros i [[sh h] f] Hi (Hl & Hw & Hsl & Hsw).
    destruct (i <? hci)%nat eqn:Ei.
    + apply Nat.ltb_lt in Ei. unfold new_vars.
      assert (Hsh : i = length sh) by lia.
      cbv beta iota zeta.
      rewrite (list_lookup_middle sh [] _ i Hsh). cbn [mbind option_bind].
      eexists. split; [reflexivity|].
      assert (Hv : length (map BVar (seq f bits)) = bits)
        by (rewrite length_map, length_seq; reflexivity).
      cbv beta iota zeta. rewrite !length_app. cbn [length].
      repeat split; try lia; apply Forall_app; split; auto.
    + apply Nat.ltb_ge in Ei.
      eexists. split; [reflexivity|].
      cbv beta iota zeta. rewrite !length_app. cbn [length].
      repeat split; try lia; auto.
      apply Forall_app; split; auto. constructor; [|constructor].
      apply length_inibits.
  - exists sh, h, f. auto.
Qed.

(** ** Binding an output to an observation *)

Lemma for_in_ext {A S : Type} (l : list A) (body1 body2 : A → S → option S) s :
  (∀ x s, body1 x s = body2 x s) → for_in l body1 s = for_in l body2 s.
Proof.
  intros Hb. revert s. induction l as [|x l IH]; intros s; [reflexivity|].
  cbn [for_in]. rewrite Hb. destruct (body2 x s); cbn; auto.
Qed.

Lemma for_in_collect {A B : Type} (f : A → B) (l : list A) (acc : list B) :
  for_in l (λ x acc, Some (acc ++ [f x])) acc = Some (acc ++ map f l).
Proof.
  revert acc. induction l as [|x l IH]; intros acc; cbn [for_in map].
  - rewrite app_nil_r. reflexivity.
  - cbn [mbind option_bind]. rewrite IH, <- app_assoc. reflexivity.
Qed.


Lemma bind_output_spec out (obs : list Z) j cs :
  (j < length obs)%nat →
  bind_output out obs j cs = Some (cs ++ bound out (obs !!! j)).
Proof.
  intros Hj. unfold bind_output, bound.
  rewrite <- for_in_collect. apply for_in_ext.
  intros [i b] acc. rewrite (list_lookup_lookup_total_lt obs j Hj).
  cbn [mbind option_bind fst snd].
  rewrite land_1_testbit, Z.shiftr_spec, Z.add_0_l by lia. reflexivity.
Qed.

Lemma length_bound out o : length (bound out o) = length out.
Proof.
  unfold bound. rewrite length_map, length_zip, length_seq. lia.
Qed.

Lemma lookup_bound out o i :
  (i < length out)%nat →
  bound out o !!! i = (out !!! i, Z.testbit o (Z.of_nat i)).
Proof.
  intros Hi. unfold bound.
  apply list_lookup_total_correct.
  rewrite list_lookup_fmap.
  assert (Hz : zip (seq 0 (length out)) out !! i = Some (i, out !!! i)).
  { apply lookup_zip_Some. split.
    - rewrite lookup_seq_lt by exact Hi. reflexivity.
    - apply list_lookup_lookup_total_lt. exact Hi. }
  rewrite Hz. reflexivity.
Qed.

(** ** gradilac_sat.py: the loops over the observation rounds *)

Lemma fused_rounds_calc bits hc num_obs st log :
  (0 < hc)%nat → good_machine (λ _ : Z, True) hc st →
  ∃ st' L obs,
    for_in (range num_obs) (Gradilac.calc_round bits hc) (st, log, [])
    = Some (st', log ++ L, obs)
    ∧ running (calc bits) (λ _, True) hc (m_x st) (m_seed st, m_lcg st) L st'
    ∧ length L = (2 * num_obs)%nat
    ∧ length obs = num_obs
    ∧ ∀ k, (k < num_obs)%nat →
        obs !!! k = Z.lxor (call_out (L !!! (2 * k)%nat))
                           (call_out (L !!! (2 * k + 1)%nat)).
Proof.
  intros Hhc HG. unfold range.
  destruct (for_in_seq_invariant
              (λ i '(st', log', obs),
                 ∃ L, log' = log ++ L
                   ∧ running (calc bits) (λ _, True) hc (m_x st)
                       (m_seed st, m_lcg st) L st'
                   ∧ length L = (2 * i)%nat
                   ∧ length obs = i
                   ∧ ∀ k, (k < i)%nat →
                       obs !!! k = Z.lxor (call_out (L !!! (2 * k)%nat))
                                          (call_out (L !!! (2 * k + 1)%nat)))
              (Gradilac.calc_round bits hc) num_obs 0 (st, log, []))
    as ([[st' log'] obs] & E & L & -> & HR & HL & HO & HK).
  - exists []. rewrite app_nil_r. split; [reflexivity|].
    split; [apply (running_start (calc bits)); exact HG|].
    split; [reflexivity|]. split; [reflexivity|]. intros k Hk. lia.
  - intros i [[st1 log1] obs] Hi (L & -> & HR & HL & HO & HK).
    unfold Gradilac.calc_round.
    destruct (step_bump (calc bits) (λ _, True) (calc_total bits) hc _ _ L st1
                (log ++ L) Hhc HR) as (c1 & st2 & E1 & HR1 & _).
    rewrite E1. cbn [mbind option_bind].
    destruct (step_bump (calc bits) (λ _, True) (calc_total bits) hc _ _ _ (next st2)
                ((log ++ L) ++ [c1]) Hhc HR1) as (c2 & st3 & E2 & HR2 & _).
    rewrite E2. cbn [mbind option_bind].
    eexists. split; [reflexivity|].
    exists ((L ++ [c1]) ++ [c2]). rewrite !app_assoc. split; [reflexivity|].
    split; [exact HR2|].
    split; [rewrite !length_app; cbn [length]; lia|].
    split; [rewrite length_app; cbn [length]; lia|].
    intros k Hk.
    destruct (Nat.eq_dec k i) as [->|Hne].
    + rewrite <- HO at 1. rewrite list_lookup_total_middle by reflexivity.
      rewrite (lookup_total_app_l (L ++ [c1]))
        by (rewrite length_app; cbn [length]; lia).
      rewrite (list_lookup_total_middle L [] c1) by lia.
      rewrite list_lookup_total_middle
        by (rewrite length_app; cbn [length]; lia).
      reflexivity.
    + rewrite lookup_total_app_l by lia.
      rewrite !(lookup_total_app_l (L ++ [c1]))
        by (rewrite length_app; cbn [length]; lia).
      rewrite !(lookup_total_app_l L) by lia.
      apply HK. lia.
  - exists st', L, obs. auto.
Qed.

Lemma fused_rounds_sat bits hc num_obs (obs : list Z) st log :
  Nat.Even bits → (0 < bits)%nat → (0 < hc)%nat →
  (num_obs ≤ length obs)%nat →
  good_machine (λ w : bv, length w = bits) hc st →
  ∃ st' L cs,
    for_in (range num_obs) (Gradilac.sat_round bits hc obs) (st, log, [])
    = Some (st', log ++ L, cs)
    ∧ running (sat bits) (λ w : bv, length w = bits) hc (m_x st)
        (m_seed st, m_lcg st) L st'
    ∧ length L = (2 * num_obs)%nat
    ∧ length cs = (num_obs * bits)%nat
    ∧ ∀ k, (k < num_obs)%nat →
        ∃ out, xor (call_out (L !!! (2 * k)%nat))
                   (call_out (L !!! (2 * k + 1)%nat)) = Some out
               ∧ length out = bits
               ∧ ∀ i, (i < bits)%nat →
                   cs !!! (k * bits + i)%nat
                   = (out !!! i, Z.testbit (obs !!! k) (Z.of_nat i)).
Proof.
  intros Hev Hpos Hhc Hobs HG. unfold range.
  pose proof (sat_total bits Hev Hpos) as Htot.
  destruct (for_in_seq_invariant
              (λ n '(st', log', cs),
                 ∃ L, log' = log ++ L
                   ∧ running (sat bits) (λ w : bv, length w = bits) hc (m_x st)
                       (m_seed st, m_lcg st) L st'
                   ∧ length L = (2 * n)%nat
                   ∧ length cs = (n * bits)%nat
                   ∧ ∀ k, (k < n)%nat →
                       ∃ out, xor (call_out (L !!! (2 * k)%nat))
                                  (call_out (L !!! (2 * k + 1)%nat)) = Some out
                              ∧ length out = bits
                              ∧ ∀ i, (i < bits)%nat →
                                  cs !!! (k * bits + i)%nat
                                  = (out !!! i,
                                     Z.testbit (obs !!! k) (Z.of_nat i)))
              (Gradilac.sat_round bits hc obs) num_obs 0 (st, log, []))
    as ([[st' log'] cs] & E & L & -> & HR & HL & HO & HK).
  - exists []. rewrite app_nil_r. split; [reflexivity|].
    split; [apply (running_start (sat bits)); exact HG|].
    split; [reflexivity|]. split; [reflexivity|]. intros k Hk. lia.
  - intros n [[st1 log1] cs] Hn (L & -> & HR & HL & HO & HK).
    unfold Gradilac.sat_round.
    destruct (step_bump (sat bits) _ Htot hc _ _ L st1 (log ++ L) Hhc HR)
      as (c1 & st2 & E1 & HR1 & Ho1).
    rewrite E1. cbn [mbind option_bind].
    destruct (step_bump (sat bits) _ Htot hc _ _ _ (next st2)
                ((log ++ L) ++ [c1]) Hhc HR1) as (c2 & st3 & E2 & HR2 & Ho2).
    rewrite E2. cbn [mbind option_bind].
    destruct (xor_spec (λ _, false) (call_out c1) (call_out c2))
      as (out & Ex & Hlo & _); [congruence|].
    rewrite Ex. cbn [mbind option_bind].
    rewrite bind_output_spec by lia. cbn [mbind option_bind].
    eexists. split; [reflexivity|].
    exists ((L ++ [c1]) ++ [c2]). rewrite !app_assoc. split; [reflexivity|].
    split; [exact HR2|].
    split; [rewrite !length_app; cbn [length]; lia|].
    split; [rewrite length_app, length_bound; lia|].
    intros k Hk.
    destruct (Nat.eq_dec k n) as [->|Hne].
    + exists out.
      rewrite (lookup_total_app_l (L ++ [c1]))
        by (rewrite length_app; cbn [length]; lia).
      rewrite (list_lookup_total_middle L [] c1) by lia.
      rewrite list_lookup_total_middle
        by (rewrite length_app; cbn [length]; lia).
      split; [exact Ex|]. split; [congruence|].
      intros i Hi. rewrite lookup_total_app_r by lia.
      replace (n * bits + i - length cs)%nat with i by lia.
      apply lookup_bound. lia.
    + destruct (HK k ltac:(lia)) as (o & Eo & Hlen & Hbits).
      exists o.
      rewrite !(lookup_total_app_l (L ++ [c1]))
        by (rewrite length_app; cbn [length]; lia).
      rewrite !(lookup_total_app_l L) by lia.
      split; [exact Eo|]. split; [exact Hlen|].
      intros i Hi. rewrite lookup_total_app_l by nia.
      apply Hbits. exact Hi.
  - exists st', L, cs. auto.
Qed.

(** ** gradilac_sat.py: the two runs *)

Lemma gradilac_calc_run bits hci hc num_obs seed_i lcg_i (hcv : list Z) :
  (0 < hc)%nat → (hci ≤ length hcv)%nat →
  ∃ st log obs,
    Gradilac.calc_run bits hci hc num_obs seed_i lcg_i hcv = Some (st, log, obs)
    ∧ length log = (5 + (hc + 1) + 2 * num_obs)%nat
    ∧ calls_from (calc bits) hc fused_counter untouched
        (Z.land seed_i (bmask bits), Z.land lcg_i (bmask bits)) log
    ∧ length obs = num_obs
    ∧ ∀ k, (k < num_obs)%nat →
        obs !!! k
        = Z.lxor (call_out (log !!! (5 + (hc + 1) + 2 * k)%nat))
                 (call_out (log !!! (5 + (hc + 1) + 2 * k + 1)%nat)).
Proof.
  intros Hhc Hhci. unfold Gradilac.calc_run.
  destruct (init_calc_h_spec bits hci hc hcv Hhci) as (calc_h & -> & Hlen).
  cbn [mbind option_bind].
  set (st0 := Machine (Z.land seed_i (bmask bits)) (Z.land lcg_i (bmask bits))
                      calc_h 0).
  assert (HG0 : good_machine (λ _ : Z, True) hc st0).
  { repeat split; [apply Forall_forall; auto | exact Hlen]. }
  destruct (fused_prefix (calc bits) (λ _, True) hc st0 [] (calc_total bits)
              Hhc HG0 eq_refl) as (s1 & st2 & L & E1 & E & HG2 & Hx2 & HL & HC & HB).
  cbn [app] in E. rewrite E1. cbn [mbind option_bind].
  rewrite E. cbn [mbind option_bind fst snd].
  destruct (fused_rounds_calc bits hc num_obs st2 L Hhc HG2)
    as (st3 & L3 & obs & E3 & HR & HL3 & HO & HK).
  rewrite E3. exists st3, (L ++ L3), obs. split; [reflexivity|].
  destruct (fused_glue (calc bits) (λ _, True) hc (2 * num_obs) L L3 _ st2 st3
              HL Hx2 HC HB HR HL3) as (Hlen3 & HC3).
  split; [exact Hlen3|]. split; [exact HC3|]. split; [exact HO|].
  intros k Hk. rewrite (HK k Hk).
  rewrite !(lookup_total_app_r L) by lia.
  repeat f_equal; lia.
Qed.

Lemma gradilac_sat_run bits hci hc num_obs (obs : list Z) :
  Nat.Even bits → (0 < bits)%nat → (0 < hc)%nat →
  (num_obs ≤ length obs)%nat →
  ∃ inst,
    Gradilac.sat_run bits hci hc num_obs obs = Some inst
    ∧ length (Gradilac.sat_log inst) = (5 + (hc + 1) + 2 * num_obs)%nat
    ∧ calls_from (sat bits) hc fused_counter untouched
        (Gradilac.start_seed inst, Gradilac.start_lcg inst)
        (Gradilac.sat_log inst)
    ∧ length (Gradilac.constraints inst) = (num_obs * bits)%nat
    ∧ ∀ k, (k < num_obs)%nat →
        ∃ out,
          xor (call_out (Gradilac.sat_log inst !!! (5 + (hc + 1) + 2 * k)%nat))
              (call_out (Gradilac.sat_log inst !!! (5 + (hc + 1) + 2 * k + 1)%nat))
          = Some out
          ∧ length out = bits
          ∧ ∀ i, (i < bits)%nat →
              Gradilac.constraints inst !!! (k * bits + i)%nat
              = (out !!! i, Z.testbit (obs !!! k) (Z.of_nat i)).
Proof.
  intros Hev Hpos Hhc Hobs. unfold Gradilac.sat_run, new_vars.
  destruct (init_h_spec bits hci hc (0 + bits + bits))
    as (sh & h & f & -> & Hlen & Hw).
  cbn [mbind option_bind].
  set (st0 := @Machine bv (map BVar (seq 0 bits))
                (map BVar (seq (0 + bits) bits)) h 0).
  assert (HG0 : good_machine (λ w : bv, length w = bits) hc st0).
  { repeat split; try assumption; cbn [m_seed m_lcg st0];
      rewrite length_map, length_seq; reflexivity. }
  pose proof (sat_total bits Hev Hpos) as Htot.
  destruct (fused_prefix (sat bits) _ hc st0 [] Htot Hhc HG0 eq_refl)
    as (s1 & st2 & L & E1 & E & HG2 & Hx2 & HL & HC & HB).
  cbn [app] in E.
  destruct (fused_rounds_sat bits hc num_obs obs st2 L Hev Hpos Hhc Hobs HG2)
    as (st3 & L3 & cs & E3 & HR & HL3 & HO & HK).
  eexists. split.
  { rewrite E1. cbn [mbind option_bind]. rewrite E.
    cbn [mbind option_bind fst snd]. rewrite E3. reflexivity. }
  cbn [Gradilac.sat_log Gradilac.start_seed Gradilac.start_lcg
       Gradilac.constraints].
  destruct (fused_glue (sat bits) _ hc (2 * num_obs) L L3 _ st2 st3
              HL Hx2 HC HB HR HL3) as (Hlen3 & HC3).
  split; [exact Hlen3|]. split; [exact HC3|]. split; [exact HO|].
  intros k Hk. destruct (HK k Hk) as (out & Ex & Hlo & Hbits).
  exists out. rewrite !(lookup_total_app_r L) by lia.
  replace (5 + (hc + 1) + 2 * k - length L)%nat with (2 * k)%nat by lia.
  replace (5 + (hc + 1) + 2 * k + 1 - length L)%nat with (2 * k + 1)%nat by lia.
  auto.
Qed.

Example gradilac_calc_run_6 :
  (λ '(st, log, obs), (m_x st, length log, map call_index log, obs))
    <$> Gradilac.calc_run 6 2 2 3 4 5 [13; 4]
  = Some (9%nat, 14%nat,
          [0; 0; 0; 0; 0; 0; 1; 0; 1; 0; 1; 0; 1; 0]%nat, [17; 3; 57]).
Proof. vm_compute. reflexivity. Qed.

(** * The claims on runs *)

Lemma run_calls_total {W : Type} `{Inhabited W}
    (core : W → W → W → option (W * W * W * W)) (good : W → Prop) hc xs st log :
  core_total core good → (0 < hc)%nat → good_machine good hc st →
  is_Some (run_calls core hc xs (st, log)).
Proof.
  intros Htot Hhc. unfold run_calls.
  revert st log. induction xs as [|x xs IH]; intros st log HG; [eexists; reflexivity|].
  cbn [for_in].
  assert (HGx : good_machine good hc (Machine (m_seed st) (m_lcg st) (m_h st) x))
    by exact HG.
  destruct (step_good core good Htot hc _ log Hhc HGx)
    as (c & st' & E & HG' & _).
  rewrite E. cbn [mbind option_bind]. apply IH. exact HG'.
Qed.

Lemma Forall2_word_rel_inibits m bits (h : list Z) :
  Forall2 (word_rel m bits) (map (inibits bits) h) h.
Proof.
  induction h as [|c h IH]; constructor; [|exact IH].
  split; [apply length_inibits | apply decode_inibits].
Qed.

(** [C1] Mirror property.  For an even width and any sequence of calls
    (the counter value of each call given by [xs]), the symbolic core run
    on the constants of given integers and the concrete core run on those
    integers show, call by call, the same hash index and the same decoded
    (seed, lcg, hash word, output); both runs fail together, and on a hash
    array of the declared length neither fails. *)
Theorem mirror_property (m : nat → bool) (bits hc : nat) (seed lcg : Z)
    (h : list Z) (xs : list nat) :
  Nat.Even bits → (0 < bits)%nat →
  (λ s, map (shown_sat m) s.2)
    <$> run_calls (sat bits) hc xs
          (Machine (inibits bits seed) (inibits bits lcg)
                   (map (inibits bits) h) 0, [])
  = (λ s, map shown_calc s.2)
      <$> run_calls (calc bits) hc xs (Machine seed lcg h 0, [])
  ∧ ((0 < hc)%nat → length h = hc →
     is_Some (run_calls (calc bits) hc xs (Machine seed lcg h 0, []))).
Proof.
  intros Hev Hpos. split.
  - pose proof (run_calls_sim m bits Hev Hpos hc xs
                  (Machine (inibits bits seed) (inibits bits lcg)
                           (map (inibits bits) h) 0, [])
                  (Machine seed lcg h 0, [])) as Hsim.
    destruct (run_calls (sat bits) _ _ _) as [[ss slog]|],
             (run_calls (calc bits) _ _ _) as [[cs clog]|];
      cbn [fmap option_fmap option_map rel_opt] in *.
    + f_equal. apply Hsim. split; [|reflexivity].
      repeat split; try apply length_inibits; try apply decode_inibits.
      apply Forall2_word_rel_inibits.
    + exfalso. apply Hsim. split; [|reflexivity].
      repeat split; try apply length_inibits; try apply decode_inibits.
      apply Forall2_word_rel_inibits.
    + exfalso. apply Hsim. split; [|reflexivity].
      repeat split; try apply length_inibits; try apply decode_inibits.
      apply Forall2_word_rel_inibits.
    + reflexivity.
  - intros Hhc Hlen.
    apply (run_calls_total (calc bits) (λ _, True)); [apply calc_total | exact Hhc |].
    repeat split; [apply Forall_forall; auto | exact Hlen].
Qed.

Lemma mirror_property_witness :
  (λ s, map (shown_sat (λ _, false)) s.2)
    <$> run_calls (sat 6) 2 [0; 0; 0; 0; 0; 0; 1; 2]%nat
          (Machine (inibits 6 4) (inibits 6 5) (map (inibits 6) [13; 4]) 0, [])
  = (λ s, map shown_calc s.2)
      <$> run_calls (calc 6) 2 [0; 0; 0; 0; 0; 0; 1; 2]%nat
            (Machine 4 5 [13; 4] 0, [])
  ∧ is_Some (run_calls (calc 6) 2 [0; 0; 0; 0; 0; 0; 1; 2]%nat
               (Machine 4 5 [13; 4] 0, [])).
Proof.
  destruct (mirror_property (λ _, false) 6 2 4 5 [13; 4]
              [0; 0; 0; 0; 0; 0; 1; 2]%nat) as [H1 H2];
    [exists 3%nat; reflexivity | lia |].
  split; [exact H1 | apply H2; [lia | reflexivity]].
Defined.

(** At width 0 the symbolic step fails its own assertion (the multiplier
    [[True] + lcg[:-1]] has one element, the seed none), so the hypothesis
    [0 < bits] cannot be dropped; the run configuration asks for a width of
    at least 2. *)
Example sat_step_width_0 :
  prvhash_core_sat 0 (inibits 0 0) (inibits 0 0) (inibits 0 0) = None
  ∧ prvhash_core_calc 0 0 0 0 = (0, 0, 0, 0).
Proof. split; vm_compute; reflexivity. Qed.

(** [C5] The schedule of gradilac_sat.py (Variant A).  Both runs return.
    Each log is one run of [5 + (hc + 1) + 2 * num_obs] consecutive calls of
    the main core.  Observation [k] is the exclusive-or of the outputs of
    calls [5 + (hc + 1) + 2k] and [5 + (hc + 1) + 2k + 1] of the concrete
    run, so the first [5 + (hc + 1)] outputs are used nowhere.  There are
    [bits] constraints per round, and constraint [i] of round [k] equates
    bit [i] of the [xor] of the same two outputs of the symbolic run with
    bit [i] of observation [k]. *)
Theorem fused_output_schedule (bits hci hc num_obs : nat) (seed_i lcg_i : Z)
    (hcv : list Z) :
  Nat.Even bits → (0 < bits)%nat → (0 < hc)%nat → (hci ≤ length hcv)%nat →
  ∃ st log obs inst,
    Gradilac.calc_run bits hci hc num_obs seed_i lcg_i hcv = Some (st, log, obs)
    ∧ Gradilac.sat_run bits hci hc num_obs obs = Some inst
    ∧ length log = (5 + (hc + 1) + 2 * num_obs)%nat
    ∧ length (Gradilac.sat_log inst) = (5 + (hc + 1) + 2 * num_obs)%nat
    ∧ calls_from (calc bits) hc fused_counter untouched
        (Z.land seed_i (bmask bits), Z.land lcg_i (bmask bits)) log
    ∧ calls_from (sat bits) hc fused_counter untouched
        (Gradilac.start_seed inst, Gradilac.start_lcg inst)
        (Gradilac.sat_log inst)
    ∧ length obs = num_obs
    ∧ (∀ k, (k < num_obs)%nat →
         obs !!! k
         = Z.lxor (call_out (log !!! (5 + (hc + 1) + 2 * k)%nat))
                  (call_out (log !!! (5 + (hc + 1) + 2 * k + 1)%nat)))
    ∧ length (Gradilac.constraints inst) = (num_obs * bits)%nat
    ∧ (∀ k, (k < num_obs)%nat →
         ∃ out,
           xor (call_out (Gradilac.sat_log inst !!! (5 + (hc + 1) + 2 * k)%nat))
               (call_out (Gradilac.sat_log inst
                          !!! (5 + (hc + 1) + 2 * k + 1)%nat))
           = Some out
           ∧ length out = bits
           ∧ ∀ i, (i < bits)%nat →
               Gradilac.constraints inst !!! (k * bits + i)%nat
               = (out !!! i, Z.testbit (obs !!! k) (Z.of_nat i))).
Proof.
  intros Hev Hpos Hhc Hhci.
  destruct (gradilac_calc_run bits hci hc num_obs seed_i lcg_i hcv Hhc Hhci)
    as (st & log & obs & Ec & Hlen & HC & HO & HK).
  destruct (gradilac_sat_run bits hci hc num_obs obs Hev Hpos Hhc ltac:(lia))
    as (inst & Es & Hslen & HSC & Hcs & HSK).
  exists st, log, obs, inst. auto 12.
Qed.

Lemma fused_output_schedule_witness :
  ∃ st log obs inst,
    Gradilac.calc_run 6 2 2 64 4 5 [13; 4; 13; 3; 4; 14; 12; 5]
    = Some (st, log, obs)
    ∧ Gradilac.sat_run 6 2 2 64 obs = Some inst
    ∧ length log = 136%nat
    ∧ length (Gradilac.sat_log inst) = 136%nat
    ∧ length obs = 64%nat
    ∧ length (Gradilac.constraints inst) = 384%nat.
Proof.
  destruct (fused_output_schedule 6 2 2 64 4 5 [13; 4; 13; 3; 4; 14; 12; 5])
    as (st & log & obs & inst & H1 & H2 & H3 & H4 & _ & _ & H5 & _ & H6 & _);
    [exists 3%nat; reflexivity | lia | lia | cbn; lia |].
  exists st, log, obs, inst. auto 10.
Defined.

(** ** t642_sat.py: one round of the firewall *)

Section Firewall.

Context {W : Type} `{Inhabited W}.
Variable core : W → W → W → option (W * W * W * W).
Variable good : W → Prop.
Hypothesis core_good : core_total core good.

Lemma firewall_round_good (fw : Tango642.firewall W) log :
  good_firewall good fw →
  ∃ c1 c2 c3 c4 fw',
    Tango642.firewall_round core fw log
    = Some (fw', (call_out c1, call_out c2, call_out c3, call_out c4),
            log ++ [c1; c2; c3; c4])
    ∧ good_firewall good fw'
    ∧ Tango642.x2 fw' = (Tango642.x2 fw + 1)%nat
    ∧ fw_made core 1 (Tango642.x2 fw) (Tango642.seed1 fw) (Tango642.lcg1 fw)
        (Tango642.h2 fw) c1
    ∧ fw_made core 2 (Tango642.x2 fw) (Tango642.seed2 fw) (Tango642.lcg2 fw)
        (Tango642.h2 fw) c2
    ∧ fw_made core 3 (Tango642.x2 fw) (Tango642.seed3 fw) (Tango642.lcg3 fw)
        (Tango642.h2 fw) c3
    ∧ fw_made core 4 (Tango642.x2 fw) (Tango642.seed4 fw) (Tango642.lcg4 fw)
        (Tango642.h2 fw) c4
    ∧ (Tango642.seed1 fw', Tango642.lcg1 fw') = (ret_seed c1, ret_lcg c1)
    ∧ (Tango642.seed2 fw', Tango642.lcg2 fw') = (ret_seed c2, ret_lcg c2)
    ∧ (Tango642.seed3 fw', Tango642.lcg3 fw') = (ret_seed c3, ret_lcg c3)
    ∧ (Tango642.seed4 fw', Tango642.lcg4 fw') = (ret_seed c4, ret_lcg c4)
    ∧ Tango642.h2 fw' !!! ((Tango642.x2 fw + 0) mod 5)%nat = ret_h c1
    ∧ Tango642.h2 fw' !!! ((Tango642.x2 fw + 1) mod 5)%nat = ret_h c2
    ∧ Tango642.h2 fw' !!! ((Tango642.x2 fw + 2) mod 5)%nat = ret_h c3
    ∧ Tango642.h2 fw' !!! ((Tango642.x2 fw + 3) mod 5)%nat = ret_h c4
    ∧ Tango642.h2 fw' !!! ((Tango642.x2 fw + 4) mod 5)%nat
      = Tango642.h2 fw !!! ((Tango642.x2 fw + 4) mod 5)%nat
    ∧ good (call_out c1) ∧ good (call_out c2)
    ∧ good (call_out c3) ∧ good (call_out c4).
Proof.
  intros (G1 & G2 & G3 & G4 & G5 & G6 & G7 & G8 & Gh & Hlen).
  destruct fw as [s1 l1 s2 l2 s3 l3 s4 l4 h x].
  cbn [Tango642.seed1 Tango642.lcg1 Tango642.seed2 Tango642.lcg2
       Tango642.seed3 Tango642.lcg3 Tango642.seed4 Tango642.lcg4
       Tango642.h2 Tango642.x2] in *.
  unfold Tango642.firewall_round.
  cbn [Tango642.seed1 Tango642.lcg1 Tango642.seed2 Tango642.lcg2
       Tango642.seed3 Tango642.lcg3 Tango642.seed4 Tango642.lcg4
       Tango642.h2 Tango642.x2].
  set (i1 := ((x + 0) mod 5)%nat). set (i2 := ((x + 1) mod 5)%nat).
  set (i3 := ((x + 2) mod 5)%nat). set (i4 := ((x + 3) mod 5)%nat).
  set (i5 := ((x + 4) mod 5)%nat).
  assert (Hd : (i1 < 5 ∧ i2 < 5 ∧ i3 < 5 ∧ i4 < 5 ∧ i5 < 5
                ∧ i1 ≠ i2 ∧ i1 ≠ i3 ∧ i1 ≠ i4 ∧ i1 ≠ i5 ∧ i2 ≠ i3 ∧ i2 ≠ i4
                ∧ i2 ≠ i5 ∧ i3 ≠ i4 ∧ i3 ≠ i5 ∧ i4 ≠ i5)%nat).
  { subst i1 i2 i3 i4 i5. mod_facts. lia. }
  destruct Hd as (B1 & B2 & B3 & B4 & B5 & N12 & N13 & N14 & N15 & N23 & N24
                  & N25 & N34 & N35 & N45).
  destruct (call_core_good core good core_good 1 s1 l1 h (x + 0) 5 log
              ltac:(lia) Hlen G1 G2 Gh) as (r1 & E1 & -> & A1 & A2 & A3 & Gh1).
  fold i1 in E1, Gh1 |- *. cbn [mbind option_bind].
  set (h1 := <[i1:=res_h r1]> h) in *.
  assert (Hlen1 : length h1 = 5%nat) by (unfold h1; rewrite length_insert; exact Hlen).
  destruct (call_core_good core good core_good 2 s2 l2 h1 (x + 1) 5
              (log ++ [Call 1 i1 (s1, l1, h !!! i1) r1])
              ltac:(lia) Hlen1 G3 G4 Gh1) as (r2 & E2 & -> & A4 & A5 & A6 & Gh2).
  fold i2 in E2, Gh2 |- *. cbn [mbind option_bind].
  set (h2 := <[i2:=res_h r2]> h1) in *.
  assert (Hlen2 : length h2 = 5%nat) by (unfold h2; rewrite length_insert; exact Hlen1).
  destruct (call_core_good core good core_good 3 s3 l3 h2 (x + 2) 5
              ((log ++ [Call 1 i1 (s1, l1, h !!! i1) r1])
                 ++ [Call 2 i2 (s2, l2, h1 !!! i2) r2])
              ltac:(lia) Hlen2 G5 G6 Gh2) as (r3 & E3 & -> & A7 & A8 & A9 & Gh3).
  fold i3 in E3, Gh3 |- *. cbn [mbind option_bind].
  set (h3 := <[i3:=res_h r3]> h2) in *.
  assert (Hlen3 : length h3 = 5%nat) by (unfold h3; rewrite length_insert; exact Hlen2).
  destruct (call_core_good core good core_good 4 s4 l4 h3 (x + 3) 5
              (((log ++ [Call 1 i1 (s1, l1, h !!! i1) r1])
                  ++ [Call 2 i2 (s2, l2, h1 !!! i2) r2])
                 ++ [Call 3 i3 (s3, l3, h2 !!! i3) r3])
              ltac:(lia) Hlen3 G7 G8 Gh3) as (r4 & E4 & -> & A10 & A11 & A12 & Gh4).
  fold i4 in E4, Gh4 |- *. cbn [mbind option_bind].
  set (h4 := <[i4:=res_h r4]> h3) in *.
  assert (Hlen4 : length h4 = 5%nat) by (unfold h4; rewrite length_insert; exact Hlen3).
  assert (R1 : h1 !!! i2 = h !!! i2)
    by (unfold h1; rewrite list_lookup_total_insert_ne by lia; reflexivity).
  assert (R2 : h2 !!! i3 = h !!! i3)
    by (unfold h2, h1; rewrite !list_lookup_total_insert_ne by lia; reflexivity).
  assert (R3 : h3 !!! i4 = h !!! i4)
    by (unfold h3, h2, h1; rewrite !list_lookup_total_insert_ne by lia;
        reflexivity).
  exists (Call 1 i1 (s1, l1, h !!! i1) r1), (Call 2 i2 (s2, l2, h1 !!! i2) r2),
    (Call 3 i3 (s3, l3, h2 !!! i3) r3), (Call 4 i4 (s4, l4, h3 !!! i4) r4).
  eexists. split.
  { rewrite <- !app_assoc. cbn [app]. reflexivity. }
  unfold good_firewall, fw_made, genuine, ret_seed, ret_lcg, ret_h, call_out,
    arg_seed, arg_lcg, arg_h.
  cbn [Tango642.seed1 Tango642.lcg1 Tango642.seed2 Tango642.lcg2
       Tango642.seed3 Tango642.lcg3 Tango642.seed4 Tango642.lcg4
       Tango642.h2 Tango642.x2 call_core_id call_index call_args call_result
       fst snd].
  replace ((x + 1 - 1) mod 5)%nat with i1 by (unfold i1; f_equal; lia).
  replace ((x + 2 - 1) mod 5)%nat with i2 by (unfold i2; f_equal; lia).
  replace ((x + 3 - 1) mod 5)%nat with i3 by (unfold i3; f_equal; lia).
  replace ((x + 4 - 1) mod 5)%nat with i4 by (unfold i4; f_equal; lia).
  rewrite R1, R2, R3 in *.
  assert (Q1 : h4 !!! i1 = res_h r1).
  { unfold h4, h3, h2. rewrite !list_lookup_total_insert_ne by lia.
    unfold h1. apply list_lookup_total_insert_eq. lia. }
  assert (Q2 : h4 !!! i2 = res_h r2).
  { unfold h4, h3. rewrite !list_lookup_total_insert_ne by lia.
    unfold h2. apply list_lookup_total_insert_eq. lia. }
  assert (Q3 : h4 !!! i3 = res_h r3).
  { unfold h4. rewrite !list_lookup_total_insert_ne by lia.
    unfold h3. apply list_lookup_total_insert_eq. lia. }
  assert (Q4 : h4 !!! i4 = res_h r4).
  { unfold h4. apply list_lookup_total_insert_eq. lia. }
  assert (Q5 : h4 !!! i5 = h !!! i5).
  { unfold h4, h3, h2, h1. rewrite !list_lookup_total_insert_ne by lia.
    reflexivity. }
  repeat split; assumption.
Qed.

End Firewall.

(** ** t642_sat.py: the rounds keep their invariant *)

Section Rounds.

Context {W : Type} `{Inhabited W}.
Variable core : W → W → W → option (W * W * W * W).
Variable wxor : W → W → option W.
Variable good : W → Prop.
Variable zero : W.
Hypothesis core_good : core_total core good.
Hypothesis wxor_good :
  ∀ a b, good a → good b → ∃ c, wxor a b = Some c ∧ good c.

Variables hc x0 base : nat.
Hypothesis hc_pos : (0 < hc)%nat.
Hypothesis base_pos : (0 < base)%nat.

Lemma entry_app_l (log L : list (call W)) r k :
  (base + 5 * r + k < length log)%nat →
  entry (log ++ L) base r k = entry log base r k.
Proof. intros Hlt. unfold entry. apply lookup_total_app_l. exact Hlt. Qed.

Lemma entry_app_r (log L : list (call W)) r k :
  length log = (base + 5 * r)%nat →
  entry (log ++ L) base r k = L !!! k.
Proof.
  intros Hlen. unfold entry. rewrite lookup_total_app_r by lia.
  f_equal. lia.
Qed.

Lemma main_prev_app (log L : list (call W)) r r' :
  length log = (base + 5 * r)%nat → (r' ≤ r)%nat →
  main_prev (log ++ L) base r' = main_prev log base r'.
Proof.
  intros Hlen Hr. destruct r' as [|q]; cbn [main_prev].
  - rewrite lookup_total_app_l by lia. reflexivity.
  - rewrite entry_app_l by lia. reflexivity.
Qed.

Lemma fw_prev_app (log L : list (call W)) r r' k :
  length log = (base + 5 * r)%nat → (r' ≤ r)%nat → (k ≤ 4)%nat →
  fw_prev zero (log ++ L) base r' k = fw_prev zero log base r' k.
Proof.
  intros Hlen Hr Hk. destruct r' as [|q]; cbn [fw_prev]; [reflexivity|].
  rewrite entry_app_l by lia. reflexivity.
Qed.

Lemma h2_source_app (log L : list (call W)) r r' k :
  length log = (base + 5 * r)%nat → (1 ≤ k ≤ 4)%nat →
  (r' ≤ r ∨ (k = 4 ∧ r' = S r))%nat →
  h2_source zero (log ++ L) base r' k = h2_source zero log base r' k.
Proof.
  intros Hlen Hk Hr.
  assert (Hc : (k = 1 ∨ k = 2 ∨ k = 3 ∨ k = 4)%nat) by lia.
  destruct Hc as [->|[->|[->| ->]]]; cbn [h2_source];
    try (destruct r' as [|q]; [reflexivity|]; rewrite entry_app_l by lia;
         reflexivity).
  destruct r' as [|[|q]]; try reflexivity.
  rewrite entry_app_l by lia. reflexivity.
Qed.

Lemma round_shape_app (log L : list (call W)) r r' :
  length log = (base + 5 * r)%nat → (r' < r)%nat →
  round_shape core wxor zero hc x0 log base r' →
  round_shape core wxor zero hc x0 (log ++ L) base r'.
Proof.
  intros Hlen Hr (Hm & H1 & H2 & H3 & s4 & E4 & H4).
  unfold round_shape, main_call, fw_call in *. cbv zeta in *.
  rewrite !(entry_app_l log L r') by lia.
  rewrite (main_prev_app log L r r') by lia.
  rewrite !(fw_prev_app log L r r') by lia.
  rewrite !(h2_source_app log L r r') by lia.
  repeat split; try apply Hm; try apply H1; try apply H2; try apply H3.
  exists s4. split; [exact E4|]. exact H4.
Qed.

Lemma keyed_round_step r st fw log :
  keyed_rounds_inv core wxor good zero hc x0 base r st fw log →
  ∃ c0 c1 c2 c3 c4 st' seed4' fw',
    step core hc st log = Some (st', call_out c0, log ++ [c0])
    ∧ wxor (Tango642.seed4 fw) (call_out c0) = Some seed4'
    ∧ Tango642.firewall_round core (Tango642.feed fw seed4') (log ++ [c0])
      = Some (fw', (call_out c1, call_out c2, call_out c3, call_out c4),
              (log ++ [c0]) ++ [c1; c2; c3; c4])
    ∧ keyed_rounds_inv core wxor good zero hc x0 base (S r) (next st') fw'
        ((log ++ [c0]) ++ [c1; c2; c3; c4])
    ∧ entry ((log ++ [c0]) ++ [c1; c2; c3; c4]) base r 1 = c1
    ∧ entry ((log ++ [c0]) ++ [c1; c2; c3; c4]) base r 2 = c2
    ∧ entry ((log ++ [c0]) ++ [c1; c2; c3; c4]) base r 3 = c3
    ∧ entry ((log ++ [c0]) ++ [c1; c2; c3; c4]) base r 4 = c4
    ∧ good (call_out c1) ∧ good (call_out c2)
    ∧ good (call_out c3) ∧ good (call_out c4).
Proof.
  intros (Hlen & HG & Hx & Hmp & HF & Hx2 & P1 & P2 & P3 & P4
          & S1 & S2 & S3 & S4 & S5 & Hshapes).
  destruct (step_good core good core_good hc st log hc_pos HG)
    as (c0 & st' & E0 & HG' & Go0 & Hx' & Hs' & Hl' & Hid0 & Hidx0 & Hgen0
        & Has0 & Hal0).
  pose proof HF as (F1 & F2 & F3 & F4 & F5 & F6 & F7 & F8 & Fh & Fl).
  destruct (wxor_good (Tango642.seed4 fw) (call_out c0) F7 Go0)
    as (seed4' & Ex & Gs4).
  assert (HF' : good_firewall good (Tango642.feed fw seed4')).
  { unfold good_firewall, Tango642.feed.
    cbn [Tango642.seed1 Tango642.lcg1 Tango642.seed2 Tango642.lcg2
         Tango642.seed3 Tango642.lcg3 Tango642.seed4 Tango642.lcg4
         Tango642.h2 Tango642.x2].
    repeat split; assumption. }
  destruct (firewall_round_good core good core_good (Tango642.feed fw seed4')
              (log ++ [c0]) HF')
    as (c1 & c2 & c3 & c4 & fw' & Ef & HF2 & Hx2' & M1 & M2 & M3 & M4
        & L1 & L2 & L3 & L4 & Q1 & Q2 & Q3 & Q4 & Q5 & Go1 & Go2 & Go3 & Go4).
  unfold Tango642.feed in M1, M2, M3, M4, Q1, Q2, Q3, Q4, Q5, Hx2'.
  cbn [Tango642.seed1 Tango642.lcg1 Tango642.seed2 Tango642.lcg2
       Tango642.seed3 Tango642.lcg3 Tango642.seed4 Tango642.lcg4
       Tango642.h2 Tango642.x2] in M1, M2, M3, M4, Q1, Q2, Q3, Q4, Q5, Hx2'.
  rewrite Hx2 in M1, M2, M3, M4, Q1, Q2, Q3, Q4, Q5, Hx2'.
  exists c0, c1, c2, c3, c4, st', seed4', fw'.
  split; [exact E0|]. split; [exact Ex|]. split; [exact Ef|].
  set (L := [c0; c1; c2; c3; c4]).
  assert (Enew : (log ++ [c0]) ++ [c1; c2; c3; c4] = log ++ L)
    by (rewrite <- app_assoc; reflexivity).
  rewrite Enew.
  assert (N0 : entry (log ++ L) base r 0 = c0) by (rewrite entry_app_r by exact Hlen; reflexivity).
  assert (N1 : entry (log ++ L) base r 1 = c1) by (rewrite entry_app_r by exact Hlen; reflexivity).
  assert (N2 : entry (log ++ L) base r 2 = c2) by (rewrite entry_app_r by exact Hlen; reflexivity).
  assert (N3 : entry (log ++ L) base r 3 = c3) by (rewrite entry_app_r by exact Hlen; reflexivity).
  assert (N4 : entry (log ++ L) base r 4 = c4) by (rewrite entry_app_r by exact Hlen; reflexivity).
  split; [|repeat split; assumption].
  unfold keyed_rounds_inv.
  split; [rewrite length_app; cbn [length L]; lia|].
  split; [exact HG'|].
  split; [cbn [next m_x]; lia|].
  split; [cbn [main_prev next m_seed m_lcg]; rewrite N0, Hs', Hl'; reflexivity|].
  split; [exact HF2|].
  split; [lia|].
  cbn [fw_prev]. rewrite N1, N2, N3, N4.
  split; [exact L1|]. split; [exact L2|]. split; [exact L3|]. split; [exact L4|].
  split.
  { replace (S r + 0)%nat with (r + 1)%nat by lia. rewrite Q2.
    cbn [h2_source]. change (1 + 1)%nat with 2%nat. rewrite N2. reflexivity. }
  split.
  { replace (S r + 1)%nat with (r + 2)%nat by lia. rewrite Q3.
    cbn [h2_source]. change (2 + 1)%nat with 3%nat. rewrite N3. reflexivity. }
  split.
  { replace (S r + 2)%nat with (r + 3)%nat by lia. rewrite Q4.
    cbn [h2_source]. change (3 + 1)%nat with 4%nat. rewrite N4. reflexivity. }
  split.
  { replace (S r + 3)%nat with (r + 4)%nat by lia. rewrite Q5, S5.
    symmetry. apply (h2_source_app log L r); [exact Hlen | lia | lia]. }
  split.
  { replace ((S r + 4) mod 5)%nat with ((r + 0) mod 5)%nat
      by (mod_facts; lia).
    rewrite Q1. cbn [h2_source]. rewrite N1. reflexivity. }
  intros r' Hr'.
  destruct (Nat.eq_dec r' r) as [->|Hne].
  - unfold round_shape, main_call, fw_call. cbv zeta.
    rewrite N0, N1, N2, N3, N4.
    rewrite (main_prev_app log L r r), !(fw_prev_app log L r r),
      !(h2_source_app log L r r) by lia.
    rewrite <- Hmp, <- P1, <- P2, <- P3, <- P4, <- S1, <- S2, <- S3, <- S4.
    cbn [fst snd].
    destruct M1 as (M11 & M12 & M13 & M14 & M15 & M16).
    destruct M2 as (M21 & M22 & M23 & M24 & M25 & M26).
    destruct M3 as (M31 & M32 & M33 & M34 & M35 & M36).
    destruct M4 as (M41 & M42 & M43 & M44 & M45 & M46).
    replace (r + 1 - 1)%nat with (r + 0)%nat in * by lia.
    replace (r + 2 - 1)%nat with (r + 1)%nat in * by lia.
    replace (r + 3 - 1)%nat with (r + 2)%nat in * by lia.
    replace (r + 4 - 1)%nat with (r + 3)%nat in * by lia.
    split.
    { split; [exact Hid0|]. split; [rewrite Hidx0, Hx; reflexivity|].
      split; [exact Hgen0|]. rewrite Has0, Hal0. reflexivity. }
    split; [repeat split; assumption|].
    split; [repeat split; assumption|].
    split; [repeat split; assumption|].
    exists seed4'. split; [exact Ex|]. repeat split; assumption.
  - apply (round_shape_app log L r r'); [exact Hlen | lia |].
    apply Hshapes. lia.
Qed.

End Rounds.

(** ** t642_sat.py: the nonce pass *)

Lemma land_1_odd i : (Nat.land i 1 =? 1)%nat = Nat.odd i.
Proof.
  change 1%nat with (Nat.ones 1) at 1. rewrite Nat.land_ones.
  change (2 ^ 1)%nat with 2%nat.
  rewrite <- Nat.bit0_mod, Nat.bit0_odd.
  destruct (Nat.odd i); reflexivity.
Qed.

Lemma odd_half i :
  (i = 2 * (i / 2) + Nat.b2n (Nat.odd i))%nat.
Proof.
  rewrite <- Nat.bit0_odd, Nat.bit0_mod. apply Nat.div_mod_eq.
Qed.

(** The condition of the pass at step [i], with [ivpos] words consumed. *)
Lemma inject_condition ivlen i :
  (Nat.land i 1 =? 1)%nat && (Nat.min (i / 2) ivlen <? ivlen)%nat
  = injected ivlen i.
Proof.
  unfold injected. rewrite land_1_odd. f_equal.
  destruct (i / 2 <? ivlen)%nat eqn:E.
  - apply Nat.ltb_lt in E. apply Nat.ltb_lt. lia.
  - apply Nat.ltb_ge in E. apply Nat.ltb_ge. lia.
Qed.

Lemma ivpos_next ivlen i :
  (if injected ivlen i then Nat.min (i / 2) ivlen + 1 else Nat.min (i / 2) ivlen)%nat
  = Nat.min (S i / 2) ivlen.
Proof.
  unfold injected.
  pose proof (odd_half i) as Hi. pose proof (odd_half (S i)) as HS.
  rewrite Nat.odd_succ, <- Nat.negb_odd in HS.
  destruct (Nat.odd i); cbn [negb Nat.b2n andb] in *.
  - destruct (i / 2 <? ivlen)%nat eqn:E.
    + apply Nat.ltb_lt in E. lia.
    + apply Nat.ltb_ge in E. lia.
  - lia.
Qed.

Section Pass.

Context {W : Type} `{Inhabited W}.
Variable core : W → W → W → option (W * W * W * W).
Variable good : W → Prop.
Hypothesis core_good : core_total core good.

(** A step taken after (seed, lcg) were changed to [(s', l')]. *)
Lemma step_after hc xf pre start (L : list (call W)) st s' l' log :
  (0 < hc)%nat → good_machine good hc st →
  calls_from core hc xf pre start L → left_by start L st →
  xf (length L) = m_x st →
  good s' → good l' →
  pre (length L) (m_seed st, m_lcg st) = Some (s', l') →
  ∃ c st',
    step core hc (Machine s' l' (m_h st) (m_x st)) log
    = Some (st', call_out c, log ++ [c])
    ∧ good_machine good hc (next st')
    ∧ m_x (next st') = (m_x st + 1)%nat
    ∧ calls_from core hc xf pre start (L ++ [c])
    ∧ left_by start (L ++ [c]) (next st')
    ∧ good (call_out c).
Proof.
  intros Hhc (G1 & G2 & G3 & G4) HC HB Hxf Gs Gl Hpre.
  assert (HGm : good_machine good hc (Machine s' l' (m_h st) (m_x st)))
    by (repeat split; assumption).
  destruct (step_good core good core_good hc _ log Hhc HGm)
    as (c & st2 & E & HG2 & Ho & Hx2 & Hs2 & Hl2 & Hid & Hidx & Hgen & Has & Hal).
  cbn [m_seed m_lcg m_h m_x] in *.
  exists c, st2. split; [exact E|]. split; [exact HG2|].
  split; [cbn [next m_x]; lia|]. split; [|split; [|exact Ho]].
  - apply calls_from_snoc; try assumption.
    + rewrite Hidx, Hxf. reflexivity.
    + unfold left_by in HB. rewrite <- HB, Hpre, Has, Hal. reflexivity.
  - unfold left_by. rewrite length_app. cbn [length].
    rewrite Nat.add_1_r. cbn [prev_of].
    rewrite list_lookup_total_middle by reflexivity.
    cbn [next m_seed m_lcg]. rewrite Hs2, Hl2. reflexivity.
Qed.

End Pass.

Lemma calc_inject_spec bits ivlen hc (iv : list Z) st log :
  (0 < hc)%nat → (ivlen ≤ length iv)%nat →
  good_machine (λ _ : Z, True) hc st →
  ∃ st' L,
    Tango642.calc_inject bits ivlen hc iv (st, log, 0%nat)
    = Some (st', log ++ L, Nat.min (hc / 2) ivlen)
    ∧ good_machine (λ _ : Z, True) hc st'
    ∧ m_x st' = (m_x st + hc)%nat
    ∧ length L = hc
    ∧ calls_from (calc bits) hc (λ j, (m_x st + j)%nat)
        (calc_nonce bits ivlen iv) (m_seed st, m_lcg st) L
    ∧ left_by (m_seed st, m_lcg st) L st'.
Proof.
  intros Hhc Hiv HG. unfold Tango642.calc_inject, range.
  destruct (for_in_seq_invariant
              (λ i '(st', log', ivpos),
                 ∃ L, log' = log ++ L
                   ∧ good_machine (λ _ : Z, True) hc st'
                   ∧ m_x st' = (m_x st + i)%nat
                   ∧ length L = i
                   ∧ calls_from (calc bits) hc (λ j, (m_x st + j)%nat)
                       (calc_nonce bits ivlen iv) (m_seed st, m_lcg st) L
                   ∧ left_by (m_seed st, m_lcg st) L st'
                   ∧ ivpos = Nat.min (i / 2) ivlen)
              (λ i '(st, log, ivpos),
                 '(st, ivpos) ←
                   (if (Nat.land i 1 =? 1)%nat && (ivpos <? ivlen)%nat
                    then w ← iv !! ivpos;
                         let calc_seed :=
                           Z.lxor (m_seed st) (Z.land w (bmask bits)) in
                         w ← iv !! ivpos;
                         let calc_lcg :=
                           Z.lxor (m_lcg st) (Z.land w (bmask bits)) in
                         Some (Machine calc_seed calc_lcg (m_h st) (m_x st),
                               (ivpos + 1)%nat)
                    else Some (st, ivpos));
                 '(st, out1, log) ← step (calc bits) hc st log;
                 let st := next st in
                 Some (st, log, ivpos))
              hc 0 (st, log, 0%nat))
    as ([[st' log'] ivpos] & E & L & -> & HG' & Hx & HL & HC & HB & Hiv').
  - exists []. rewrite app_nil_r. split; [reflexivity|]. split; [exact HG|].
    split; [lia|]. split; [reflexivity|].
    split; [intros j Hj; cbn in Hj; lia|]. split; reflexivity.
  - intros i [[st1 log1] ivpos] Hi (L & -> & HG1 & Hx1 & HL1 & HC1 & HB1 & ->).
    rewrite inject_condition.
    assert (Hpre : ∃ s' l',
               calc_nonce bits ivlen iv (length L) (m_seed st1, m_lcg st1)
               = Some (s', l')
               ∧ ('(st, ivpos) ←
                    (if injected ivlen i
                     then w ← iv !! Nat.min (i / 2) ivlen;
                          let calc_seed :=
                            Z.lxor (m_seed st1) (Z.land w (bmask bits)) in
                          w ← iv !! Nat.min (i / 2) ivlen;
                          let calc_lcg :=
                            Z.lxor (m_lcg st1) (Z.land w (bmask bits)) in
                          Some (Machine calc_seed calc_lcg (m_h st1) (m_x st1),
                                (Nat.min (i / 2) ivlen + 1)%nat)
                     else Some (st1, Nat.min (i / 2) ivlen));
                  '(st, out1, log) ← step (calc bits) hc st (log ++ L);
                  let st := next st in
                  Some (st, log, ivpos))
                 = ('(st, out1, log) ←
                      step (calc bits) hc
                        (Machine s' l' (m_h st1) (m_x st1)) (log ++ L);
                    Some (next st, log, Nat.min (S i / 2) ivlen))).
    { rewrite <- (ivpos_next ivlen i). unfold calc_nonce. rewrite HL1.
      destruct (injected ivlen i) eqn:Einj.
      - unfold injected in Einj. apply andb_true_iff in Einj as [_ Elt].
        apply Nat.ltb_lt in Elt. rewrite Nat.min_l by lia.
        destruct (lookup_lt_is_Some_2 iv (i / 2) ltac:(lia)) as [w Hw].
        rewrite Hw. cbn [mbind option_bind fst snd].
        eexists _, _. split; reflexivity.
      - exists (m_seed st1), (m_lcg st1). split; [reflexivity|].
        cbn [mbind option_bind]. destruct st1; reflexivity. }
    destruct Hpre as (s' & l' & Hnonce & ->).
    assert (Hxf : (m_x st + length L)%nat = m_x st1) by lia.
    destruct (step_after (calc bits) (λ _, True) (calc_total bits) hc
                (λ j, (m_x st + j)%nat) (calc_nonce bits ivlen iv) _ L st1 s' l'
                (log ++ L) Hhc HG1 HC1 HB1 Hxf I I Hnonce)
      as (c & st2 & E2 & HG2 & Hx2 & HC2 & HB2 & _).
    rewrite E2. cbn [mbind option_bind].
    eexists. split; [reflexivity|].
    exists (L ++ [c]). rewrite app_assoc. split; [reflexivity|].
    split; [exact HG2|]. split; [lia|].
    split; [rewrite length_app; cbn [length]; lia|].
    split; [exact HC2|]. split; [exact HB2|]. reflexivity.
  - exists st', L. subst ivpos. auto 10.
Qed.

Lemma xor_good bits (a b : bv) :
  length a = bits → length b = bits →
  ∃ c, xor a b = Some c ∧ length c = bits.
Proof.
  intros Ha Hb.
  destruct (xor_spec (λ _, false) a b) as (c & E & Hl & _); [congruence|].
  exists c. split; [exact E | congruence].
Qed.

Lemma sat_inject_spec bits ivlen hc (iv : list Z) st log :
  Nat.Even bits → (0 < bits)%nat →
  (0 < hc)%nat → (ivlen ≤ length iv)%nat →
  good_machine (λ w : bv, length w = bits) hc st →
  ∃ st' L,
    Tango642.sat_inject bits ivlen hc iv (st, log, 0%nat)
    = Some (st', log ++ L, Nat.min (hc / 2) ivlen)
    ∧ good_machine (λ w : bv, length w = bits) hc st'
    ∧ m_x st' = (m_x st + hc)%nat
    ∧ length L = hc
    ∧ calls_from (sat bits) hc (λ j, (m_x st + j)%nat)
        (sat_nonce bits ivlen iv) (m_seed st, m_lcg st) L
    ∧ left_by (m_seed st, m_lcg st) L st'.
Proof.
  intros Hev Hpos Hhc Hiv HG. unfold Tango642.sat_inject, range.
  pose proof (sat_total bits Hev Hpos) as Htot.
  destruct (for_in_seq_invariant
              (λ i '(st', log', ivpos),
                 ∃ L, log' = log ++ L
                   ∧ good_machine (λ w : bv, length w = bits) hc st'
                   ∧ m_x st' = (m_x st + i)%nat
                   ∧ length L = i
                   ∧ calls_from (sat bits) hc (λ j, (m_x st + j)%nat)
                       (sat_nonce bits ivlen iv) (m_seed st, m_lcg st) L
                   ∧ left_by (m_seed st, m_lcg st) L st'
                   ∧ ivpos = Nat.min (i / 2) ivlen)
              (λ k '(st, log, ivpos),
                 '(st, ivpos) ←
                   (if (Nat.land k 1 =? 1)%nat && (ivpos <? ivlen)%nat
                    then w ← iv !! ivpos;
                         seed ← xor (m_seed st) (inibits bits w);
                         w ← iv !! ivpos;
                         lcg ← xor (m_lcg st) (inibits bits w);
                         Some (Machine seed lcg (m_h st) (m_x st),
                               (ivpos + 1)%nat)
                    else Some (st, ivpos));
                 '(st, out1, log) ← step (sat bits) hc st log;
                 let st := next st in
                 Some (st, log, ivpos))
              hc 0 (st, log, 0%nat))
    as ([[st' log'] ivpos] & E & L & -> & HG' & Hx & HL & HC & HB & Hiv').
  - exists []. rewrite app_nil_r. split; [reflexivity|]. split; [exact HG|].
    split; [lia|]. split; [reflexivity|].
    split; [intros j Hj; cbn in Hj; lia|]. split; reflexivity.
  - intros i [[st1 log1] ivpos] Hi (L & -> & HG1 & Hx1 & HL1 & HC1 & HB1 & ->).
    rewrite inject_condition.
    assert (Hpre : ∃ s' l',
               sat_nonce bits ivlen iv (length L) (m_seed st1, m_lcg st1)
               = Some (s', l')
               ∧ length s' = bits ∧ length l' = bits
               ∧ ('(st, ivpos) ←
                    (if injected ivlen i
                     then w ← iv !! Nat.min (i / 2) ivlen;
                          seed ← xor (m_seed st1) (inibits bits w);
                          w ← iv !! Nat.min (i / 2) ivlen;
                          lcg ← xor (m_lcg st1) (inibits bits w);
                          Some (Machine seed lcg (m_h st1) (m_x st1),
                                (Nat.min (i / 2) ivlen + 1)%nat)
                     else Some (st1, Nat.min (i / 2) ivlen));
                  '(st, out1, log) ← step (sat bits) hc st (log ++ L);
                  let st := next st in
                  Some (st, log, ivpos))
                 = ('(st, out1, log) ←
                      step (sat bits) hc
                        (Machine s' l' (m_h st1) (m_x st1)) (log ++ L);
                    Some (next st, log, Nat.min (S i / 2) ivlen))).
    { rewrite <- (ivpos_next ivlen i). unfold sat_nonce. rewrite HL1.
      destruct HG1 as (G1 & G2 & G3 & G4).
      destruct (injected ivlen i) eqn:Einj.
      - unfold injected in Einj. apply andb_true_iff in Einj as [_ Elt].
        apply Nat.ltb_lt in Elt. rewrite Nat.min_l by lia.
        destruct (lookup_lt_is_Some_2 iv (i / 2) ltac:(lia)) as [w Hw].
        rewrite Hw. cbn [mbind option_bind fst snd].
        destruct (xor_good bits (m_seed st1) (inibits bits w) G1
                    (length_inibits bits w)) as (s' & -> & Hs').
        destruct (xor_good bits (m_lcg st1) (inibits bits w) G2
                    (length_inibits bits w)) as (l' & -> & Hl').
        cbn [mbind option_bind].
        exists s', l'. repeat split; assumption.
      - exists (m_seed st1), (m_lcg st1). split; [reflexivity|].
        split; [exact G1|]. split; [exact G2|].
        cbn [mbind option_bind]. destruct st1; reflexivity. }
    destruct Hpre as (s' & l' & Hnonce & Gs & Gl & ->).
    assert (Hxf : (m_x st + length L)%nat = m_x st1) by lia.
    destruct (step_after (sat bits) _ Htot hc
                (λ j, (m_x st + j)%nat) (sat_nonce bits ivlen iv) _ L st1 s' l'
                (log ++ L) Hhc HG1 HC1 HB1 Hxf Gs Gl Hnonce)
      as (c & st2 & E2 & HG2 & Hx2 & HC2 & HB2 & _).
    rewrite E2. cbn [mbind option_bind].
    eexists. split; [reflexivity|].
    exists (L ++ [c]). rewrite app_assoc. split; [reflexivity|].
    split; [exact HG2|]. split; [lia|].
    split; [rewrite length_app; cbn [length]; lia|].
    split; [exact HC2|]. split; [exact HB2|]. reflexivity.
  - exists st', L. subst ivpos. auto 10.
Qed.

(** ** t642_sat.py: the calls before the rounds *)

Section KeyedPrefix.

Context {W : Type} `{Inhabited W}.
Variable core : W → W → W → option (W * W * W * W).

Lemma keyed_prefix_glue hc nonce start (L1 L2 L3 : list (call W)) st1 st2 st3 :
  length L1 = 5%nat → length L2 = hc → length L3 = (hc + 1)%nat →
  m_x st1 = 0%nat → m_x st2 = hc →
  calls_from core hc (λ _, 0%nat) untouched start L1 →
  left_by start L1 st1 →
  calls_from core hc (λ j, (m_x st1 + j)%nat) nonce (m_seed st1, m_lcg st1) L2 →
  left_by (m_seed st1, m_lcg st1) L2 st2 →
  calls_from core hc (λ j, (m_x st2 + j)%nat) untouched
    (m_seed st2, m_lcg st2) L3 →
  left_by (m_seed st2, m_lcg st2) L3 st3 →
  length ((L1 ++ L2) ++ L3) = (5 + hc + (hc + 1))%nat
  ∧ calls_from core hc fused_counter (during 5 hc nonce) start ((L1 ++ L2) ++ L3)
  ∧ left_by start ((L1 ++ L2) ++ L3) st3.
Proof.
  intros HL1 HL2 HL3 Hx1 Hx2 HC1 HB1 HC2 HB2 HC3 HB3.
  split; [rewrite !length_app; lia|].
  assert (H12 : calls_from core hc fused_counter (during 5 hc nonce) start
                  (L1 ++ L2)
                ∧ left_by start (L1 ++ L2) st2).
  { eapply calls_from_glue; [|exact HB1|exact HC2|exact HB2| |].
    - apply (calls_from_ext core hc (λ _, 0%nat) _ untouched _ start L1);
        [| |exact HC1].
      + intros j Hj. unfold fused_counter.
        replace (j <? 5)%nat with true by (symmetry; apply Nat.ltb_lt; lia).
        reflexivity.
      + intros j p Hj. unfold during, untouched.
        replace (5 <=? j)%nat with false by (symmetry; apply Nat.leb_gt; lia).
        reflexivity.
    - intros j Hj. unfold fused_counter.
      replace (length L1 + j <? 5)%nat with false
        by (symmetry; apply Nat.ltb_ge; lia). cbv beta. lia.
    - intros j p Hj. unfold during.
      replace (5 <=? length L1 + j)%nat with true
        by (symmetry; apply Nat.leb_le; lia).
      replace (length L1 + j <? 5 + hc)%nat with true
        by (symmetry; apply Nat.ltb_lt; lia).
      cbn [andb]. f_equal. lia. }
  destruct H12 as [HC12 HB12].
  eapply calls_from_glue; [exact HC12|exact HB12|exact HC3|exact HB3| |].
  - intros j Hj. unfold fused_counter. rewrite length_app.
    replace (length L1 + length L2 + j <? 5)%nat with false
      by (symmetry; apply Nat.ltb_ge; lia). cbv beta. lia.
  - intros j p Hj. unfold during, untouched. rewrite length_app.
    replace (length L1 + length L2 + j <? 5 + hc)%nat with false
      by (symmetry; apply Nat.ltb_ge; lia).
    rewrite andb_false_r. reflexivity.
Qed.

(** The last call before the rounds left the (seed, lcg) of the machine. *)
Lemma left_by_main_prev start (L : list (call W)) st :
  (0 < length L)%nat → left_by start L st →
  (m_seed st, m_lcg st) = main_prev L (length L) 0.
Proof.
  intros Hpos HB. unfold left_by in HB. rewrite HB.
  destruct (length L) as [|n]; [lia|].
  cbn [prev_of main_prev]. replace (S n - 1)%nat with n by lia. reflexivity.
Qed.

End KeyedPrefix.

(** ** t642_sat.py: the loop over the rounds *)

Lemma keyed_rounds_start {W : Type} `{Inhabited W}
    (core : W → W → W → option (W * W * W * W)) (wxor : W → W → option W)
    (good : W → Prop) (zero : W) hc start (L : list (call W)) st :
  (0 < length L)%nat → good_machine good hc st → good zero →
  left_by start L st →
  keyed_rounds_inv core wxor good zero hc (m_x st) (length L) 0 st
    (Tango642.Firewall zero zero zero zero zero zero zero zero
       [zero; zero; zero; zero; zero] 0)
    L.
Proof.
  intros Hpos HG Hz HB. unfold keyed_rounds_inv.
  split; [lia|]. split; [exact HG|]. split; [lia|].
  split; [apply (left_by_main_prev start); assumption|].
  split.
  { unfold good_firewall. cbn. repeat split; try assumption.
    repeat constructor; assumption. }
  repeat split; intros; lia.
Qed.

Lemma keyed_rounds_calc bits hc fc x0 base R st fw log :
  (0 < hc)%nat → (0 < base)%nat →
  keyed_rounds_inv (calc bits) calc_xor (λ _, True) 0 hc x0 base 0 st fw log →
  ∃ st' fw' log' obs,
    for_in (range R) (Tango642.calc_round bits hc fc) (st, fw, log, [])
    = Some (st', fw', log', obs)
    ∧ keyed_rounds_inv (calc bits) calc_xor (λ _, True) 0 hc x0 base R
        st' fw' log'
    ∧ length obs = (4 * (R - fc))%nat
    ∧ (∀ q j, (fc + q < R)%nat → (j < 4)%nat →
         obs !!! (4 * q + j)%nat = call_out (entry log' base (fc + q) (j + 1)))
    ∧ ∃ L, log' = log ++ L.
Proof.
  intros Hhc Hbase H0. unfold range.
  assert (Hxg : ∀ a b : Z, True → True → ∃ c, calc_xor a b = Some c ∧ True)
    by (intros a b _ _; eexists; split; [reflexivity | exact I]).
  destruct (for_in_seq_invariant
              (λ i '(st', fw', log', obs),
                 keyed_rounds_inv (calc bits) calc_xor (λ _, True) 0 hc x0 base i
                   st' fw' log'
                 ∧ length obs = (4 * (i - fc))%nat
                 ∧ (∀ q j, (fc + q < i)%nat → (j < 4)%nat →
                      obs !!! (4 * q + j)%nat
                      = call_out (entry log' base (fc + q) (j + 1)))
                 ∧ ∃ L, log' = log ++ L)
              (Tango642.calc_round bits hc fc) R 0 (st, fw, log, []))
    as ([[[st' fw'] log'] obs] & E & HI & HO & HK & HP).
  - split; [exact H0|]. split; [cbn; lia|].
    split; [intros q j Hq; lia|]. exists []. rewrite app_nil_r. reflexivity.
  - intros i [[[st1 fw1] log1] obs] Hi (HI & HO & HK & L0 & HP).
    assert (HP2 : ∀ c0 c1 c2 c3 c4 : call Z,
               ∃ L, (log1 ++ [c0]) ++ [c1; c2; c3; c4] = log ++ L).
    { intros. exists (L0 ++ [c0; c1; c2; c3; c4]). rewrite HP.
      rewrite <- !app_assoc. reflexivity. }
    destruct (keyed_round_step (calc bits) calc_xor (λ _, True) 0
                (calc_total bits) Hxg hc x0 base Hhc Hbase i st1 fw1 log1 HI)
      as (c0 & c1 & c2 & c3 & c4 & st2 & seed4' & fw2 & E0 & Ex & Ef & HI2
          & N1 & N2 & N3 & N4 & _).
    unfold Tango642.calc_round. rewrite E0. cbn [mbind option_bind].
    injection Ex as <-. rewrite Ef. cbn [mbind option_bind].
    eexists. split; [reflexivity|]. cbv beta iota.
    split; [exact HI2|].
    pose proof HI as (Hlen & _).
    assert (Hmono : ∀ q j, (fc + q < i)%nat → (j < 4)%nat →
               entry ((log1 ++ [c0]) ++ [c1; c2; c3; c4]) base (fc + q) (j + 1)
               = entry log1 base (fc + q) (j + 1)).
    { intros q j Hq Hj. rewrite <- app_assoc.
      apply entry_app_l. lia. }
    assert (Hentry : ∀ k, (k < 4)%nat → entry ((log1 ++ [c0]) ++ [c1; c2; c3; c4])
                             base i (k + 1) = [c1; c2; c3; c4] !!! k).
    { intros k Hk.
      assert (Hc : (k = 0 ∨ k = 1 ∨ k = 2 ∨ k = 3)%nat) by lia.
      destruct Hc as [->|[->|[->| ->]]]; cbn [Nat.add];
        [rewrite N1 | rewrite N2 | rewrite N3 | rewrite N4]; reflexivity. }
    set (log2 := (log1 ++ [c0]) ++ [c1; c2; c3; c4]) in *.
    destruct (fc <=? i)%nat eqn:Efc.
    + apply Nat.leb_le in Efc.
      rewrite <- !app_assoc. cbn [app].
      split; [rewrite length_app; cbn [length]; lia|].
      split; [|apply HP2].
      intros q j Hq Hj.
      destruct (Nat.eq_dec (fc + q)%nat i) as [Heq|Hne].
      * rewrite lookup_total_app_r by lia.
        replace (4 * q + j - length obs)%nat with j by lia.
        rewrite Heq, (Hentry j Hj).
        assert (Hc : (j = 0 ∨ j = 1 ∨ j = 2 ∨ j = 3)%nat) by lia.
        destruct Hc as [->|[->|[->| ->]]]; reflexivity.
      * rewrite lookup_total_app_l by lia.
        rewrite Hmono by lia. apply HK; lia.
    + apply Nat.leb_gt in Efc.
      split; [lia|]. split; [|apply HP2]. intros q j Hq Hj. lia.
  - exists st', fw', log', obs. auto.
Qed.

Lemma lookup_blocks4 {A : Type} `{Inhabited A} n (B1 B2 B3 B4 : list A) j b :
  length B1 = n → length B2 = n → length B3 = n → length B4 = n →
  (j < 4)%nat → (b < n)%nat →
  (B1 ++ B2 ++ B3 ++ B4) !!! (j * n + b)%nat = ([B1; B2; B3; B4] !!! j) !!! b.
Proof.
  intros H1 H2 H3 H4 Hj Hb.
  assert (Hc : (j = 0 ∨ j = 1 ∨ j = 2 ∨ j = 3)%nat) by lia.
  destruct Hc as [->|[->|[->| ->]]]; cbn [lookup_total list_lookup_total].
  - rewrite lookup_total_app_l by lia. f_equal.
  - rewrite lookup_total_app_r, lookup_total_app_l by lia. f_equal. lia.
  - rewrite lookup_total_app_r by lia.
    rewrite lookup_total_app_r, lookup_total_app_l by lia. f_equal. lia.
  - rewrite lookup_total_app_r by lia.
    rewrite lookup_total_app_r by lia.
    rewrite lookup_total_app_r by lia. f_equal. lia.
Qed.

Lemma keyed_rounds_sat bits hc fc x0 base R (obs : list Z) st fw log :
  Nat.Even bits → (0 < bits)%nat → (0 < hc)%nat → (0 < base)%nat →
  (4 * (R - fc) ≤ length obs)%nat →
  keyed_rounds_inv (sat bits) xor (λ w : bv, length w = bits) (inibits bits 0)
    hc x0 base 0 st fw log →
  ∃ st' fw' log' cs,
    for_in (range R) (Tango642.sat_round bits hc fc obs) (st, fw, log, [])
    = Some (st', fw', log', cs)
    ∧ keyed_rounds_inv (sat bits) xor (λ w : bv, length w = bits)
        (inibits bits 0) hc x0 base R st' fw' log'
    ∧ length cs = (4 * (R - fc) * bits)%nat
    ∧ (∀ q j b, (fc + q < R)%nat → (j < 4)%nat → (b < bits)%nat →
         cs !!! ((4 * q + j) * bits + b)%nat
         = (call_out (entry log' base (fc + q) (j + 1)) !!! b,
            Z.testbit (obs !!! (4 * q + j)%nat) (Z.of_nat b)))
    ∧ ∃ L, log' = log ++ L.
Proof.
  intros Hev Hpos Hhc Hbase Hobs H0. unfold range.
  pose proof (sat_total bits Hev Hpos) as Htot.
  pose proof (xor_good bits) as Hxg.
  destruct (for_in_seq_invariant
              (λ i '(st', fw', log', cs),
                 keyed_rounds_inv (sat bits) xor (λ w : bv, length w = bits)
                   (inibits bits 0) hc x0 base i st' fw' log'
                 ∧ length cs = (4 * (i - fc) * bits)%nat
                 ∧ (∀ q j b, (fc + q < i)%nat → (j < 4)%nat → (b < bits)%nat →
                      cs !!! ((4 * q + j) * bits + b)%nat
                      = (call_out (entry log' base (fc + q) (j + 1)) !!! b,
                         Z.testbit (obs !!! (4 * q + j)%nat) (Z.of_nat b)))
                 ∧ ∃ L, log' = log ++ L)
              (Tango642.sat_round bits hc fc obs) R 0 (st, fw, log, []))
    as ([[[st' fw'] log'] cs] & E & HI & HO & HK & HP).
  - split; [exact H0|]. split; [cbn; lia|].
    split; [intros q j b Hq; lia|]. exists []. rewrite app_nil_r. reflexivity.
  - intros i [[[st1 fw1] log1] cs] Hi (HI & HO & HK & L0 & HP).
    assert (HP2 : ∀ c0 c1 c2 c3 c4 : call bv,
               ∃ L, (log1 ++ [c0]) ++ [c1; c2; c3; c4] = log ++ L).
    { intros. exists (L0 ++ [c0; c1; c2; c3; c4]). rewrite HP.
      rewrite <- !app_assoc. reflexivity. }
    destruct (keyed_round_step (sat bits) xor (λ w : bv, length w = bits)
                (inibits bits 0) Htot Hxg hc x0 base Hhc Hbase i st1 fw1 log1 HI)
      as (c0 & c1 & c2 & c3 & c4 & st2 & seed4' & fw2 & E0 & Ex & Ef & HI2
          & N1 & N2 & N3 & N4 & G1 & G2 & G3 & G4).
    unfold Tango642.sat_round. rewrite E0. cbn [mbind option_bind].
    rewrite Ex. cbn [mbind option_bind]. rewrite Ef. cbn [mbind option_bind].
    pose proof HI as (Hlen & _).
    set (log2 := (log1 ++ [c0]) ++ [c1; c2; c3; c4]) in *.
    assert (Hmono : ∀ q j, (fc + q < i)%nat → (j < 4)%nat →
               entry log2 base (fc + q) (j + 1)
               = entry log1 base (fc + q) (j + 1)).
    { intros q j Hq Hj. unfold log2. rewrite <- app_assoc.
      apply entry_app_l. lia. }
    destruct (fc <=? i)%nat eqn:Efc.
    + apply Nat.leb_le in Efc.
      do 4 (rewrite bind_output_spec by lia; cbn [mbind option_bind]).
      eexists. split; [reflexivity|]. cbv beta iota.
      split; [exact HI2|].
      rewrite <- !app_assoc.
      split; [rewrite !length_app, !length_bound; nia|].
      split; [|apply HP2].
      intros q j b Hq Hj Hb.
      destruct (Nat.eq_dec (fc + q)%nat i) as [Heq|Hne].
      * assert (Hqi : q = (i - fc)%nat) by lia.
        rewrite lookup_total_app_r by nia.
        replace ((4 * q + j) * bits + b - length cs)%nat with (j * bits + b)%nat
          by nia.
        rewrite (lookup_blocks4 bits) by (rewrite ?length_bound; lia).
        rewrite Heq. subst q.
        replace ((i - fc) * 4)%nat with (4 * (i - fc))%nat by lia.
        assert (Hc : (j = 0 ∨ j = 1 ∨ j = 2 ∨ j = 3)%nat) by lia.
        destruct Hc as [->|[->|[->| ->]]];
          cbn [lookup_total list_lookup_total Nat.add];
          rewrite lookup_bound by lia;
          [rewrite N1 | rewrite N2 | rewrite N3 | rewrite N4];
          reflexivity.
      * rewrite lookup_total_app_l by nia.
        rewrite Hmono by lia. apply HK; lia.
    + apply Nat.leb_gt in Efc. cbn [mbind option_bind].
      eexists. split; [reflexivity|]. cbv beta iota.
      split; [exact HI2|].
      split; [nia|]. split; [|apply HP2]. intros q j b Hq Hj. lia.
  - exists st', fw', log', cs. auto.
Qed.

(** ** t642_sat.py: the two runs *)

Lemma tango_calc_run bits hci ivlen hc fc num_obs seed_i (hcv iv : list Z) :
  (0 < hc)%nat → (hci ≤ length hcv)%nat → (ivlen ≤ length iv)%nat →
  ∃ st fw log obs,
    Tango642.calc_run bits hci ivlen hc fc num_obs seed_i hcv iv
    = Some (st, fw, log, obs)
    ∧ length log = (keyed_base hc + 5 * (fc + num_obs))%nat
    ∧ calls_from (calc bits) hc fused_counter
        (during 5 hc (calc_nonce bits ivlen iv))
        (Z.land seed_i (bmask bits), 0) (take (keyed_base hc) log)
    ∧ (∀ r, (r < fc + num_obs)%nat →
         round_shape (calc bits) calc_xor 0 hc (hc + (hc + 1)) log
           (keyed_base hc) r)
    ∧ length obs = (4 * num_obs)%nat
    ∧ (∀ q j, (q < num_obs)%nat → (j < 4)%nat →
         obs !!! (4 * q + j)%nat
         = call_out (entry log (keyed_base hc) (fc + q) (j + 1)))
    ∧ length (Tango642.h2 fw) = 5%nat.
Proof.
  intros Hhc Hhci Hiv. unfold Tango642.calc_run.
  destruct (init_calc_h_spec bits hci hc hcv Hhci) as (calc_h & E0 & Hlen).
  change (Gradilac.init_calc_h bits hci hc hcv)
    with (Tango642.init_calc_h bits hci hc hcv) in E0.
  rewrite E0. cbn [mbind option_bind].
  set (st0 := @Machine Z (Z.land seed_i (bmask bits)) 0 calc_h 0).
  assert (HG0 : good_machine (λ _ : Z, True) hc st0).
  { repeat split; [apply Forall_forall; auto | exact Hlen]. }
  destruct (plain_loop (calc bits) (λ _, True) (calc_total bits) false hc 5 0
              st0 [] Hhc HG0)
    as (st1 & L1 & E1 & HG1 & Hx1 & HL1 & HC1 & HB1).
  assert (E1' : warm_up (calc bits) hc (st0, []) = Some (st1, L1)) by exact E1.
  rewrite E1'. cbn [mbind option_bind fst snd].
  destruct (calc_inject_spec bits ivlen hc iv st1 L1 Hhc Hiv HG1)
    as (st2 & L2 & E2 & HG2 & Hx2 & HL2 & HC2 & HB2).
  rewrite E2. cbn [mbind option_bind].
  destruct (plain_loop (calc bits) (λ _, True) (calc_total bits) true hc (hc + 1)
              0 st2 (L1 ++ L2) Hhc HG2)
    as (st3 & L3 & E3 & HG3 & Hx3 & HL3 & HC3 & HB3).
  assert (E3' : advance (calc bits) (hc + 1) hc (st2, L1 ++ L2)
                = Some (st3, (L1 ++ L2) ++ L3)) by exact E3.
  rewrite E3'. cbn [mbind option_bind fst snd].
  cbn [m_x st0] in Hx1.
  destruct (keyed_prefix_glue (calc bits) hc (calc_nonce bits ivlen iv)
              (m_seed st0, m_lcg st0) L1 L2 L3 st1 st2 st3 HL1 HL2 HL3 Hx1
              ltac:(lia) HC1 HB1 HC2 HB2 HC3 HB3) as (Hlen3 & HCp & HBp).
  set (P := (L1 ++ L2) ++ L3) in *.
  assert (Hbase : length P = keyed_base hc) by exact Hlen3.
  pose proof (keyed_rounds_start (calc bits) calc_xor (λ _ : Z, True) 0 hc
                _ P st3 ltac:(unfold keyed_base in Hbase; lia) HG3 I HBp) as Hinv.
  rewrite Hbase in Hinv.
  destruct (keyed_rounds_calc bits hc fc (m_x st3) (keyed_base hc)
              (fc + num_obs) st3 _ P Hhc ltac:(unfold keyed_base; lia) Hinv)
    as (st4 & fw4 & log4 & obs & E4 & HI4 & HO & HK & L4 & ->).
  rewrite E4. exists st4, fw4, (P ++ L4), obs. split; [reflexivity|].
  destruct HI4 as (Hlen4 & _ & _ & _ & HGF & _ & _ & _ & _ & _ & _ & _ & _ & _ & _
                   & Hshapes).
  split; [exact Hlen4|].
  split; [rewrite <- Hbase, take_app_length; exact HCp|].
  split.
  { replace (hc + (hc + 1))%nat with (m_x st3) by lia. exact Hshapes. }
  split; [lia|].
  split; [intros q j Hq Hj; apply HK; lia|].
  apply HGF.
Qed.

Lemma tango_sat_run bits hci ivlen hc fc num_obs (iv obs : list Z) :
  Nat.Even bits → (0 < bits)%nat →
  (0 < hc)%nat → (ivlen ≤ length iv)%nat → (4 * num_obs ≤ length obs)%nat →
  ∃ inst,
    Tango642.sat_run bits hci ivlen hc fc num_obs iv obs = Some inst
    ∧ length (Tango642.sat_log inst) = (keyed_base hc + 5 * (fc + num_obs))%nat
    ∧ calls_from (sat bits) hc fused_counter
        (during 5 hc (sat_nonce bits ivlen iv))
        (Tango642.start_seed inst, inibits bits 0)
        (take (keyed_base hc) (Tango642.sat_log inst))
    ∧ (∀ r, (r < fc + num_obs)%nat →
         round_shape (sat bits) xor (inibits bits 0) hc (hc + (hc + 1))
           (Tango642.sat_log inst) (keyed_base hc) r)
    ∧ length (Tango642.constraints inst) = (4 * num_obs * bits)%nat
    ∧ (∀ q j b, (q < num_obs)%nat → (j < 4)%nat → (b < bits)%nat →
        Tango642.constraints inst !!! ((4 * q + j) * bits + b)%nat
        = (call_out (entry (Tango642.sat_log inst) (keyed_base hc) (fc + q)
                       (j + 1)) !!! b,
           Z.testbit (obs !!! (4 * q + j)%nat) (Z.of_nat b)))
    ∧ length (Tango642.h2 (Tango642.final_firewall inst)) = 5%nat.
Proof.
  intros Hev Hpos Hhc Hiv Hobs. unfold Tango642.sat_run, new_vars.
  pose proof (sat_total bits Hev Hpos) as Htot.
  destruct (init_h_spec bits hci hc (0 + bits)) as (sh & h & f & E0 & Hlen & Hw).
  change (Gradilac.init_h bits hci hc (0 + bits))
    with (Tango642.init_h bits hci hc (0 + bits)) in E0.
  set (st0 := @Machine bv (map BVar (seq 0 bits)) (inibits bits 0) h 0).
  assert (HG0 : good_machine (λ w : bv, length w = bits) hc st0).
  { repeat split; try assumption; cbn [m_seed m_lcg st0];
      [rewrite length_map, length_seq; reflexivity | apply length_inibits]. }
  destruct (plain_loop (sat bits) _ Htot false hc 5 0 st0 [] Hhc HG0)
    as (st1 & L1 & E1 & HG1 & Hx1 & HL1 & HC1 & HB1).
  assert (E1' : warm_up (sat bits) hc (st0, []) = Some (st1, L1)) by exact E1.
  destruct (sat_inject_spec bits ivlen hc iv st1 L1 Hev Hpos Hhc Hiv HG1)
    as (st2 & L2 & E2 & HG2 & Hx2 & HL2 & HC2 & HB2).
  destruct (plain_loop (sat bits) _ Htot true hc (hc + 1) 0 st2 (L1 ++ L2) Hhc HG2)
    as (st3 & L3 & E3 & HG3 & Hx3 & HL3 & HC3 & HB3).
  assert (E3' : advance (sat bits) (hc + 1) hc (st2, L1 ++ L2)
                = Some (st3, (L1 ++ L2) ++ L3)) by exact E3.
  cbn [m_x st0] in Hx1.
  destruct (keyed_prefix_glue (sat bits) hc (sat_nonce bits ivlen iv)
              (m_seed st0, m_lcg st0) L1 L2 L3 st1 st2 st3 HL1 HL2 HL3 Hx1
              ltac:(lia) HC1 HB1 HC2 HB2 HC3 HB3) as (Hlen3 & HCp & HBp).
  set (P := (L1 ++ L2) ++ L3) in *.
  assert (Hbase : length P = keyed_base hc) by exact Hlen3.
  pose proof (keyed_rounds_start (sat bits) xor (λ w : bv, length w = bits)
                (inibits bits 0) hc _ P st3
                ltac:(unfold keyed_base in Hbase; lia) HG3
                (length_inibits bits 0) HBp) as Hinv.
  rewrite Hbase in Hinv.
  destruct (keyed_rounds_sat bits hc fc (m_x st3) (keyed_base hc)
              (fc + num_obs) obs st3 _ P Hev Hpos Hhc
              ltac:(unfold keyed_base; lia) ltac:(lia) Hinv)
    as (st4 & fw4 & log4 & cs & E4 & HI4 & HO & HK & L4 & ->).
  eexists. split.
  { rewrite E0. cbn [mbind option_bind]. cbv zeta. fold st0. rewrite E1'.
    cbn [mbind option_bind fst snd]. rewrite E2. cbn [mbind option_bind].
    rewrite E3'. cbn [mbind option_bind fst snd]. rewrite E4. reflexivity. }
  cbn [Tango642.sat_log Tango642.start_seed Tango642.constraints
       Tango642.final_firewall].
  destruct HI4 as (Hlen4 & _ & _ & _ & HGF & _ & _ & _ & _ & _ & _ & _ & _ & _ & _
                   & Hshapes).
  split; [exact Hlen4|].
  split; [rewrite <- Hbase, take_app_length; exact HCp|].
  split.
  { replace (hc + (hc + 1))%nat with (m_x st3) by lia. exact Hshapes. }
  split; [nia|].
  split; [intros q j b Hq Hj Hb; apply HK; lia|].
  apply HGF.
Qed.

(** ** What the shape of the rounds gives *)

Section Shapes.

Context {W : Type} `{Inhabited W}.
Variable core : W → W → W → option (W * W * W * W).
Variable wxor : W → W → option W.
Variable zero : W.

Lemma round_shape_fw hc x0 (log : list (call W)) base r k :
  round_shape core wxor zero hc x0 log base r → (1 ≤ k ≤ 4)%nat →
  call_core_id (entry log base r k) = k
  ∧ call_index (entry log base r k) = ((r + k - 1) mod 5)%nat
  ∧ arg_h (entry log base r k) = h2_source zero log base r k.
Proof.
  intros (_ & H1 & H2 & H3 & s4 & _ & H4) Hk.
  assert (Hc : (k = 1 ∨ k = 2 ∨ k = 3 ∨ k = 4)%nat) by lia.
  destruct Hc as [->|[->|[->| ->]]];
    [destruct H1 as (A & B & _ & _ & _ & C)
    |destruct H2 as (A & B & _ & _ & _ & C)
    |destruct H3 as (A & B & _ & _ & _ & C)
    |destruct H4 as (A & B & _ & _ & _ & C)]; auto.
Qed.

Lemma shapes_h2_shared hc x0 R base (log : list (call W)) :
  (∀ r, (r < R)%nat → round_shape core wxor zero hc x0 log base r) →
  h2_shared R base log.
Proof.
  intros Hs r Hr. split; [|split; [|split]].
  - intros k Hk.
    destruct (round_shape_fw hc x0 log base r k (Hs r Hr) Hk) as (A & B & _).
    auto.
  - intros k k' Hk Hk'.
    destruct (round_shape_fw hc x0 log base r k (Hs r Hr) ltac:(lia))
      as (_ & -> & _).
    destruct (round_shape_fw hc x0 log base r k' (Hs r Hr) ltac:(lia))
      as (_ & -> & _).
    mod_facts. lia.
  - intros k Hk Hr1.
    destruct (round_shape_fw hc x0 log base (r + 1) k (Hs _ Hr1) ltac:(lia))
      as (_ & -> & ->).
    destruct (round_shape_fw hc x0 log base r (k + 1) (Hs r Hr) ltac:(lia))
      as (_ & -> & _).
    split; [f_equal; lia|].
    replace (r + 1)%nat with (S r) by lia.
    assert (Hc : (k = 1 ∨ k = 2 ∨ k = 3)%nat) by lia.
    destruct Hc as [->|[->| ->]]; reflexivity.
  - intros Hr2.
    destruct (round_shape_fw hc x0 log base (r + 2) 4 (Hs _ Hr2) ltac:(lia))
      as (_ & -> & ->).
    destruct (round_shape_fw hc x0 log base r 1 (Hs r Hr) ltac:(lia))
      as (_ & -> & _).
    split; [mod_facts; lia|].
    replace (r + 2)%nat with (S (S r)) by lia. reflexivity.
Qed.

Lemma shapes_round_robin hc R (log : list (call W)) :
  (∀ r, (r < R)%nat →
     round_shape core wxor zero hc (hc + (hc + 1)) log (keyed_base hc) r) →
  round_robin_in_rounds hc R log.
Proof.
  intros Hs r Hr. pose proof (Hs r Hr) as Hshape.
  destruct Hshape as ((A & B & _) & _).
  split; [exact A|]. split.
  - rewrite B. unfold keyed_base. f_equal. lia.
  - intros k Hk.
    destruct (round_shape_fw hc _ log _ r k (Hs r Hr) Hk) as (C & D & _). auto.
Qed.

Lemma calls_from_round_robin hc pre start n (log : list (call W)) :
  (n ≤ length log)%nat →
  calls_from core hc fused_counter pre start (take n log) →
  round_robin_after_warm_up hc n log.
Proof.
  intros Hn HC j Hj.
  assert (Hlt : (j < length (take n log))%nat) by (rewrite length_take; lia).
  destruct (HC j Hlt) as (A & B & _).
  rewrite lookup_total_take_lt in A, B by exact Hj.
  split; [exact A|]. rewrite B. unfold fused_counter.
  destruct (j <? 5)%nat; [|reflexivity].
  apply Nat.Div0.mod_0_l.
Qed.

End Shapes.

(** * The claims on the keyed schedule and on the counters *)

(** [C8] The rounds of t642_sat.py (Variant B).  Both runs return.  After
    the [keyed_base hc] calls of the opening there are [fc + num_obs]
    rounds of five calls.  In each round the main core advances by one
    step, its output is combined into the seed passed to firewall core 4,
    and firewall cores 1 to 4 advance by one step each.  The observations
    are the four firewall outputs of the rounds [fc], .., [fc + num_obs - 1]
    and of no other; constraint [b] of output [j] of round [fc + q] equates
    bit [b] of the symbolic output with bit [b] of the observation. *)
Theorem firewall_rounds (bits hci ivlen hc fc num_obs : nat) (seed_i : Z)
    (hcv iv : list Z) :
  Nat.Even bits → (0 < bits)%nat → (0 < hc)%nat →
  (hci ≤ length hcv)%nat → (ivlen ≤ length iv)%nat →
  ∃ st fw log obs inst,
    Tango642.calc_run bits hci ivlen hc fc num_obs seed_i hcv iv
    = Some (st, fw, log, obs)
    ∧ Tango642.sat_run bits hci ivlen hc fc num_obs iv obs = Some inst
    ∧ length log = (keyed_base hc + 5 * (fc + num_obs))%nat
    ∧ length (Tango642.sat_log inst) = (keyed_base hc + 5 * (fc + num_obs))%nat
    ∧ (∀ r, (r < fc + num_obs)%nat →
         round_shape (calc bits) calc_xor 0 hc (hc + (hc + 1)) log
           (keyed_base hc) r)
    ∧ (∀ r, (r < fc + num_obs)%nat →
         round_shape (sat bits) xor (inibits bits 0) hc (hc + (hc + 1))
           (Tango642.sat_log inst) (keyed_base hc) r)
    ∧ length obs = (4 * num_obs)%nat
    ∧ (∀ q j, (q < num_obs)%nat → (j < 4)%nat →
         obs !!! (4 * q + j)%nat
         = call_out (entry log (keyed_base hc) (fc + q) (j + 1)))
    ∧ length (Tango642.constraints inst) = (4 * num_obs * bits)%nat
    ∧ (∀ q j b, (q < num_obs)%nat → (j < 4)%nat → (b < bits)%nat →
         Tango642.constraints inst !!! ((4 * q + j) * bits + b)%nat
         = (call_out (entry (Tango642.sat_log inst) (keyed_base hc) (fc + q)
                        (j + 1)) !!! b,
            Z.testbit (obs !!! (4 * q + j)%nat) (Z.of_nat b))).
Proof.
  intros Hev Hpos Hhc Hhci Hiv.
  destruct (tango_calc_run bits hci ivlen hc fc num_obs seed_i hcv iv
              Hhc Hhci Hiv)
    as (st & fw & log & obs & Ec & Hlen & _ & Hsh & HO & HK & _).
  destruct (tango_sat_run bits hci ivlen hc fc num_obs iv obs Hev Hpos Hhc Hiv
              ltac:(lia)) as (inst & Es & Hslen & _ & Hssh & Hcs & HSK & _).
  exists st, fw, log, obs, inst. auto 12.
Qed.

Lemma firewall_rounds_witness :
  ∃ st fw log obs inst,
    Tango642.calc_run 6 2 4 16 15 16 4 [3; 14; 3; 13] [15; 9; 4; 6]
    = Some (st, fw, log, obs)
    ∧ Tango642.sat_run 6 2 4 16 15 16 [15; 9; 4; 6] obs = Some inst
    ∧ length log = 193%nat
    ∧ length (Tango642.sat_log inst) = 193%nat
    ∧ length obs = 64%nat
    ∧ length (Tango642.constraints inst) = 384%nat.
Proof.
  destruct (firewall_rounds 6 2 4 16 15 16 4 [3; 14; 3; 13] [15; 9; 4; 6])
    as (st & fw & log & obs & inst & H1 & H2 & H3 & H4 & _ & _ & H5 & _ & H6 & _);
    [exists 3%nat; reflexivity | lia | lia | cbn; lia | cbn; lia |].
  exists st, fw, log, obs, inst. auto 10.
Defined.

(** [C10] The four firewall cores of t642_sat.py share the one array
    [h2], in the concrete and in the symbolic run: in round [r] core [k]
    passes (and is returned into) element [(r + k - 1) mod 5]; the four
    elements of a round are distinct; the word core [k + 1] returned in
    round [r] is the word core [k] is passed in round [r + 1], and the word
    core 1 returned in round [r] is the word core 4 is passed in round
    [r + 2]. *)
Theorem firewall_cores_share_h2 (bits hci ivlen hc fc num_obs : nat)
    (seed_i : Z) (hcv iv : list Z) :
  Nat.Even bits → (0 < bits)%nat → (0 < hc)%nat →
  (hci ≤ length hcv)%nat → (ivlen ≤ length iv)%nat →
  ∃ st fw log obs inst,
    Tango642.calc_run bits hci ivlen hc fc num_obs seed_i hcv iv
    = Some (st, fw, log, obs)
    ∧ Tango642.sat_run bits hci ivlen hc fc num_obs iv obs = Some inst
    ∧ length (Tango642.h2 fw) = 5%nat
    ∧ length (Tango642.h2 (Tango642.final_firewall inst)) = 5%nat
    ∧ h2_shared (fc + num_obs) (keyed_base hc) log
    ∧ h2_shared (fc + num_obs) (keyed_base hc) (Tango642.sat_log inst).
Proof.
  intros Hev Hpos Hhc Hhci Hiv.
  destruct (tango_calc_run bits hci ivlen hc fc num_obs seed_i hcv iv
              Hhc Hhci Hiv)
    as (st & fw & log & obs & Ec & Hlen & _ & Hsh & HO & HK & Hh2).
  destruct (tango_sat_run bits hci ivlen hc fc num_obs iv obs Hev Hpos Hhc Hiv
              ltac:(lia)) as (inst & Es & Hslen & _ & Hssh & Hcs & HSK & Hsh2).
  exists st, fw, log, obs, inst.
  split; [exact Ec|]. split; [exact Es|].
  split; [exact Hh2|]. split; [exact Hsh2|]. split.
  - apply (shapes_h2_shared (calc bits) calc_xor 0 hc (hc + (hc + 1))). exact Hsh.
  - apply (shapes_h2_shared (sat bits) xor (inibits bits 0) hc (hc + (hc + 1))).
    exact Hssh.
Qed.

Lemma firewall_cores_share_h2_witness :
  ∃ st fw log obs inst,
    Tango642.calc_run 6 2 4 16 15 16 4 [3; 14; 3; 13] [15; 9; 4; 6]
    = Some (st, fw, log, obs)
    ∧ Tango642.sat_run 6 2 4 16 15 16 [15; 9; 4; 6] obs = Some inst
    ∧ h2_shared 31 38 log
    ∧ h2_shared 31 38 (Tango642.sat_log inst).
Proof.
  destruct (firewall_cores_share_h2 6 2 4 16 15 16 4 [3; 14; 3; 13]
              [15; 9; 4; 6])
    as (st & fw & log & obs & inst & H1 & H2 & _ & _ & H3 & H4);
    [exists 3%nat; reflexivity | lia | lia | cbn; lia | cbn; lia |].
  exists st, fw, log, obs, inst. auto.
Defined.

(** [C6], as stated, fails: in the run of gradilac_sat.py the first calls
    all pass element 0 of a two-element array, which no counter advanced
    after every call selects. *)
Lemma round_robin_every_call_fails :
  ∃ st log obs,
    Gradilac.calc_run 6 2 2 1 4 5 [13; 4] = Some (st, log, obs)
    ∧ ¬ round_robin_every_call 2 log.
Proof.
  eexists _, _, _. split; [vm_compute; reflexivity|].
  intros [x0 Hx].
  pose proof (Hx 0%nat ltac:(cbn; lia)) as H0.
  pose proof (Hx 1%nat ltac:(cbn; lia)) as H1.
  change (0 = (x0 + 0) mod 2)%nat in H0.
  change (0 = (x0 + 1) mod 2)%nat in H1.
  mod_facts. lia.
Qed.

(** [C6], amended.  In every run of either script the five warm-up calls
    pass hash element 0, and each later call of the main core passes the
    element selected by a counter that starts at 0 and advances by one,
    modulo [hc], after that call; in the rounds of t642_sat.py the
    firewall cores do not use that counter: firewall core [k] passes
    element [(r + k - 1) mod 5] of the array [h2] in round [r]. *)
Theorem round_robin_of_the_runs (bits hci ivlen hc fc num_obs : nat)
    (seed_i lcg_i : Z) (hcv iv : list Z) :
  Nat.Even bits → (0 < bits)%nat → (0 < hc)%nat →
  (hci ≤ length hcv)%nat → (ivlen ≤ length iv)%nat →
  (∃ st log obs inst,
     Gradilac.calc_run bits hci hc num_obs seed_i lcg_i hcv = Some (st, log, obs)
     ∧ Gradilac.sat_run bits hci hc num_obs obs = Some inst
     ∧ round_robin_after_warm_up hc (length log) log
     ∧ round_robin_after_warm_up hc (length (Gradilac.sat_log inst))
         (Gradilac.sat_log inst))
  ∧ (∃ st fw log obs inst,
       Tango642.calc_run bits hci ivlen hc fc num_obs seed_i hcv iv
       = Some (st, fw, log, obs)
       ∧ Tango642.sat_run bits hci ivlen hc fc num_obs iv obs = Some inst
       ∧ length log = (keyed_base hc + 5 * (fc + num_obs))%nat
       ∧ length (Tango642.sat_log inst) = (keyed_base hc + 5 * (fc + num_obs))%nat
       ∧ round_robin_after_warm_up hc (keyed_base hc) log
       ∧ round_robin_in_rounds hc (fc + num_obs) log
       ∧ round_robin_after_warm_up hc (keyed_base hc) (Tango642.sat_log inst)
       ∧ round_robin_in_rounds hc (fc + num_obs) (Tango642.sat_log inst)).
Proof.
  intros Hev Hpos Hhc Hhci Hiv. split.
  - destruct (gradilac_calc_run bits hci hc num_obs seed_i lcg_i hcv Hhc Hhci)
      as (st & log & obs & Ec & Hlen & HC & HO & HK).
    destruct (gradilac_sat_run bits hci hc num_obs obs Hev Hpos Hhc ltac:(lia))
      as (inst & Es & Hslen & HSC & Hcs & HSK).
    exists st, log, obs, inst.
    split; [exact Ec|]. split; [exact Es|]. split.
    + eapply calls_from_round_robin; [|rewrite firstn_all; exact HC]. lia.
    + eapply calls_from_round_robin; [|rewrite firstn_all; exact HSC]. lia.
  - destruct (tango_calc_run bits hci ivlen hc fc num_obs seed_i hcv iv
                Hhc Hhci Hiv)
      as (st & fw & log & obs & Ec & Hlen & HC & Hsh & HO & HK & _).
    destruct (tango_sat_run bits hci ivlen hc fc num_obs iv obs Hev Hpos Hhc Hiv
                ltac:(lia)) as (inst & Es & Hslen & HSC & Hssh & Hcs & HSK & _).
    exists st, fw, log, obs, inst.
    split; [exact Ec|]. split; [exact Es|].
    split; [exact Hlen|]. split; [exact Hslen|].
    split; [eapply calls_from_round_robin; [|exact HC]; lia|].
    split; [eapply shapes_round_robin; exact Hsh|].
    split; [eapply calls_from_round_robin; [|exact HSC]; lia|].
    eapply shapes_round_robin; exact Hssh.
Qed.

Lemma round_robin_of_the_runs_witness :
  (∃ st log obs inst,
     Gradilac.calc_run 6 2 2 64 4 5 [13; 4] = Some (st, log, obs)
     ∧ Gradilac.sat_run 6 2 2 64 obs = Some inst
     ∧ round_robin_after_warm_up 2 (length log) log)
  ∧ (∃ st fw log obs inst,
       Tango642.calc_run 6 2 4 2 15 64 4 [13; 4] [15; 9; 4; 6]
       = Some (st, fw, log, obs)
       ∧ Tango642.sat_run 6 2 4 2 15 64 [15; 9; 4; 6] obs = Some inst
       ∧ round_robin_after_warm_up 2 (keyed_base 2) log
       ∧ round_robin_in_rounds 2 (15 + 64) log).
Proof.
  destruct (round_robin_of_the_runs 6 2 4 2 15 64 4 5 [13; 4] [15; 9; 4; 6])
    as [(st & log & obs & inst & H1 & H2 & H3 & _)
        (st' & fw & log' & obs' & inst' & K1 & K2 & _ & _ & K3 & K4 & _)];
    [exists 3%nat; reflexivity | lia | lia | cbn; lia | cbn; lia |].
  split.
  - exists st, log, obs, inst. auto.
  - exists st', fw, log', obs', inst'. auto.
Defined.

(** ** The nonce pass in the two runs *)

Lemma lxor_mod_pow2 a b n :
  Z.lxor (a mod pow2 n) (b mod pow2 n) = Z.lxor a b mod pow2 n.
Proof.
  apply Z.bits_inj'. intros i Hi. unfold pow2. rewrite Z.lxor_spec.
  destruct (Z.lt_ge_cases i (Z.of_nat n)) as [Hlt|Hge].
  - rewrite !Z.mod_pow2_bits_low by lia. rewrite Z.lxor_spec. reflexivity.
  - rewrite !Z.mod_pow2_bits_high by lia. reflexivity.
Qed.

Lemma xor_nonce_rel m bits (s : bv) (c w : Z) :
  word_rel m bits s c →
  ∃ s', xor s (inibits bits w) = Some s'
        ∧ word_rel m bits s' (Z.lxor c (Z.land w (bmask bits))).
Proof.
  intros [Hl Hd].
  destruct (xor_spec m s (inibits bits w)) as (s' & E & Hl' & Hd').
  { rewrite length_inibits. exact Hl. }
  exists s'. split; [exact E|]. split; [congruence|].
  rewrite Hd', Hd, decode_inibits, land_bmask.
  rewrite <- (lxor_mod_pow2 c (w mod pow2 bits)).
  rewrite Z.mod_mod by (pose proof (pow2_pos bits); lia).
  reflexivity.
Qed.

Lemma inject_sim m bits ivlen hc (iv : list Z) ss cs slog clog n :
  Nat.Even bits → (0 < bits)%nat →
  machine_rel m bits ss cs → shown_log_rel m slog clog →
  rel_opt (λ '(ss', slog', p) '(cs', clog', p'),
             machine_rel m bits ss' cs' ∧ shown_log_rel m slog' clog' ∧ p = p')
    (Tango642.sat_inject bits ivlen hc iv (ss, slog, n))
    (Tango642.calc_inject bits ivlen hc iv (cs, clog, n)).
Proof.
  intros Hev Hpos HM HL. unfold Tango642.sat_inject, Tango642.calc_inject.
  apply for_in_sim; [auto|].
  intros i [[ss1 slog1] p] [[cs1 clog1] p'] (HM1 & HL1 & <-).
  assert (Hpre :
    rel_opt (λ '(ss', q) '(cs', q'), machine_rel m bits ss' cs' ∧ q = q')
      (if (Nat.land i 1 =? 1)%nat && (p <? ivlen)%nat
       then w ← iv !! p;
            seed ← xor (m_seed ss1) (inibits bits w);
            w ← iv !! p;
            lcg ← xor (m_lcg ss1) (inibits bits w);
            Some (Machine seed lcg (m_h ss1) (m_x ss1), (p + 1)%nat)
       else Some (ss1, p))
      (if (Nat.land i 1 =? 1)%nat && (p <? ivlen)%nat
       then w ← iv !! p;
            let calc_seed := Z.lxor (m_seed cs1) (Z.land w (bmask bits)) in
            w ← iv !! p;
            let calc_lcg := Z.lxor (m_lcg cs1) (Z.land w (bmask bits)) in
            Some (Machine calc_seed calc_lcg (m_h cs1) (m_x cs1), (p + 1)%nat)
       else Some (cs1, p))).
  { destruct ((Nat.land i 1 =? 1)%nat && (p <? ivlen)%nat);
      [|split; [exact HM1 | reflexivity]].
    destruct (iv !! p) as [w|]; [|exact I]. cbn [mbind option_bind].
    destruct HM1 as (Hs & Hl & Hh & Hx).
    destruct (xor_nonce_rel m bits _ _ w Hs) as (s' & -> & Hs').
    destruct (xor_nonce_rel m bits _ _ w Hl) as (l' & -> & Hl').
    cbn [mbind option_bind rel_opt].
    split; [|reflexivity]. repeat split; try assumption; apply Hs' || apply Hl'. }
  destruct (if (Nat.land i 1 =? 1)%nat && (p <? ivlen)%nat
            then w ← iv !! p; seed ← xor (m_seed ss1) (inibits bits w);
                 w ← iv !! p; lcg ← xor (m_lcg ss1) (inibits bits w);
                 Some (Machine seed lcg (m_h ss1) (m_x ss1), (p + 1)%nat)
            else Some (ss1, p)) as [[ss2 q]|];
    destruct (if (Nat.land i 1 =? 1)%nat && (p <? ivlen)%nat
              then w ← iv !! p;
                   let calc_seed := Z.lxor (m_seed cs1) (Z.land w (bmask bits)) in
                   w ← iv !! p;
                   let calc_lcg := Z.lxor (m_lcg cs1) (Z.land w (bmask bits)) in
                   Some (Machine calc_seed calc_lcg (m_h cs1) (m_x cs1),
                         (p + 1)%nat)
              else Some (cs1, p)) as [[cs2 q']|];
    cbn [rel_opt] in Hpre; try contradiction; cbn [mbind option_bind];
    [|exact I].
  destruct Hpre as [HM2 <-].
  pose proof (step_sim m bits Hev Hpos hc ss2 cs2 slog1 clog1 HM2 HL1) as Hstep.
  destruct (step (sat bits) hc ss2 slog1) as [[[ss3 o] slog3]|],
           (step (calc bits) hc cs2 clog1) as [[[cs3 co] clog3]|];
    cbn [rel_opt mbind option_bind] in *; try contradiction; [|exact I].
  destruct Hstep as (HM3 & _ & HL3).
  split; [apply next_rel; exact HM3|]. split; [exact HL3 | reflexivity].
Qed.

Section PassEntries.

Context {W : Type} `{Inhabited W}.
Variable core : W → W → W → option (W * W * W * W).

(** Call [5 + i] of a log that opens like a run of t642_sat.py takes the
    (seed, lcg) left by call [5 + i - 1], changed by [nonce i]. *)
Lemma pass_entry hc nonce start (log : list (call W)) i :
  (keyed_base hc ≤ length log)%nat → (i < hc)%nat →
  calls_from core hc fused_counter (during 5 hc nonce) start
    (take (keyed_base hc) log) →
  call_core_id (log !!! (5 + i)%nat) = 0%nat
  ∧ call_index (log !!! (5 + i)%nat) = (i mod hc)%nat
  ∧ nonce i (ret_seed (log !!! (4 + i)%nat), ret_lcg (log !!! (4 + i)%nat))
    = Some (arg_seed (log !!! (5 + i)%nat), arg_lcg (log !!! (5 + i)%nat)).
Proof.
  intros Hlen Hi HC.
  assert (Hlt : (5 + i < length (take (keyed_base hc) log))%nat)
    by (rewrite length_take; unfold keyed_base in *; lia).
  destruct (HC (5 + i)%nat Hlt) as (A & B & _ & D).
  rewrite lookup_total_take_lt in A, B, D by (unfold keyed_base; lia).
  split; [exact A|]. split.
  - rewrite B. unfold fused_counter.
    replace (5 + i <? 5)%nat with false by (symmetry; apply Nat.ltb_ge; lia).
    f_equal. lia.
  - unfold during in D.
    replace (5 <=? 5 + i)%nat with true in D by (symmetry; apply Nat.leb_le; lia).
    replace (5 + i <? 5 + hc)%nat with true in D
      by (symmetry; apply Nat.ltb_lt; lia).
    cbn [andb] in D. replace (5 + i - 5)%nat with i in D by lia.
    change (5 + i)%nat with (S (4 + i)) in D at 1. cbn [prev_of] in D.
    rewrite lookup_total_take_lt in D by (unfold keyed_base; lia).
    exact D.
Qed.

End PassEntries.

(** [C7] The nonce pass of t642_sat.py.  Step [i] of the pass is call
    [5 + i] of the run.  Before it, when [i] is odd and fewer than [ivlen]
    words were consumed, nonce word [i / 2] is combined into both the seed
    and the lcg left by the call before, and otherwise they are left as
    they are: [calc_nonce] over the integers (exclusive-or with the masked
    word), [sat_nonce] over bit-vectors ([xor] with the constant of the
    same word).  From states that mirror each other the two passes fail
    together or leave states that mirror each other, with logs that show
    the same calls. *)
Theorem nonce_pass (bits hci ivlen hc fc num_obs : nat) (seed_i : Z)
    (hcv iv : list Z) :
  Nat.Even bits → (0 < bits)%nat → (0 < hc)%nat →
  (hci ≤ length hcv)%nat → (ivlen ≤ length iv)%nat →
  (∃ st fw log obs inst,
     Tango642.calc_run bits hci ivlen hc fc num_obs seed_i hcv iv
     = Some (st, fw, log, obs)
     ∧ Tango642.sat_run bits hci ivlen hc fc num_obs iv obs = Some inst
     ∧ (∀ i, (i < hc)%nat →
          call_core_id (log !!! (5 + i)%nat) = 0%nat
          ∧ call_index (log !!! (5 + i)%nat) = (i mod hc)%nat
          ∧ calc_nonce bits ivlen iv i
              (ret_seed (log !!! (4 + i)%nat), ret_lcg (log !!! (4 + i)%nat))
            = Some (arg_seed (log !!! (5 + i)%nat),
                    arg_lcg (log !!! (5 + i)%nat)))
     ∧ (∀ i, (i < hc)%nat →
          call_core_id (Tango642.sat_log inst !!! (5 + i)%nat) = 0%nat
          ∧ call_index (Tango642.sat_log inst !!! (5 + i)%nat) = (i mod hc)%nat
          ∧ sat_nonce bits ivlen iv i
              (ret_seed (Tango642.sat_log inst !!! (4 + i)%nat),
               ret_lcg (Tango642.sat_log inst !!! (4 + i)%nat))
            = Some (arg_seed (Tango642.sat_log inst !!! (5 + i)%nat),
                    arg_lcg (Tango642.sat_log inst !!! (5 + i)%nat))))
  ∧ (∀ m ss cs slog clog,
       machine_rel m bits ss cs → shown_log_rel m slog clog →
       rel_opt (λ '(ss', slog', p) '(cs', clog', p'),
                  machine_rel m bits ss' cs' ∧ shown_log_rel m slog' clog'
                  ∧ p = p')
         (Tango642.sat_inject bits ivlen hc iv (ss, slog, 0%nat))
         (Tango642.calc_inject bits ivlen hc iv (cs, clog, 0%nat))).
Proof.
  intros Hev Hpos Hhc Hhci Hiv. split.
  - destruct (tango_calc_run bits hci ivlen hc fc num_obs seed_i hcv iv
                Hhc Hhci Hiv)
      as (st & fw & log & obs & Ec & Hlen & HC & _ & HO & _).
    destruct (tango_sat_run bits hci ivlen hc fc num_obs iv obs Hev Hpos Hhc Hiv
                ltac:(lia)) as (inst & Es & Hslen & HSC & _).
    exists st, fw, log, obs, inst.
    split; [exact Ec|]. split; [exact Es|]. split.
    + intros i Hi. eapply pass_entry; [|exact Hi|exact HC]. lia.
    + intros i Hi. eapply pass_entry; [|exact Hi|exact HSC]. lia.
  - intros m ss cs slog clog HM HL. apply inject_sim; assumption.
Qed.

Lemma nonce_pass_witness :
  ∃ st fw log obs inst,
    Tango642.calc_run 6 2 4 16 15 16 4 [3; 14; 3; 13] [15; 9; 4; 6]
    = Some (st, fw, log, obs)
    ∧ Tango642.sat_run 6 2 4 16 15 16 [15; 9; 4; 6] obs = Some inst
    ∧ calc_nonce 6 4 [15; 9; 4; 6] 3
        (ret_seed (log !!! 7%nat), ret_lcg (log !!! 7%nat))
      = Some (arg_seed (log !!! 8%nat), arg_lcg (log !!! 8%nat))
    ∧ sat_nonce 6 4 [15; 9; 4; 6] 3
        (ret_seed (Tango642.sat_log inst !!! 7%nat),
         ret_lcg (Tango642.sat_log inst !!! 7%nat))
      = Some (arg_seed (Tango642.sat_log inst !!! 8%nat),
              arg_lcg (Tango642.sat_log inst !!! 8%nat)).
Proof.
  destruct (nonce_pass 6 2 4 16 15 16 4 [3; 14; 3; 13] [15; 9; 4; 6])
    as [(st & fw & log & obs & inst & H1 & H2 & H3 & H4) _];
    [exists 3%nat; reflexivity | lia | lia | cbn; lia | cbn; lia |].
  exists st, fw, log, obs, inst.
  split; [exact H1|]. split; [exact H2|]. split.
  - apply (H3 3%nat). lia.
  - apply (H4 3%nat). lia.
Defined.

(** The pass on the parameters of the script: the words 15, 9, 4, 6 go in
    before steps 1, 3, 5 and 7, and nothing after. *)
Example injected_script :
  filter (λ i, injected 4 i = true) (seq 0 16) = [1; 3; 5; 7]%nat.
Proof. vm_compute. reflexivity. Qed.

(** * Further properties of the code *)

(** ** The bit-vector operations on unknowns *)

Lemma py_assert_Some c u : py_assert c = Some u → c = true.
Proof. destruct c; [reflexivity | discriminate]. Qed.

Lemma land_cons (p q : bool) x y :
  Z.land (Z.b2z p + 2 * x) (Z.b2z q + 2 * y) = Z.b2z (andb p q) + 2 * Z.land x y.
Proof.
  apply Z.bits_inj'. intros i Hi.
  rewrite Z.land_spec.
  destruct (Z.eq_dec i 0) as [->|Hne].
  - rewrite !b2z_cons_testbit_0. reflexivity.
  - replace i with (Z.succ (i - 1)) by lia.
    rewrite !b2z_cons_testbit_S by lia.
    rewrite Z.land_spec. reflexivity.
Qed.

Lemma decode_and_zip m (a b : bv) :
  length a = length b →
  decode_number m (map (λ ij, BAnd ij.1 ij.2) (zip a b))
  = Z.land (decode_number m a) (decode_number m b).
Proof.
  revert b. induction a as [|x a IH]; intros [|y b] Hlen;
    simpl in Hlen; try discriminate.
  - reflexivity.
  - injection Hlen as Hlen.
    cbn [zip zip_with map decode_number eval fst snd].
    rewrite (IH b Hlen), land_cons. reflexivity.
Qed.

(** An operation guarded by [assert len(a) == len(b)] raises exactly when
    the lengths differ. *)
Lemma add_None (a b : bv) : add a b = None ↔ length a ≠ length b.
Proof.
  unfold add. destruct (length a =? length b)%nat eqn:E; cbn.
  - apply Nat.eqb_eq in E. split; [discriminate | intros; contradiction].
  - apply Nat.eqb_neq in E. split; [intros _; exact E | reflexivity].
Qed.

Lemma xor_None (a b : bv) : xor a b = None ↔ length a ≠ length b.
Proof.
  unfold xor. destruct (length a =? length b)%nat eqn:E; cbn.
  - apply Nat.eqb_eq in E. split; [discriminate | intros; contradiction].
  - apply Nat.eqb_neq in E. split; [intros _; exact E | reflexivity].
Qed.

Lemma add_Some_length (a b r : bv) :
  add a b = Some r → length a = length b ∧ length r = length a.
Proof.
  intros E. destruct (Nat.eq_dec (length a) (length b)) as [Hl|Hl].
  - destruct (add_spec (λ _, false) a b Hl) as (r' & E' & L & _).
    rewrite E in E'. injection E' as ->. auto.
  - apply add_None in Hl. congruence.
Qed.

Lemma xor_Some_length (a b r : bv) :
  xor a b = Some r → length a = length b ∧ length r = length a.
Proof.
  intros E. destruct (Nat.eq_dec (length a) (length b)) as [Hl|Hl].
  - destruct (xor_spec (λ _, false) a b Hl) as (r' & E' & L & _).
    rewrite E in E'. injection E' as ->. auto.
  - apply xor_None in Hl. congruence.
Qed.

Lemma mul_None (a b : bv) : mul a b = None ↔ length a ≠ length b.
Proof.
  split.
  - intros E Hl. destruct (mul_spec (λ _, false) a b Hl) as (r & E' & _).
    congruence.
  - intros Hl. unfold mul.
    destruct (length a =? length b)%nat eqn:E; [|reflexivity].
    apply Nat.eqb_eq in E. contradiction.
Qed.

Lemma mul_Some_length (a b r : bv) :
  mul a b = Some r → length a = length b ∧ length r = length a.
Proof.
  intros E. destruct (Nat.eq_dec (length a) (length b)) as [Hl|Hl].
  - destruct (mul_spec (λ _, false) a b Hl) as (r' & E' & L & _).
    rewrite E in E'. injection E' as ->. auto.
  - apply mul_None in Hl. congruence.
Qed.

(** [X1] Constant vectors: [inibits l ini] has [l] entries, entry [i] is the
    constant bit [i] of [ini] (the least significant bit first), and under
    every model it decodes to [ini mod 2^l]; an initial value that is
    negative or wider than [l] bits is so taken modulo the width. *)
Theorem inibits_decode (m : nat → bool) (l : nat) (ini : Z) :
  length (inibits l ini) = l
  ∧ decode_number m (inibits l ini) = ini mod 2 ^ Z.of_nat l
  ∧ (∀ i, (i < l)%nat →
       inibits l ini !! i = Some (BConst (Z.testbit ini (Z.of_nat i)))).
Proof.
  split; [apply length_inibits|].
  split; [apply decode_inibits|].
  intros i Hi. unfold inibits, range, bv.
  rewrite list_lookup_fmap, lookup_seq_lt by exact Hi. cbn.
  rewrite land_1_testbit, Z.shiftr_spec, Z.add_0_l by lia.
  destruct (Z.testbit ini (Z.of_nat i)); reflexivity.
Qed.

Lemma inibits_decode_witness :
  length (inibits 6 (-3)) = 6%nat
  ∧ decode_number (λ _, true) (inibits 6 (-3)) = (-3) mod 2 ^ Z.of_nat 6
  ∧ inibits 6 (-3) !! 1%nat = Some (BConst (Z.testbit (-3) (Z.of_nat 1))).
Proof.
  destruct (inibits_decode (λ _, true) 6 (-3)) as (H1 & H2 & H3).
  split; [exact H1|]. split; [exact H2|]. apply H3. lia.
Defined.

(** [X2] [xor] on arbitrary symbolic vectors: it raises (the assertion on the
    lengths) exactly when the operands differ in length; otherwise the
    result has the operands' length, entry [i] is the Xor of the entries
    [i], and under every model it decodes to the bitwise xor of the decoded
    operands. *)
Theorem xor_correct (a b : bv) :
  (xor a b = None ↔ length a ≠ length b)
  ∧ ∀ r, xor a b = Some r →
      length r = length a
      ∧ (∀ i x y, a !! i = Some x → b !! i = Some y → r !! i = Some (BXor x y))
      ∧ ∀ m, decode_number m r = Z.lxor (decode_number m a) (decode_number m b).
Proof.
  split; [apply xor_None|].
  intros r E. destruct (xor_Some_length a b r E) as [Hl Hr].
  split; [exact Hr|]. split.
  - intros i x y Hx Hy. unfold xor in E.
    rewrite py_assert_true in E by (apply Nat.eqb_eq; exact Hl).
    injection E as <-. unfold bv in *.
    rewrite list_lookup_fmap, (proj2 (lookup_zip_Some a b i x y)) by auto.
    reflexivity.
  - intros m. destruct (xor_spec m a b Hl) as (r' & E' & _ & D).
    rewrite E in E'. injection E' as <-. exact D.
Qed.

(** [X3] [and_] on arbitrary symbolic vectors: it raises exactly when the
    operands differ in length; otherwise the result has the operands'
    length and under every model it decodes to the bitwise and of the
    decoded operands. *)
Theorem and_correct (a b : bv) :
  (and_ a b = None ↔ length a ≠ length b)
  ∧ ∀ r, and_ a b = Some r →
      length r = length a
      ∧ ∀ m, decode_number m r = Z.land (decode_number m a) (decode_number m b).
Proof.
  unfold and_. destruct (length a =? length b)%nat eqn:E; cbn.
  - apply Nat.eqb_eq in E. split.
    + split; [discriminate | intros; contradiction].
    + intros r [= <-]. split.
      * rewrite length_map, length_zip, <- E. apply Nat.min_id.
      * intros m. apply decode_and_zip. exact E.
  - apply Nat.eqb_neq in E. split.
    + split; [intros _; exact E | reflexivity].
    + intros r [=].
Qed.

(** [X4] [add] on arbitrary symbolic vectors, unknowns included: it raises
    exactly when the operands differ in length; otherwise the result has the
    operands' length and under every model it decodes to the sum of the
    decoded operands modulo [2^length], the last carry being dropped. *)
Theorem add_correct (a b : bv) :
  (add a b = None ↔ length a ≠ length b)
  ∧ ∀ r, add a b = Some r →
      length r = length a
      ∧ ∀ m, decode_number m r
             = (decode_number m a + decode_number m b) mod 2 ^ Z.of_nat (length a).
Proof.
  split; [apply add_None|].
  intros r E. destruct (add_Some_length a b r E) as [Hl Hr].
  split; [exact Hr|].
  intros m. destruct (add_spec m a b Hl) as (r' & E' & _ & D).
  rewrite E in E'. injection E' as <-. exact D.
Qed.

(** [X5] [mul] on arbitrary symbolic vectors, unknowns included: it raises
    exactly when the operands differ in length (two empty vectors give the
    empty vector); otherwise the result has the operands' length and under
    every model it decodes to the product of the decoded operands modulo
    [2^length]. *)
Theorem mul_correct (a b : bv) :
  (mul a b = None ↔ length a ≠ length b)
  ∧ ∀ r, mul a b = Some r →
      length r = length a
      ∧ ∀ m, decode_number m r
             = (decode_number m a * decode_number m b) mod 2 ^ Z.of_nat (length a).
Proof.
  split; [apply mul_None|].
  intros r E. destruct (mul_Some_length a b r E) as [Hl Hr].
  split; [exact Hr|].
  intros m. destruct (mul_spec m a b Hl) as (r' & E' & _ & D).
  rewrite E in E'. injection E' as <-. exact D.
Qed.

Lemma xor_correct_witness :
  ∃ r, xor [BVar 0; BConst true] [BVar 1; BVar 0] = Some r
       ∧ length r = 2%nat
       ∧ r !! 0%nat = Some (BXor (BVar 0) (BVar 1))
       ∧ decode_number (λ n, Nat.even n) r
         = Z.lxor (decode_number (λ n, Nat.even n) [BVar 0; BConst true])
                  (decode_number (λ n, Nat.even n) [BVar 1; BVar 0]).
Proof.
  eexists. split; [reflexivity|].
  destruct (xor_correct [BVar 0; BConst true] [BVar 1; BVar 0]) as [_ H].
  destruct (H _ eq_refl) as (H1 & H2 & H3).
  split; [exact H1|]. split; [apply (H2 0%nat); reflexivity|]. apply H3.
Defined.

Lemma and_correct_witness :
  ∃ r, and_ [BVar 0; BConst true] [BVar 1; BVar 0] = Some r
       ∧ length r = 2%nat
       ∧ decode_number (λ n, Nat.even n) r
         = Z.land (decode_number (λ n, Nat.even n) [BVar 0; BConst true])
                  (decode_number (λ n, Nat.even n) [BVar 1; BVar 0]).
Proof.
  eexists. split; [reflexivity|].
  destruct (and_correct [BVar 0; BConst true] [BVar 1; BVar 0]) as [_ H].
  destruct (H _ eq_refl) as (H1 & H3).
  split; [exact H1|]. apply H3.
Defined.

Lemma add_correct_witness :
  ∃ r, add [BVar 0; BConst true] [BVar 1; BVar 0] = Some r
       ∧ length r = 2%nat
       ∧ decode_number (λ n, Nat.even n) r
         = (decode_number (λ n, Nat.even n) [BVar 0; BConst true]
            + decode_number (λ n, Nat.even n) [BVar 1; BVar 0]) mod 2 ^ Z.of_nat 2.
Proof.
  eexists. split; [reflexivity|].
  destruct (add_correct [BVar 0; BConst true] [BVar 1; BVar 0]) as [_ H].
  destruct (H _ eq_refl) as (H1 & H3).
  split; [exact H1|]. apply H3.
Defined.

Lemma mul_correct_witness :
  ∃ r, mul [BVar 0; BConst true] [BVar 1; BVar 0] = Some r
       ∧ length r = 2%nat
       ∧ decode_number (λ n, Nat.even n) r
         = (decode_number (λ n, Nat.even n) [BVar 0; BConst true]
            * decode_number (λ n, Nat.even n) [BVar 1; BVar 0]) mod 2 ^ Z.of_nat 2.
Proof.
  eexists. split; [reflexivity|].
  destruct (mul_correct [BVar 0; BConst true] [BVar 1; BVar 0]) as [_ H].
  destruct (H _ eq_refl) as (H1 & H3).
  split; [exact H1|]. apply H3.
Defined.

(** ** One step, symbolic and concrete *)

(** ** The symbolic step: when it returns *)

Lemma length_rotated bits (s : bv) :
  length (drop (bits2 bits) s ++ take (bits2 bits) s) = length s.
Proof. rewrite length_app, length_drop, length_take. lia. Qed.

Lemma length_BITRA bits : length (BITRA bits) = bits.
Proof. apply length_inibits. Qed.

Lemma length_BITR5 bits : length (BITR5 bits) = bits.
Proof. apply length_inibits. Qed.

Lemma sat_step_inv bits (seed lcg h seed' lcg' h' out : bv) :
  prvhash_core_sat bits seed lcg h = Some (seed', lcg', h', out) →
  ((0 < bits)%nat ∧ length seed = bits ∧ length lcg = bits ∧ length h = bits)
  ∧ length seed' = bits ∧ length lcg' = bits ∧ length h' = bits
  ∧ length out = bits.
Proof.
  unfold prvhash_core_sat. intros E.
  destruct (mul seed ([BConst true] ++ drop_last 1 lcg)) as [s1|] eqn:E1;
    [|discriminate].
  cbn [mbind option_bind] in E.
  destruct (add (drop (bits2 bits) s1 ++ take (bits2 bits) s1) (BITRA bits))
    as [t1|] eqn:E2; [|discriminate].
  cbn [mbind option_bind] in E.
  destruct (add h t1) as [h1|] eqn:E3; [|discriminate].
  cbn [mbind option_bind] in E.
  destruct (add s1 (BITR5 bits)) as [t2|] eqn:E4; [|discriminate].
  cbn [mbind option_bind] in E.
  destruct (add lcg t2) as [l1|] eqn:E5; [|discriminate].
  cbn [mbind option_bind] in E.
  destruct (xor s1 h1) as [s2|] eqn:E6; [|discriminate].
  cbn [mbind option_bind] in E.
  destruct (xor l1 (drop (bits2 bits) s1 ++ take (bits2 bits) s1))
    as [o1|] eqn:E7; [|discriminate].
  cbn [mbind option_bind] in E.
  injection E as <- <- <- <-.
  apply mul_Some_length in E1 as [A1 B1].
  apply add_Some_length in E2 as [A2 B2].
  apply add_Some_length in E3 as [A3 B3].
  apply add_Some_length in E4 as [A4 B4].
  apply add_Some_length in E5 as [A5 B5].
  apply xor_Some_length in E6 as [A6 B6].
  apply xor_Some_length in E7 as [A7 B7].
  rewrite length_rotated in *. rewrite length_BITRA in *.
  rewrite length_BITR5 in *.
  rewrite length_app in A1. unfold drop_last in A1.
  rewrite length_take in A1. cbn [length] in A1.
  lia.
Qed.

Lemma sat_step_returns_any bits (seed lcg h : bv) :
  (0 < bits)%nat → length seed = bits → length lcg = bits → length h = bits →
  is_Some (prvhash_core_sat bits seed lcg h).
Proof.
  intros Hb Hs Hl Hh. unfold prvhash_core_sat.
  set (m := λ _ : nat, false).
  destruct (mul_spec m seed ([BConst true] ++ drop_last 1 lcg))
    as (s1 & E1 & L1 & _).
  { rewrite length_app. unfold drop_last. rewrite length_take.
    cbn [length]. lia. }
  rewrite E1. cbn [mbind option_bind].
  destruct (add_spec m (drop (bits2 bits) s1 ++ take (bits2 bits) s1)
              (BITRA bits)) as (t1 & E2 & L2 & _).
  { rewrite length_rotated, length_BITRA. lia. }
  rewrite E2. cbn [mbind option_bind]. rewrite length_rotated in L2.
  destruct (add_spec m h t1) as (h1 & E3 & L3 & _); [lia|].
  rewrite E3. cbn [mbind option_bind].
  destruct (add_spec m s1 (BITR5 bits)) as (t2 & E4 & L4 & _).
  { rewrite length_BITR5. lia. }
  rewrite E4. cbn [mbind option_bind].
  destruct (add_spec m lcg t2) as (l1 & E5 & L5 & _); [lia|].
  rewrite E5. cbn [mbind option_bind].
  destruct (xor_spec m s1 h1) as (s2 & E6 & L6 & _); [lia|].
  rewrite E6. cbn [mbind option_bind].
  destruct (xor_spec m l1 (drop (bits2 bits) s1 ++ take (bits2 bits) s1))
    as (o1 & E7 & L7 & _).
  { rewrite length_rotated. lia. }
  rewrite E7. cbn [mbind option_bind]. eexists. reflexivity.
Qed.

(** [X6] The symbolic step [prvhash_core_sat] returns exactly when the width
    is positive and the three operands have [bits] entries each (otherwise
    an assertion of [mul], [add] or [xor] raises); the four vectors it
    returns have [bits] entries each. *)
Theorem sat_step_returns (bits : nat) (seed lcg h : bv) :
  (is_Some (prvhash_core_sat bits seed lcg h)
   ↔ (0 < bits)%nat ∧ length seed = bits ∧ length lcg = bits
     ∧ length h = bits)
  ∧ ∀ r, prvhash_core_sat bits seed lcg h = Some r →
      length (res_seed r) = bits ∧ length (res_lcg r) = bits
      ∧ length (res_h r) = bits ∧ length (res_out r) = bits.
Proof.
  split.
  - split.
    + intros [[[[s' l'] h'] o] E]. apply sat_step_inv in E. tauto.
    + intros (Hb & Hs & Hl & Hh). apply sat_step_returns_any; assumption.
  - intros [[[s' l'] h'] o] E. apply sat_step_inv in E.
    cbn [res_seed res_lcg res_h res_out fst snd]. tauto.
Qed.

Lemma sat_step_returns_witness :
  is_Some (prvhash_core_sat 3 [BVar 0; BVar 1; BVar 2]
             [BVar 3; BVar 4; BVar 5] (inibits 3 0))
  ∧ prvhash_core_sat 3 [BVar 0; BVar 1] [BVar 3; BVar 4; BVar 5] (inibits 3 0)
    = None
  ∧ prvhash_core_sat 0 [] [] [] = None.
Proof.
  split; [|split].
  - apply (proj1 (sat_step_returns 3 [BVar 0; BVar 1; BVar 2]
                    [BVar 3; BVar 4; BVar 5] (inibits 3 0))).
    cbn. repeat split; lia.
  - reflexivity.
  - reflexivity.
Defined.

(** [X7] The symbolic step is sound on unknowns: for an even positive width
    and operands of [bits] entries, whatever formulas they hold, the step
    returns, and under every model its four results decode to the results of
    the concrete step [prvhash_core_calc] on the decoded operands. *)
Theorem sat_step_sound (m : nat → bool) (bits : nat) (seed lcg h : bv) :
  Nat.Even bits → (0 < bits)%nat →
  length seed = bits → length lcg = bits → length h = bits →
  ∃ r, prvhash_core_sat bits seed lcg h = Some r
       ∧ decode4 m r
         = prvhash_core_calc bits (decode_number m seed) (decode_number m lcg)
             (decode_number m h).
Proof.
  intros Hev Hb Hs Hl Hh.
  destruct (sat_step_spec m bits Hev Hb seed lcg h Hs Hl Hh)
    as (s' & l' & h' & o & E & _ & _ & _ & _ & D).
  exists (s', l', h', o). split; [exact E | exact D].
Qed.

Lemma sat_step_sound_witness :
  ∃ r, prvhash_core_sat 2 [BVar 0; BVar 1] [BVar 2; BVar 3] [BVar 4; BConst true]
       = Some r
       ∧ decode4 Nat.even r
         = prvhash_core_calc 2 (decode_number Nat.even [BVar 0; BVar 1])
             (decode_number Nat.even [BVar 2; BVar 3])
             (decode_number Nat.even [BVar 4; BConst true]).
Proof.
  apply (sat_step_sound Nat.even 2 [BVar 0; BVar 1] [BVar 2; BVar 3]
           [BVar 4; BConst true]);
    [exists 1%nat; reflexivity | lia | reflexivity | reflexivity | reflexivity].
Defined.

(** ** The concrete step as a map on words *)

Lemma lxor_range n a b :
  0 ≤ a < pow2 n → 0 ≤ b < pow2 n → 0 ≤ Z.lxor a b < pow2 n.
Proof.
  intros Ha Hb.
  rewrite <- (Z.mod_small a (pow2 n)), <- (Z.mod_small b (pow2 n)) by lia.
  rewrite lxor_mod_pow2. apply Z.mod_pos_bound. apply pow2_pos.
Qed.

(** [X8] The concrete step never leaves the word range: for all integer
    inputs, of any sign and size, and for every width, the four results of
    [prvhash_core_calc] lie in [0, 2^bits). *)
Theorem core_calc_range (bits : nat) (seed lcg h : Z) :
  0 ≤ res_seed (prvhash_core_calc bits seed lcg h) < 2 ^ Z.of_nat bits
  ∧ 0 ≤ res_lcg (prvhash_core_calc bits seed lcg h) < 2 ^ Z.of_nat bits
  ∧ 0 ≤ res_h (prvhash_core_calc bits seed lcg h) < 2 ^ Z.of_nat bits
  ∧ 0 ≤ res_out (prvhash_core_calc bits seed lcg h) < 2 ^ Z.of_nat bits.
Proof.
  unfold prvhash_core_calc. cbn [res_seed res_lcg res_h res_out fst snd].
  fold (pow2 bits). rewrite !land_bmask.
  pose proof (pow2_pos bits) as Hp.
  split; [|split; [|split]];
    repeat first [apply lxor_range | apply Z.mod_pos_bound; lia].
Qed.

(** [X9] The concrete step reads its inputs modulo [2^bits]: reducing the
    three inputs modulo [2^bits] changes none of its results, for every
    width, even or odd. *)
Theorem core_calc_mod_width (bits : nat) (seed lcg h : Z) :
  prvhash_core_calc bits (seed mod 2 ^ Z.of_nat bits) (lcg mod 2 ^ Z.of_nat bits)
    (h mod 2 ^ Z.of_nat bits)
  = prvhash_core_calc bits seed lcg h.
Proof.
  unfold prvhash_core_calc. fold (pow2 bits). rewrite !land_bmask.
  pose proof (pow2_pos bits) as Hp.
  assert (E1 : (seed mod pow2 bits * (lcg mod pow2 bits * 2 + 1)) mod pow2 bits
               = (seed * (lcg * 2 + 1)) mod pow2 bits).
  { pose proof (Z.div_mod seed (pow2 bits) ltac:(lia)) as HS.
    pose proof (Z.div_mod lcg (pow2 bits) ltac:(lia)) as HL.
    set (s := seed mod pow2 bits) in *. set (l := lcg mod pow2 bits) in *.
    set (qs := seed / pow2 bits) in *. set (ql := lcg / pow2 bits) in *.
    rewrite HS, HL.
    rewrite <- (Z.mod_add (s * (l * 2 + 1))
                  (qs * (pow2 bits * ql * 2 + l * 2 + 1) + s * ql * 2)
                  (pow2 bits)) by lia.
    f_equal. ring. }
  rewrite E1.
  rewrite (Z.add_mod_idemp_l h), (Z.add_mod_idemp_l lcg) by lia.
  reflexivity.
Qed.

Lemma lxor_cancel_r a b c : Z.lxor a c = Z.lxor b c → a = b.
Proof.
  intros E. apply (f_equal (λ z, Z.lxor z c)) in E.
  rewrite !Z.lxor_assoc, Z.lxor_nilpotent, !Z.lxor_0_r in E. exact E.
Qed.

Lemma add_mod_cancel a b c P :
  0 < P → 0 ≤ a < P → 0 ≤ b < P → (a + c) mod P = (b + c) mod P → a = b.
Proof.
  intros HP Ha Hb E.
  assert (E' : (a + c - c) mod P = (b + c - c) mod P).
  { rewrite <- (Zminus_mod_idemp_l (a + c)), <- (Zminus_mod_idemp_l (b + c)), E.
    reflexivity. }
  replace (a + c - c) with a in E' by ring.
  replace (b + c - c) with b in E' by ring.
  rewrite !Z.mod_small in E' by lia. exact E'.
Qed.

Lemma odd_coprime_pow2 n l : Z.gcd (pow2 n) (l * 2 + 1) = 1.
Proof.
  apply Z.Symmetric_coprime. unfold pow2.
  apply Z.coprime_pow_r; [lia|].
  apply Z.coprime_Bezout. exists 1, (- l). ring.
Qed.

Lemma mul_odd_mod_cancel n a b l :
  0 ≤ a < pow2 n → 0 ≤ b < pow2 n →
  (a * (l * 2 + 1)) mod pow2 n = (b * (l * 2 + 1)) mod pow2 n → a = b.
Proof.
  intros Ha Hb E. pose proof (pow2_pos n) as Hp.
  assert (D : (pow2 n | (l * 2 + 1) * (a - b))).
  { apply Z.mod_divide; [lia|].
    replace ((l * 2 + 1) * (a - b)) with (a * (l * 2 + 1) - b * (l * 2 + 1))
      by ring.
    rewrite Zminus_mod, E, Z.sub_diag. apply Z.mod_0_l. lia. }
  apply Z.gauss in D; [|apply odd_coprime_pow2].
  destruct D as [q Hq].
  assert (q = 0) by nia. subst q. lia.
Qed.

(** [X10] The concrete step is injective on words: two states
    (seed, lcg, h) of [bits]-bit words that [prvhash_core_calc] sends to the
    same new (seed, lcg, h) are equal, so no two states merge in a step. *)
Theorem core_calc_injective (bits : nat) (seed1 lcg1 h1 seed2 lcg2 h2 : Z) :
  0 ≤ seed1 < 2 ^ Z.of_nat bits → 0 ≤ lcg1 < 2 ^ Z.of_nat bits →
  0 ≤ h1 < 2 ^ Z.of_nat bits →
  0 ≤ seed2 < 2 ^ Z.of_nat bits → 0 ≤ lcg2 < 2 ^ Z.of_nat bits →
  0 ≤ h2 < 2 ^ Z.of_nat bits →
  res_seed (prvhash_core_calc bits seed1 lcg1 h1)
  = res_seed (prvhash_core_calc bits seed2 lcg2 h2) →
  res_lcg (prvhash_core_calc bits seed1 lcg1 h1)
  = res_lcg (prvhash_core_calc bits seed2 lcg2 h2) →
  res_h (prvhash_core_calc bits seed1 lcg1 h1)
  = res_h (prvhash_core_calc bits seed2 lcg2 h2) →
  seed1 = seed2 ∧ lcg1 = lcg2 ∧ h1 = h2.
Proof.
  fold (pow2 bits). intros Hs1 Hl1 Hh1 Hs2 Hl2 Hh2.
  unfold prvhash_core_calc. cbn [res_seed res_lcg res_h fst snd].
  rewrite !land_bmask. pose proof (pow2_pos bits) as Hp.
  intros Es El Eh.
  rewrite Eh in Es. apply lxor_cancel_r in Es.
  rewrite Es in Eh, El.
  rewrite !(Z.add_comm h1), !(Z.add_comm h2) in Eh.
  rewrite !(Z.add_comm lcg1), !(Z.add_comm lcg2) in El.
  rewrite !(Z.add_comm _ h1), !(Z.add_comm _ h2) in Eh.
  rewrite !(Z.add_comm _ lcg1), !(Z.add_comm _ lcg2) in El.
  apply add_mod_cancel in Eh; [|lia..].
  apply add_mod_cancel in El; [|lia..].
  subst lcg2 h2.
  apply mul_odd_mod_cancel in Es; [|lia..].
  auto.
Qed.

Lemma core_calc_injective_witness :
  (4 = 4 ∧ 5 = 5 ∧ 13 = 13).
Proof.
  apply (core_calc_injective 6 4 5 13 4 5 13);
    first [reflexivity | cbn; lia].
Defined.

(** ** The hash arrays and the constraints *)

(** ** The loops that fill the hash arrays *)

Lemma for_in_app {A S : Type} (l1 l2 : list A) (body : A → S → option S) s :
  for_in (l1 ++ l2) body s = for_in l1 body s ≫= for_in l2 body.
Proof.
  revert s. induction l1 as [|x l1 IH]; intros s; cbn [app for_in].
  - reflexivity.
  - destruct (body x s) as [s'|]; cbn [mbind option_bind]; [apply IH|reflexivity].
Qed.

Lemma range_S n : range (S n) = range n ++ [n].
Proof. unfold range. rewrite seq_S. reflexivity. Qed.

Lemma fill_calc_h bits hci (hcv : list Z) hc :
  for_in (range hc)
    (λ i calc_h,
       if (i <? hci)%nat
       then v ← hcv !! i; Some (calc_h ++ [Z.land v (bmask bits)])
       else Some (calc_h ++ [0]))
    []
  = if (Nat.min hci hc <=? length hcv)%nat
    then Some (map (λ v, Z.land v (bmask bits)) (take (Nat.min hci hc) hcv)
               ++ replicate (hc - hci) 0)
    else None.
Proof.
  induction hc as [|n IH].
  - cbn. rewrite Nat.min_0_r. cbn. reflexivity.
  - rewrite range_S, for_in_app, IH. clear IH.
    destruct (Nat.min hci n <=? length hcv)%nat eqn:E1.
    + apply Nat.leb_le in E1. cbn [mbind option_bind for_in].
      destruct (n <? hci)%nat eqn:E2.
      * apply Nat.ltb_lt in E2.
        replace (Nat.min hci n) with n in * by lia.
        replace (Nat.min hci (S n)) with (S n) by lia.
        replace (n - hci)%nat with 0%nat by lia.
        replace (S n - hci)%nat with 0%nat by lia.
        destruct (hcv !! n) as [v|] eqn:E3.
        -- apply lookup_lt_Some in E3 as E4.
           destruct (S n <=? length hcv)%nat eqn:E5;
             [|apply Nat.leb_gt in E5; lia].
           cbn [mbind option_bind replicate].
           rewrite (take_S_r hcv n v E3), map_app, !app_nil_r. reflexivity.
        -- apply lookup_ge_None in E3.
           destruct (S n <=? length hcv)%nat eqn:E5;
             [apply Nat.leb_le in E5; lia|].
           reflexivity.
      * apply Nat.ltb_ge in E2.
        replace (Nat.min hci (S n)) with (Nat.min hci n) by lia.
        destruct (Nat.min hci n <=? length hcv)%nat eqn:E5;
          [|apply Nat.leb_gt in E5; lia].
        replace (S n - hci)%nat with (S (n - hci)) by lia.
        rewrite replicate_S_end, app_assoc. reflexivity.
    + apply Nat.leb_gt in E1. cbn [mbind option_bind].
      destruct (Nat.min hci (S n) <=? length hcv)%nat eqn:E5;
        [apply Nat.leb_le in E5; lia|].
      reflexivity.
Qed.

(** [X11] The loop that fills the concrete hash array [calc_h]: it raises
    exactly when the key vector [hcv] has fewer than [min hci hc] words;
    otherwise the array is the first [min hci hc] key words masked to the
    width, followed by [hc - hci] zeros. Key words from index [hc] on are
    never read, and both scripts fill the array alike. *)
Theorem init_calc_h_closed (bits hci hc : nat) (hcv : list Z) :
  Gradilac.init_calc_h bits hci hc hcv
  = (if (Nat.min hci hc <=? length hcv)%nat
     then Some (map (λ v, Z.land v (bmask bits)) (take (Nat.min hci hc) hcv)
                ++ replicate (hc - hci) 0)
     else None)
  ∧ Tango642.init_calc_h bits hci hc hcv = Gradilac.init_calc_h bits hci hc hcv.
Proof.
  split; [apply fill_calc_h | reflexivity].
Qed.

(** The unknown words [init_h] allocates from variable [fresh] on. *)
Lemma fill_h bits hci fresh hc :
  for_in (range hc)
    (λ i '(start_h, h, fresh),
       if (i <? hci)%nat
       then let '(v, fresh) := new_vars bits fresh in
            let start_h := start_h ++ [v] in
            w ← start_h !! i;
            Some (start_h, h ++ [w], fresh)
       else Some (start_h, h ++ [inibits bits 0], fresh))
    ([], [], fresh)
  = Some (key_words bits fresh (Nat.min hci hc),
          key_words bits fresh (Nat.min hci hc)
          ++ replicate (hc - hci) (inibits bits 0),
          (fresh + Nat.min hci hc * bits)%nat).
Proof.
  induction hc as [|n IH].
  - cbn. rewrite Nat.min_0_r. cbn. rewrite Nat.add_0_r. reflexivity.
  - rewrite range_S, for_in_app, IH. clear IH.
    cbn [mbind option_bind for_in].
    destruct (n <? hci)%nat eqn:E2.
    + apply Nat.ltb_lt in E2.
      replace (Nat.min hci n) with n in * by lia.
      replace (Nat.min hci (S n)) with (S n) by lia.
      replace (n - hci)%nat with 0%nat by lia.
      replace (S n - hci)%nat with 0%nat by lia.
      cbn [new_vars replicate]. rewrite !app_nil_r.
      assert (Hk : key_words bits fresh (S n)
                   = key_words bits fresh n
                     ++ [map BVar (seq (fresh + n * bits) bits)]).
      { unfold key_words. rewrite seq_S, map_app. reflexivity. }
      rewrite Hk. unfold bv in *.
      rewrite (list_lookup_middle (key_words bits fresh n) [] _ n)
        by (unfold key_words; rewrite length_map, length_seq; reflexivity).
      cbn [mbind option_bind].
      replace (fresh + S n * bits)%nat with (fresh + n * bits + bits)%nat by lia.
      reflexivity.
    + apply Nat.ltb_ge in E2.
      replace (Nat.min hci (S n)) with (Nat.min hci n) by lia.
      replace (S n - hci)%nat with (S (n - hci)) by lia.
      rewrite replicate_S_end, app_assoc. reflexivity.
Qed.

(** [X12] The loop that fills the symbolic hash array never raises: it
    allocates [min hci hc] unknown words of [bits] consecutive variables
    each, from the first free variable on, as [start_h]; the array [h] is
    these words followed by [hc - hci] constant zero vectors, and
    [min hci hc * bits] variables are used. Both scripts fill it alike. *)
Theorem init_h_closed (bits hci hc fresh : nat) :
  Gradilac.init_h bits hci hc fresh
  = Some (key_words bits fresh (Nat.min hci hc),
          key_words bits fresh (Nat.min hci hc)
          ++ replicate (hc - hci) (inibits bits 0),
          (fresh + Nat.min hci hc * bits)%nat)
  ∧ Tango642.init_h bits hci hc fresh = Gradilac.init_h bits hci hc fresh.
Proof.
  split; [apply fill_h | reflexivity].
Qed.

(** ** An empty hash array *)

(** [X13] An empty hash array: with [hc = 0] the concrete and the symbolic
    run of both scripts raise (the first call indexes the array at
    [x % hc]), whatever the other parameters are. *)
Theorem empty_hash_array_raises (bits hci ivlen fc num_obs : nat)
    (seed_i lcg_i : Z) (hcv iv obs : list Z) :
  Gradilac.calc_run bits hci 0 num_obs seed_i lcg_i hcv = None
  ∧ Gradilac.sat_run bits hci 0 num_obs obs = None
  ∧ Tango642.calc_run bits hci ivlen 0 fc num_obs seed_i hcv iv = None
  ∧ Tango642.sat_run bits hci ivlen 0 fc num_obs iv obs = None.
Proof.
  repeat split; reflexivity.
Qed.

(** ** The constraints of an observation *)

Lemma satisfies_app m cs1 cs2 :
  satisfies m (cs1 ++ cs2) ↔ satisfies m cs1 ∧ satisfies m cs2.
Proof. unfold satisfies. apply Forall_app. Qed.

Lemma mod_pow2_S y n :
  y mod pow2 (S n) = Z.b2z (Z.testbit y 0) + 2 * ((y / 2) mod pow2 n).
Proof.
  rewrite pow2_S, Z.rem_mul_r by (pose proof (pow2_pos n); lia).
  rewrite <- Z.bit0_mod. reflexivity.
Qed.

Lemma satisfies_bits m (out : bv) o k :
  Forall (λ c : bitf * bool, eval m c.1 = c.2)
    (map (λ ib : nat * bitf, (ib.2, Z.testbit o (Z.of_nat ib.1)))
         (zip (seq k (length out)) out))
  ↔ decode_number m out = (o / pow2 k) mod pow2 (length out).
Proof.
  revert k. induction out as [|b out IH]; intros k.
  - cbn. unfold pow2 at 2. cbn. rewrite Z.mod_1_r. split; [reflexivity|constructor].
  - cbn [length seq zip zip_with map decode_number].
    rewrite Forall_cons, IH. cbn [fst snd].
    rewrite mod_pow2_S.
    assert (E1 : Z.testbit (o / pow2 k) 0 = Z.testbit o (Z.of_nat k)).
    { unfold pow2. rewrite <- Z.shiftr_div_pow2, Z.shiftr_spec by lia.
      f_equal. }
    assert (E2 : o / pow2 k / 2 = o / pow2 (S k)).
    { rewrite pow2_S, (Z.mul_comm 2), Z.div_div
        by (pose proof (pow2_pos k); lia).
      reflexivity. }
    rewrite E1, E2.
    destruct (eval m b), (Z.testbit o (Z.of_nat k)); cbn [Z.b2z];
      (split; [intros [? ?] | intros ?; split]); try congruence; lia.
Qed.

Lemma satisfies_bound m (out : bv) o :
  satisfies m (bound out o) ↔ decode_number m out = o mod pow2 (length out).
Proof.
  unfold satisfies, bound. rewrite satisfies_bits.
  unfold pow2 at 1. cbn. rewrite Z.div_1_r. reflexivity.
Qed.

(** [X14] Binding an output to an observation (the [make_equal] loop): it
    raises when observation [j] does not exist and the output has a bit to
    bind, and binds nothing for an empty output; when the observation
    exists it adds one constraint per output bit, and a model satisfies the
    new constraints exactly when it satisfies the old ones and decodes the
    output to the observation modulo [2^length]. *)
Theorem bind_output_binds (out : bv) (obs : list Z) (j : nat)
    (cs : list (bitf * bool)) :
  (obs !! j = None → out ≠ [] → bind_output out obs j cs = None)
  ∧ bind_output [] obs j cs = Some cs
  ∧ ∀ o, obs !! j = Some o →
      ∃ cs', bind_output out obs j cs = Some cs'
             ∧ length cs' = (length cs + length out)%nat
             ∧ ∀ m, satisfies m cs'
                    ↔ satisfies m cs
                      ∧ decode_number m out = o mod 2 ^ Z.of_nat (length out).
Proof.
  split; [|split].
  - intros Hn Hout. destruct out as [|b out]; [contradiction|].
    unfold bind_output. cbn [length seq zip zip_with for_in].
    rewrite Hn. reflexivity.
  - reflexivity.
  - intros o Ho. exists (cs ++ bound out o).
    apply lookup_lt_Some in Ho as Hj.
    split; [|split].
    + rewrite bind_output_spec by exact Hj.
      rewrite (list_lookup_total_correct _ _ _ Ho). reflexivity.
    + rewrite length_app, length_bound. reflexivity.
    + intros m. rewrite satisfies_app, satisfies_bound. reflexivity.
Qed.

Lemma bind_output_binds_witness :
  ∃ cs', bind_output [BVar 0; BVar 1] [5; 2] 1 [] = Some cs'
         ∧ length cs' = (length (@nil (bitf * bool)) + 2)%nat
         ∧ ∀ m, satisfies m cs'
                ↔ satisfies m []
                  ∧ decode_number m [BVar 0; BVar 1] = 2 mod 2 ^ Z.of_nat 2.
Proof.
  apply (proj2 (proj2 (bind_output_binds [BVar 0; BVar 1] [5; 2] 1 []))).
  reflexivity.
Defined.

(** ** The solutions of the instance of gradilac_sat.py *)

(** Two loops that keep a relation, when both return. *)
Lemma for_in_seq_related {S1 S2 : Type} (R : nat → S1 → S2 → Prop)
    (body1 : nat → S1 → option S1) (body2 : nat → S2 → option S2)
    (n a : nat) s1 s2 r1 r2 :
  R a s1 s2 →
  (∀ i s1 s2 r1 r2, (a ≤ i < a + n)%nat → R i s1 s2 →
     body1 i s1 = Some r1 → body2 i s2 = Some r2 → R (S i) r1 r2) →
  for_in (seq a n) body1 s1 = Some r1 →
  for_in (seq a n) body2 s2 = Some r2 →
  R (a + n)%nat r1 r2.
Proof.
  revert a s1 s2. induction n as [|n IH]; intros a s1 s2 H0 Hstep E1 E2.
  - cbn in E1, E2. injection E1 as <-. injection E2 as <-.
    rewrite Nat.add_0_r. exact H0.
  - cbn [seq for_in] in E1, E2.
    destruct (body1 a s1) as [t1|] eqn:B1; [|discriminate].
    destruct (body2 a s2) as [t2|] eqn:B2; [|discriminate].
    cbn [mbind option_bind] in E1, E2.
    replace (a + S n)%nat with (S a + n)%nat by lia.
    apply (IH (S a) t1 t2); [|intros; eapply Hstep; eauto; lia|assumption..].
    apply (Hstep a s1 s2); [lia|assumption..].
Qed.

Section Related.

Variable m : nat → bool.
Variable bits : nat.
Hypothesis bits_even : Nat.Even bits.
Hypothesis bits_pos : (0 < bits)%nat.

Lemma step_related hc ss cs slog clog ss' o slog' cs' co clog' :
  machine_rel m bits ss cs → shown_log_rel m slog clog →
  step (sat bits) hc ss slog = Some (ss', o, slog') →
  step (calc bits) hc cs clog = Some (cs', co, clog') →
  machine_rel m bits ss' cs' ∧ word_eq m bits o co
  ∧ shown_log_rel m slog' clog'.
Proof.
  intros Hm Hlog E1 E2.
  pose proof (step_sim m bits bits_even bits_pos hc ss cs slog clog Hm Hlog) as H.
  rewrite E1, E2 in H. exact H.
Qed.

Lemma plain_loop_related (bump : bool) hc n a s c s' c' :
  run_rel m bits s c →
  for_in (seq a n)
    (λ _ '(st, log),
       '(st, out1, log) ← step (sat bits) hc st log;
       Some ((if bump then next st else st), log)) s = Some s' →
  for_in (seq a n)
    (λ _ '(st, log),
       '(st, out1, log) ← step (calc bits) hc st log;
       Some ((if bump then next st else st), log)) c = Some c' →
  run_rel m bits s' c'.
Proof.
  intros HR E1 E2.
  refine (for_in_seq_related (λ _, run_rel m bits) _ _ n a s c s' c' HR _ E1 E2).
  intros i [ss slog] [cs clog] r1 r2 _ [Hm Hlog] B1 B2. cbn [fst snd] in *.
  destruct (step (sat bits) hc ss slog) as [[[ss1 o] slog1]|] eqn:S1;
    [|discriminate].
  destruct (step (calc bits) hc cs clog) as [[[cs1 co] clog1]|] eqn:S2;
    [|discriminate].
  cbn [mbind option_bind] in B1, B2. injection B1 as <-. injection B2 as <-.
  destruct (step_related _ _ _ _ _ _ _ _ _ _ _ Hm Hlog S1 S2) as (H1 & _ & H3).
  split; cbn [fst snd]; [|exact H3].
  destruct bump; [apply next_rel|]; exact H1.
Qed.

Lemma warm_up_related hc s c s' c' :
  run_rel m bits s c →
  warm_up (sat bits) hc s = Some s' → warm_up (calc bits) hc c = Some c' →
  run_rel m bits s' c'.
Proof.
  intros HR E1 E2.
  exact (plain_loop_related false hc 5 0 s c s' c' HR E1 E2).
Qed.

Lemma advance_related n hc s c s' c' :
  run_rel m bits s c →
  advance (sat bits) n hc s = Some s' → advance (calc bits) n hc c = Some c' →
  run_rel m bits s' c'.
Proof.
  intros HR E1 E2.
  exact (plain_loop_related true hc n 0 s c s' c' HR E1 E2).
Qed.

Lemma xor_related (a b r : bv) ca cb :
  word_eq m bits a ca → word_eq m bits b cb → xor a b = Some r →
  word_eq m bits r (Z.lxor ca cb).
Proof.
  intros [La Da] [Lb Db] E.
  destruct (xor_spec m a b ltac:(congruence)) as (r' & E' & Lr & Dr).
  rewrite E in E'. injection E' as <-.
  split; [congruence|]. rewrite Dr, Da, Db. reflexivity.
Qed.

(** Binding one output to observation [j]. *)
Lemma bind_output_related (out : bv) co (obs : list Z) j cs cs' :
  word_eq m bits out co →
  bind_output out obs j cs = Some cs' →
  ∃ o, obs !! j = Some o
       ∧ (satisfies m cs' ↔ satisfies m cs ∧ co = o mod pow2 bits).
Proof.
  intros [Lo Do] E.
  destruct (obs !! j) as [o|] eqn:Eo.
  - exists o. split; [reflexivity|].
    apply lookup_lt_Some in Eo as Hj.
    rewrite bind_output_spec in E by exact Hj. injection E as <-.
    rewrite (list_lookup_total_correct _ _ _ Eo).
    rewrite satisfies_app, satisfies_bound, Lo, Do. reflexivity.
  - exfalso. destruct out as [|b out]; [cbn in Lo; lia|].
    unfold bind_output in E. cbn [length seq zip zip_with for_in] in E.
    rewrite Eo in E. discriminate.
Qed.

Lemma seen_snoc n (obs : list Z) o :
  obs !! n = Some o →
  seen bits (S n) obs = seen bits n obs ++ [o mod pow2 bits].
Proof.
  intros E. unfold seen. rewrite (take_S_r obs n o E), map_app. reflexivity.
Qed.

Lemma length_seen n (obs : list Z) :
  (n ≤ length obs)%nat → length (seen bits n obs) = n.
Proof. intros H. unfold seen. rewrite length_map, length_take. lia. Qed.

Lemma snoc_eq_iff {A : Type} (l1 l2 : list A) x y :
  l1 ++ [x] = l2 ++ [y] ↔ l1 = l2 ∧ x = y.
Proof.
  split.
  - intros E. apply app_inj_tail in E. exact E.
  - intros [-> ->]. reflexivity.
Qed.

(** The rounds of gradilac_sat.py. *)
Lemma gradilac_rounds_related hc num_obs (obs : list Z) ss cs slog clog
    ss' slog' cns cs' clog' cobs :
  machine_rel m bits ss cs → shown_log_rel m slog clog →
  for_in (range num_obs) (Gradilac.sat_round bits hc obs) (ss, slog, [])
  = Some (ss', slog', cns) →
  for_in (range num_obs) (Gradilac.calc_round bits hc) (cs, clog, [])
  = Some (cs', clog', cobs) →
  shown_log_rel m slog' clog'
  ∧ (satisfies m cns ↔ cobs = seen bits num_obs obs).
Proof.
  intros Hm Hlog E1 E2.
  pose proof (for_in_seq_related
                (λ k '(ss, slog, cns) '(cs, clog, cobs),
                   machine_rel m bits ss cs ∧ shown_log_rel m slog clog
                   ∧ length cobs = k ∧ (k ≤ length obs)%nat
                   ∧ (satisfies m cns ↔ cobs = seen bits k obs))
                (Gradilac.sat_round bits hc obs) (Gradilac.calc_round bits hc)
                num_obs 0 (ss, slog, []) (cs, clog, [])
                (ss', slog', cns) (cs', clog', cobs)) as H.
  cbn beta iota in H.
  destruct H as (_ & H2 & _ & _ & H5); [| |exact E1|exact E2|auto].
  - split; [exact Hm|]. split; [exact Hlog|]. split; [reflexivity|].
    split; [lia|]. unfold seen. cbn. split; [reflexivity|constructor].
  - clear E1 E2. intros k [[ss1 slog1] cons1] [[cs1 clog1] cobs1] r1 r2 _
      (Hm1 & Hl1 & Hk & Hko & Hsat) B1 B2.
    unfold Gradilac.sat_round in B1. unfold Gradilac.calc_round in B2.
    destruct (step (sat bits) hc ss1 slog1) as [[[ss2 o1] slog2]|] eqn:S1;
      [|discriminate].
    destruct (step (calc bits) hc cs1 clog1) as [[[cs2 co1] clog2]|] eqn:C1;
      [|discriminate].
    cbn [mbind option_bind] in B1, B2.
    destruct (step_related _ _ _ _ _ _ _ _ _ _ _ Hm1 Hl1 S1 C1)
      as (Hm2 & Ho1 & Hl2).
    apply next_rel in Hm2.
    destruct (step (sat bits) hc (next ss2) slog2) as [[[ss3 o2] slog3]|] eqn:S2;
      [|discriminate].
    destruct (step (calc bits) hc (next cs2) clog2) as [[[cs3 co2] clog3]|] eqn:C2;
      [|discriminate].
    cbn [mbind option_bind] in B1, B2.
    destruct (step_related _ _ _ _ _ _ _ _ _ _ _ Hm2 Hl2 S2 C2)
      as (Hm3 & Ho2 & Hl3).
    apply next_rel in Hm3.
    destruct (xor o1 o2) as [out|] eqn:X; [|discriminate].
    cbn [mbind option_bind] in B1.
    destruct (bind_output out obs k cons1) as [cons2|] eqn:B; [|discriminate].
    cbn [mbind option_bind] in B1.
    injection B1 as <-. injection B2 as <-.
    pose proof (xor_related _ _ _ _ _ Ho1 Ho2 X) as Hout.
    destruct (bind_output_related _ _ _ _ _ _ Hout B) as (o & Eo & Hb).
    apply lookup_lt_Some in Eo as Hlt.
    split; [exact Hm3|]. split; [exact Hl3|].
    split; [rewrite length_app; cbn [length]; lia|].
    split; [lia|].
    rewrite Hb, (seen_snoc k obs o Eo), snoc_eq_iff, Hsat. reflexivity.
Qed.

(** The hash array of the symbolic run stands for the hash array of the
    concrete run from the values of the unknown words. *)
Lemma key_hash_related (ws : list bv) k :
  Forall (λ w : bv, length w = bits) ws →
  Forall2 (word_rel m bits)
    (ws ++ replicate k (inibits bits 0))
    (map (λ v, Z.land v (bmask bits)) (decode_words m ws) ++ replicate k 0).
Proof.
  intros Hws. apply Forall2_app.
  - unfold decode_words. rewrite map_map.
    apply Forall2_fmap_r. apply Forall_Forall2_diag.
    eapply Forall_impl; [exact Hws|].
    intros w Hw. cbn. split; [exact Hw|].
    rewrite land_bmask, Z.mod_mod by (pose proof (pow2_pos bits); lia).
    pose proof (decode_number_bound m w) as Hb. rewrite Hw in Hb.
    symmetry. apply Z.mod_small. exact Hb.
  - apply Forall2_replicate. apply word_rel_inibits.
Qed.

Lemma unknown_word_related (w : bv) :
  length w = bits →
  word_rel m bits w (Z.land (decode_number m w) (bmask bits)).
Proof.
  intros Hw. split; [exact Hw|].
  rewrite land_bmask, Z.mod_mod by (pose proof (pow2_pos bits); lia).
  pose proof (decode_number_bound m w) as Hb. rewrite Hw in Hb.
  symmetry. apply Z.mod_small. exact Hb.
Qed.

End Related.

Lemma length_key_words bits fresh n : length (key_words bits fresh n) = n.
Proof. unfold key_words. rewrite length_map, length_seq. reflexivity. Qed.

Lemma Forall_key_words bits fresh n :
  Forall (λ w : bv, length w = bits) (key_words bits fresh n).
Proof.
  unfold key_words. apply List.Forall_map, List.Forall_forall. intros i _.
  rewrite length_map, length_seq. reflexivity.
Qed.

(** The instance and the concrete run from the key a model gives. *)
Lemma gradilac_related m bits hci hc num_obs (obs : list Z) inst st log cobs :
  Nat.Even bits → (0 < bits)%nat →
  Gradilac.sat_run bits hci hc num_obs obs = Some inst →
  Gradilac.calc_run bits hci hc num_obs
    (decode_number m (Gradilac.start_seed inst))
    (decode_number m (Gradilac.start_lcg inst))
    (decode_words m (Gradilac.start_h inst)) = Some (st, log, cobs) →
  shown_log_rel m (Gradilac.sat_log inst) log
  ∧ (satisfies m (Gradilac.constraints inst) ↔ cobs = seen bits num_obs obs).
Proof.
  intros Hev Hb Es Ec.
  unfold Gradilac.sat_run in Es. cbn [new_vars] in Es.
  unfold Gradilac.init_h in Es. rewrite fill_h in Es.
  cbn [mbind option_bind] in Es.
  set (ws := key_words bits (0 + bits + bits) (Nat.min hci hc)) in *.
  set (sseed := map BVar (seq 0 bits)) in *.
  set (slcg := map BVar (seq (0 + bits) bits)) in *.
  destruct (warm_up (sat bits) hc _) as [s1|] eqn:W1; [|discriminate].
  cbn [mbind option_bind] in Es.
  destruct (advance (sat bits) (hc + 1) hc s1) as [s2|] eqn:A1; [|discriminate].
  cbn [mbind option_bind] in Es.
  destruct (for_in (range num_obs) _ _) as [[[ss' slog'] cns]|] eqn:R1;
    [|discriminate].
  cbn [mbind option_bind] in Es. injection Es as <-.
  cbn [Gradilac.start_seed Gradilac.start_lcg Gradilac.start_h
       Gradilac.sat_log Gradilac.constraints] in *.
  unfold Gradilac.calc_run in Ec.
  unfold Gradilac.init_calc_h in Ec. rewrite fill_calc_h in Ec.
  assert (Hlen : length (decode_words m ws) = Nat.min hci hc).
  { unfold decode_words, ws. rewrite length_map, length_key_words. reflexivity. }
  rewrite Hlen, Nat.leb_refl in Ec.
  rewrite <- Hlen, firstn_all in Ec. cbn [mbind option_bind] in Ec.
  destruct (warm_up (calc bits) hc _) as [c1|] eqn:W2; [|discriminate].
  cbn [mbind option_bind] in Ec.
  destruct (advance (calc bits) (hc + 1) hc c1) as [c2|] eqn:A2; [|discriminate].
  cbn [mbind option_bind] in Ec.
  assert (H0 : run_rel m bits
                 (Machine sseed slcg (ws ++ replicate (hc - hci) (inibits bits 0))
                          0, [])
                 (Machine (Z.land (decode_number m sseed) (bmask bits))
                          (Z.land (decode_number m slcg) (bmask bits))
                          (map (λ v, Z.land v (bmask bits)) (decode_words m ws)
                           ++ replicate (hc - hci) 0) 0, [])).
  { split; [|reflexivity]. cbn [fst snd]. unfold machine_rel.
    cbn [m_seed m_lcg m_h m_x].
    split; [apply unknown_word_related; try exact Hb;
            unfold sseed; rewrite length_map, length_seq; reflexivity|].
    split; [apply unknown_word_related; try exact Hb;
            unfold slcg; rewrite length_map, length_seq; reflexivity|].
    split; [|reflexivity].
    apply key_hash_related; try exact Hb. apply Forall_key_words. }
  pose proof (warm_up_related m bits Hev Hb hc _ _ _ _ H0 W1 W2) as H1.
  pose proof (advance_related m bits Hev Hb _ hc _ _ _ _ H1 A1 A2) as [H2 H3].
  exact (gradilac_rounds_related m bits Hev Hb hc num_obs obs _ _ _ _ _ _ _ _ _ _
           H2 H3 R1 Ec).
Qed.

(** Only the first [min hci hc] key words are read. *)
Lemma gradilac_calc_run_min bits hci hc num_obs seed_i lcg_i (hcv : list Z) :
  Gradilac.calc_run bits hci hc num_obs seed_i lcg_i hcv
  = Gradilac.calc_run bits (Nat.min hci hc) hc num_obs seed_i lcg_i hcv.
Proof.
  unfold Gradilac.calc_run, Gradilac.init_calc_h. rewrite !fill_calc_h.
  replace (Nat.min (Nat.min hci hc) hc) with (Nat.min hci hc) by lia.
  replace (hc - Nat.min hci hc)%nat with (hc - hci)%nat by lia.
  reflexivity.
Qed.

Lemma gradilac_solutions bits hci hc num_obs (obs : list Z) :
  Nat.Even bits → (0 < bits)%nat → (0 < hc)%nat →
  (num_obs ≤ length obs)%nat →
  ∃ inst,
    Gradilac.sat_run bits hci hc num_obs obs = Some inst
    ∧ ∀ m,
        satisfies m (Gradilac.constraints inst)
        ↔ ∃ st log,
            Gradilac.calc_run bits hci hc num_obs
              (decode_number m (Gradilac.start_seed inst))
              (decode_number m (Gradilac.start_lcg inst))
              (decode_words m (Gradilac.start_h inst))
            = Some (st, log, seen bits num_obs obs).
Proof.
  intros Hev Hb Hhc Hobs.
  destruct (gradilac_sat_run bits hci hc num_obs obs Hev Hb Hhc Hobs)
    as (inst & Es & _).
  exists inst. split; [exact Es|]. intros m.
  assert (Hlen : length (decode_words m (Gradilac.start_h inst)) = Nat.min hci hc).
  { clear -Es. unfold Gradilac.sat_run in Es. cbn [new_vars] in Es.
    unfold Gradilac.init_h in Es. rewrite fill_h in Es.
    cbn [mbind option_bind] in Es.
    destruct (warm_up (sat bits) hc _) as [s1|]; [|discriminate].
    cbn [mbind option_bind] in Es.
    destruct (advance (sat bits) (hc + 1) hc s1) as [s2|]; [|discriminate].
    cbn [mbind option_bind] in Es.
    destruct (for_in (range num_obs) _ _) as [[[ss' slog'] cns]|];
      [|discriminate].
    cbn [mbind option_bind] in Es. injection Es as <-.
    cbn [Gradilac.start_h]. unfold decode_words.
    rewrite length_map, length_key_words. reflexivity. }
  destruct (gradilac_calc_run bits (Nat.min hci hc) hc num_obs
              (decode_number m (Gradilac.start_seed inst))
              (decode_number m (Gradilac.start_lcg inst))
              (decode_words m (Gradilac.start_h inst)) Hhc ltac:(lia))
    as (st & log & cobs & Ec & _).
  rewrite <- gradilac_calc_run_min in Ec.
  destruct (gradilac_related m bits hci hc num_obs obs inst st log cobs
              Hev Hb Es Ec) as [_ Hiff].
  rewrite Hiff. split.
  - intros <-. exists st, log. exact Ec.
  - intros (st' & log' & Ec'). rewrite Ec in Ec'. congruence.
Qed.

(** [X15] What the SAT instance of gradilac_sat.py says: for an even positive
    width, [hc > 0] and at least [num_obs] observations, the symbolic run
    returns an instance, and a model satisfies its constraints exactly when
    the concrete run, started from the seed, lcg and hash words the model
    gives the unknowns, returns the first [num_obs] observations (each
    modulo [2^bits]). The instance has no other solutions and loses
    none. *)
Theorem gradilac_instance_solutions (bits hci hc num_obs : nat) (obs : list Z) :
  Nat.Even bits → (0 < bits)%nat → (0 < hc)%nat →
  (num_obs ≤ length obs)%nat →
  ∃ inst,
    Gradilac.sat_run bits hci hc num_obs obs = Some inst
    ∧ ∀ m,
        satisfies m (Gradilac.constraints inst)
        ↔ ∃ st log,
            Gradilac.calc_run bits hci hc num_obs
              (decode_number m (Gradilac.start_seed inst))
              (decode_number m (Gradilac.start_lcg inst))
              (decode_words m (Gradilac.start_h inst))
            = Some (st, log, seen bits num_obs obs).
Proof. exact (gradilac_solutions bits hci hc num_obs obs). Qed.

Lemma gradilac_instance_solutions_witness :
  ∃ inst,
    Gradilac.sat_run 6 2 2 3 [17; 3; 57] = Some inst
    ∧ ∀ m,
        satisfies m (Gradilac.constraints inst)
        ↔ ∃ st log,
            Gradilac.calc_run 6 2 2 3
              (decode_number m (Gradilac.start_seed inst))
              (decode_number m (Gradilac.start_lcg inst))
              (decode_words m (Gradilac.start_h inst))
            = Some (st, log, seen 6 3 [17; 3; 57]).
Proof.
  apply (gradilac_instance_solutions 6 2 2 3 [17; 3; 57]);
    [exists 3%nat; reflexivity | lia | lia | cbn; lia].
Defined.

(** ** The key solves the instance of gradilac_sat.py *)

(** ** The key as a model *)

Lemma decode_vars m a n w :
  (∀ i, (i < n)%nat → m (a + i)%nat = Z.testbit w (Z.of_nat i)) →
  decode_number m (map BVar (seq a n)) = w mod pow2 n.
Proof.
  revert a w. induction n as [|n IH]; intros a w H.
  - cbn. unfold pow2. cbn. rewrite Z.mod_1_r. reflexivity.
  - cbn [seq map decode_number eval].
    rewrite (IH (S a) (w / 2)).
    + rewrite mod_pow2_S. f_equal. f_equal.
      rewrite <- (Nat.add_0_r a). apply (H 0%nat). lia.
    + intros i Hi.
      replace (S a + i)%nat with (a + S i)%nat by lia.
      rewrite (H (S i)) by lia.
      change (w / 2) with (w / 2 ^ 1).
      rewrite <- Z.shiftr_div_pow2, Z.shiftr_spec by lia.
      f_equal. lia.
Qed.

Lemma key_model_bit bits (words : list Z) j i w :
  (i < bits)%nat → words !! j = Some w →
  key_model bits words (j * bits + i) = Z.testbit w (Z.of_nat i).
Proof.
  intros Hi Hw. unfold key_model.
  rewrite Nat.div_add_l, Nat.div_small, Nat.add_0_r by lia.
  rewrite Nat.add_comm, Nat.Div0.mod_add, Nat.mod_small by lia.
  rewrite Hw. reflexivity.
Qed.

Lemma decode_key_word bits (words : list Z) j w :
  words !! j = Some w →
  decode_number (key_model bits words) (map BVar (seq (j * bits) bits))
  = w mod pow2 bits.
Proof.
  intros Hw. apply decode_vars. intros i Hi.
  apply key_model_bit; assumption.
Qed.

Lemma key_words_S bits fresh n :
  key_words bits fresh (S n)
  = key_words bits fresh n ++ [map BVar (seq (fresh + n * bits) bits)].
Proof. unfold key_words. rewrite seq_S, map_app. reflexivity. Qed.

Lemma decode_key_words bits (pre hcv : list Z) n :
  (n ≤ length hcv)%nat →
  decode_words (key_model bits (pre ++ hcv))
    (key_words bits (length pre * bits) n)
  = map (λ v, v mod pow2 bits) (take n hcv).
Proof.
  induction n as [|n IH]; intros Hn; [reflexivity|].
  destruct (lookup_lt_is_Some_2 hcv n ltac:(lia)) as [v Hv].
  rewrite key_words_S, (take_S_r hcv n v Hv), map_app.
  unfold decode_words in *. rewrite map_app, IH by lia.
  cbn [map]. do 2 f_equal.
  replace (length pre * bits + n * bits)%nat
    with ((length pre + n) * bits)%nat by lia.
  apply decode_key_word.
  rewrite lookup_app_r by lia.
  replace (length pre + n - length pre)%nat with n by lia. exact Hv.
Qed.

(** ** The observations are words *)

Lemma calc_out_range bits seed lcg h :
  0 ≤ res_out (prvhash_core_calc bits seed lcg h) < pow2 bits.
Proof.
  unfold prvhash_core_calc. cbn [res_out snd].
  rewrite !land_bmask. pose proof (pow2_pos bits) as Hp.
  apply lxor_range; apply Z.mod_pos_bound; lia.
Qed.

Lemma genuine_out_range bits (c : call Z) :
  genuine (calc bits) c → 0 ≤ call_out c < pow2 bits.
Proof.
  unfold genuine, calc, call_out. intros [= <-]. apply calc_out_range.
Qed.

Lemma seen_id bits n (obs : list Z) :
  length obs = n → Forall (λ o, 0 ≤ o < pow2 bits) obs →
  seen bits n obs = obs.
Proof.
  intros <- H. unfold seen. rewrite firstn_all.
  induction H as [|o obs Ho _ IH]; [reflexivity|].
  cbn [map]. fold (pow2 bits) in *. rewrite IH, Z.mod_small by exact Ho.
  reflexivity.
Qed.

Lemma gradilac_obs_range bits hci hc num_obs seed_i lcg_i (hcv : list Z)
    st log obs :
  (0 < hc)%nat → (Nat.min hci hc ≤ length hcv)%nat →
  Gradilac.calc_run bits hci hc num_obs seed_i lcg_i hcv = Some (st, log, obs) →
  length obs = num_obs ∧ Forall (λ o, 0 ≤ o < pow2 bits) obs.
Proof.
  intros Hhc Hlen Ec. rewrite gradilac_calc_run_min in Ec.
  destruct (gradilac_calc_run bits (Nat.min hci hc) hc num_obs seed_i lcg_i hcv
              Hhc Hlen) as (st' & log' & obs' & Ec' & Hl & Hcalls & Ho & Hk).
  rewrite Ec in Ec'. injection Ec' as <- <- <-.
  split; [exact Ho|].
  apply (proj2 (Forall_lookup_total _ obs)). intros k Hk'. rewrite Ho in Hk'.
  rewrite (Hk k Hk').
  apply lxor_range; apply genuine_out_range.
  - destruct (Hcalls (5 + (hc + 1) + 2 * k)%nat ltac:(lia)) as (_ & _ & G & _).
    exact G.
  - destruct (Hcalls (5 + (hc + 1) + 2 * k + 1)%nat ltac:(lia))
      as (_ & _ & G & _).
    exact G.
Qed.

(** ** The instance of gradilac_sat.py and the key *)

Lemma gradilac_instance_key bits hci hc num_obs (obs : list Z) inst :
  Gradilac.sat_run bits hci hc num_obs obs = Some inst →
  Gradilac.start_seed inst = map BVar (seq (0 * bits) bits)
  ∧ Gradilac.start_lcg inst = map BVar (seq (1 * bits) bits)
  ∧ Gradilac.start_h inst = key_words bits (2 * bits) (Nat.min hci hc).
Proof.
  intros Es. unfold Gradilac.sat_run in Es. cbn [new_vars] in Es.
  unfold Gradilac.init_h in Es. rewrite fill_h in Es.
  cbn [mbind option_bind] in Es.
  destruct (warm_up (sat bits) hc _) as [s1|]; [|discriminate].
  cbn [mbind option_bind] in Es.
  destruct (advance (sat bits) (hc + 1) hc s1) as [s2|]; [|discriminate].
  cbn [mbind option_bind] in Es.
  destruct (for_in (range num_obs) _ _) as [[[ss' slog'] cns]|];
    [|discriminate].
  cbn [mbind option_bind] in Es. injection Es as <-.
  cbn [Gradilac.start_seed Gradilac.start_lcg Gradilac.start_h].
  replace (0 * bits)%nat with 0%nat by lia.
  replace (1 * bits)%nat with (0 + bits)%nat by lia.
  replace (2 * bits)%nat with (0 + bits + bits)%nat by lia.
  auto.
Qed.

(** The concrete run reads its key modulo [2^bits]. *)
Lemma gradilac_calc_run_key bits hci hc num_obs seed_i lcg_i (hcv : list Z) :
  (Nat.min hci hc ≤ length hcv)%nat →
  Gradilac.calc_run bits hci hc num_obs (seed_i mod pow2 bits)
    (lcg_i mod pow2 bits)
    (map (λ v, v mod pow2 bits) (take (Nat.min hci hc) hcv))
  = Gradilac.calc_run bits hci hc num_obs seed_i lcg_i hcv.
Proof.
  intros Hlen. unfold Gradilac.calc_run, Gradilac.init_calc_h.
  rewrite !fill_calc_h.
  rewrite length_map, length_take.
  replace (Nat.min hci hc <=? Nat.min (Nat.min hci hc) (length hcv))%nat
    with true by (symmetry; apply Nat.leb_le; lia).
  replace (Nat.min hci hc <=? length hcv)%nat
    with true by (symmetry; apply Nat.leb_le; lia).
  rewrite <- (length_take_le hcv (Nat.min hci hc)) at 1 by exact Hlen.
  rewrite <- (length_map (λ v, v mod pow2 bits)), firstn_all.
  rewrite map_map.
  rewrite (map_ext (λ x, Z.land (x mod pow2 bits) (bmask bits))
             (λ v, Z.land v (bmask bits)))
    by (intros v; rewrite !land_bmask, Z.mod_mod
          by (pose proof (pow2_pos bits); lia); reflexivity).
  rewrite !land_bmask, !Z.mod_mod by (pose proof (pow2_pos bits); lia).
  reflexivity.
Qed.

Lemma gradilac_key_model bits hci hc num_obs seed_i lcg_i (hcv : list Z) :
  Nat.Even bits → (0 < bits)%nat → (0 < hc)%nat →
  (Nat.min hci hc ≤ length hcv)%nat →
  ∃ obs inst,
    Gradilac.script bits hci hc num_obs seed_i lcg_i hcv = Some (obs, inst)
    ∧ satisfies (key_model bits (seed_i :: lcg_i :: hcv))
        (Gradilac.constraints inst)
    ∧ decode_number (key_model bits (seed_i :: lcg_i :: hcv))
        (Gradilac.start_seed inst) = Z.land seed_i (bmask bits)
    ∧ decode_number (key_model bits (seed_i :: lcg_i :: hcv))
        (Gradilac.start_lcg inst) = Z.land lcg_i (bmask bits)
    ∧ decode_words (key_model bits (seed_i :: lcg_i :: hcv))
        (Gradilac.start_h inst)
      = map (λ v, Z.land v (bmask bits)) (take (Nat.min hci hc) hcv).
Proof.
  intros Hev Hb Hhc Hlen.
  destruct (gradilac_calc_run bits (Nat.min hci hc) hc num_obs seed_i lcg_i hcv
              Hhc Hlen) as (st & log & obs & Ec & _).
  rewrite <- gradilac_calc_run_min in Ec.
  destruct (gradilac_obs_range bits hci hc num_obs seed_i lcg_i hcv st log obs
              Hhc Hlen Ec) as [Ho Hr].
  destruct (gradilac_solutions bits hci hc num_obs obs Hev Hb Hhc ltac:(lia))
    as (inst & Es & Hsol).
  destruct (gradilac_instance_key bits hci hc num_obs obs inst Es)
    as (Kseed & Klcg & Kh).
  set (m := key_model bits (seed_i :: lcg_i :: hcv)) in *.
  assert (Dseed : decode_number m (Gradilac.start_seed inst)
                  = seed_i mod pow2 bits).
  { rewrite Kseed. apply decode_key_word. reflexivity. }
  assert (Dlcg : decode_number m (Gradilac.start_lcg inst)
                 = lcg_i mod pow2 bits).
  { rewrite Klcg. apply decode_key_word. reflexivity. }
  assert (Dh : decode_words m (Gradilac.start_h inst)
               = map (λ v, v mod pow2 bits) (take (Nat.min hci hc) hcv)).
  { rewrite Kh. exact (decode_key_words bits [seed_i; lcg_i] hcv _ Hlen). }
  exists obs, inst. split; [|split; [|split; [|split]]].
  - unfold Gradilac.script. rewrite Ec. cbn [mbind option_bind].
    rewrite Es. reflexivity.
  - apply Hsol. exists st, log.
    rewrite Dseed, Dlcg, Dh, gradilac_calc_run_key by exact Hlen.
    rewrite (seen_id bits num_obs obs Ho Hr). exact Ec.
  - rewrite land_bmask. exact Dseed.
  - rewrite land_bmask. exact Dlcg.
  - rewrite Dh. apply map_ext. intros v. rewrite land_bmask. reflexivity.
Qed.

(** [X16] The instance of gradilac_sat.py is satisfiable by the key: for an
    even positive width, [hc > 0] and a key vector of at least [min hci hc]
    words, the script (concrete run, then symbolic run on its observations)
    returns, and the model that gives the unknown bits the bits of
    [seed_i], [lcg_i] and the key words satisfies every constraint and
    decodes [start_seed], [start_lcg] and [start_h] to the masked key
    values the script prints beside them. *)
Theorem gradilac_key_solves_instance (bits hci hc num_obs : nat)
    (seed_i lcg_i : Z) (hcv : list Z) :
  Nat.Even bits → (0 < bits)%nat → (0 < hc)%nat →
  (Nat.min hci hc ≤ length hcv)%nat →
  ∃ obs inst,
    Gradilac.script bits hci hc num_obs seed_i lcg_i hcv = Some (obs, inst)
    ∧ satisfies (key_model bits (seed_i :: lcg_i :: hcv))
        (Gradilac.constraints inst)
    ∧ decode_number (key_model bits (seed_i :: lcg_i :: hcv))
        (Gradilac.start_seed inst) = Z.land seed_i (bmask bits)
    ∧ decode_number (key_model bits (seed_i :: lcg_i :: hcv))
        (Gradilac.start_lcg inst) = Z.land lcg_i (bmask bits)
    ∧ decode_words (key_model bits (seed_i :: lcg_i :: hcv))
        (Gradilac.start_h inst)
      = map (λ v, Z.land v (bmask bits)) (take (Nat.min hci hc) hcv).
Proof. exact (gradilac_key_model bits hci hc num_obs seed_i lcg_i hcv). Qed.

Lemma gradilac_key_solves_instance_witness :
  ∃ obs inst,
    Gradilac.script 6 2 2 64 4 5 [13; 4; 13; 3] = Some (obs, inst)
    ∧ satisfies (key_model 6 (4 :: 5 :: [13; 4; 13; 3]))
        (Gradilac.constraints inst)
    ∧ decode_number (key_model 6 (4 :: 5 :: [13; 4; 13; 3]))
        (Gradilac.start_seed inst) = Z.land 4 (bmask 6)
    ∧ decode_number (key_model 6 (4 :: 5 :: [13; 4; 13; 3]))
        (Gradilac.start_lcg inst) = Z.land 5 (bmask 6)
    ∧ decode_words (key_model 6 (4 :: 5 :: [13; 4; 13; 3]))
        (Gradilac.start_h inst)
      = map (λ v, Z.land v (bmask 6)) (take (Nat.min 2 2) [13; 4; 13; 3]).
Proof.
  apply (gradilac_key_solves_instance 6 2 2 64 4 5 [13; 4; 13; 3]);
    [exists 3%nat; reflexivity | lia | lia | cbn; lia].
Defined.

(** ** The instance of t642_sat.py *)

Section RelatedB.

Variable m : nat → bool.
Variable bits : nat.
Hypothesis bits_even : Nat.Even bits.
Hypothesis bits_pos : (0 < bits)%nat.

Lemma call_core_related who (s l : bv) (hs : list bv) (cs cl : Z) (ch : list Z)
    (x modulus : nat) slog clog s' l' hs' o slog' cs' cl' ch' co clog' :
  word_rel m bits s cs → word_rel m bits l cl →
  Forall2 (word_rel m bits) hs ch → shown_log_rel m slog clog →
  call_core (sat bits) who s l hs x modulus slog = Some (s', l', hs', o, slog') →
  call_core (calc bits) who cs cl ch x modulus clog
  = Some (cs', cl', ch', co, clog') →
  word_rel m bits s' cs' ∧ word_rel m bits l' cl'
  ∧ Forall2 (word_rel m bits) hs' ch' ∧ word_eq m bits o co
  ∧ shown_log_rel m slog' clog'.
Proof.
  intros Hs Hl Hh Hlog E1 E2.
  pose proof (call_core_sim m bits bits_even bits_pos who s l hs cs cl ch x
                modulus slog clog Hs Hl Hh Hlog) as H.
  rewrite E1, E2 in H. cbn [rel_opt] in H.
  destruct H as (H1 & H2 & H3 & H4 & H5).
  repeat split; try apply word_eq_rel; try assumption;
    first [apply H1 | apply H2 | apply H4].
Qed.

Lemma firewall_round_related fw cfw slog clog fw' o1 o2 o3 o4 slog'
    cfw' c1 c2 c3 c4 clog' :
  firewall_rel m bits fw cfw → shown_log_rel m slog clog →
  Tango642.firewall_round (sat bits) fw slog
  = Some (fw', (o1, o2, o3, o4), slog') →
  Tango642.firewall_round (calc bits) cfw clog
  = Some (cfw', (c1, c2, c3, c4), clog') →
  firewall_rel m bits fw' cfw'
  ∧ word_eq m bits o1 c1 ∧ word_eq m bits o2 c2
  ∧ word_eq m bits o3 c3 ∧ word_eq m bits o4 c4
  ∧ shown_log_rel m slog' clog'.
Proof.
  intros (Hs1 & Hl1 & Hs2 & Hl2 & Hs3 & Hl3 & Hs4 & Hl4 & Hh & Hx) Hlog E1 E2.
  unfold Tango642.firewall_round in E1, E2. rewrite Hx in E1.
  destruct (call_core (sat bits) 1 _ _ _ _ _ _)
    as [[[[[a1 b1] h1] p1] g1]|] eqn:S1; [|discriminate].
  destruct (call_core (calc bits) 1 _ _ _ _ _ _)
    as [[[[[ca1 cb1] ch1] cp1] cg1]|] eqn:C1; [|discriminate].
  cbn [mbind option_bind] in E1, E2.
  destruct (call_core_related _ _ _ _ _ _ _ _ _ _ _ _ _ _ _ _ _ _ _ _ _
              Hs1 Hl1 Hh Hlog S1 C1) as (A1 & B1 & H1 & P1 & G1).
  destruct (call_core (sat bits) 2 _ _ _ _ _ _)
    as [[[[[a2 b2] h2] p2] g2]|] eqn:S2; [|discriminate].
  destruct (call_core (calc bits) 2 _ _ _ _ _ _)
    as [[[[[ca2 cb2] ch2] cp2] cg2]|] eqn:C2; [|discriminate].
  cbn [mbind option_bind] in E1, E2.
  destruct (call_core_related _ _ _ _ _ _ _ _ _ _ _ _ _ _ _ _ _ _ _ _ _
              Hs2 Hl2 H1 G1 S2 C2) as (A2 & B2 & H2 & P2 & G2).
  destruct (call_core (sat bits) 3 _ _ _ _ _ _)
    as [[[[[a3 b3] h3] p3] g3]|] eqn:S3; [|discriminate].
  destruct (call_core (calc bits) 3 _ _ _ _ _ _)
    as [[[[[ca3 cb3] ch3] cp3] cg3]|] eqn:C3; [|discriminate].
  cbn [mbind option_bind] in E1, E2.
  destruct (call_core_related _ _ _ _ _ _ _ _ _ _ _ _ _ _ _ _ _ _ _ _ _
              Hs3 Hl3 H2 G2 S3 C3) as (A3 & B3 & H3 & P3 & G3).
  destruct (call_core (sat bits) 4 _ _ _ _ _ _)
    as [[[[[a4 b4] h4] p4] g4]|] eqn:S4; [|discriminate].
  destruct (call_core (calc bits) 4 _ _ _ _ _ _)
    as [[[[[ca4 cb4] ch4] cp4] cg4]|] eqn:C4; [|discriminate].
  cbn [mbind option_bind] in E1, E2.
  destruct (call_core_related _ _ _ _ _ _ _ _ _ _ _ _ _ _ _ _ _ _ _ _ _
              Hs4 Hl4 H3 G3 S4 C4) as (A4 & B4 & H4 & P4 & G4).
  injection E1 as <- <- <- <- <- <-. injection E2 as <- <- <- <- <- <-.
  unfold firewall_rel.
  cbn [Tango642.seed1 Tango642.lcg1 Tango642.seed2 Tango642.lcg2
       Tango642.seed3 Tango642.lcg3 Tango642.seed4 Tango642.lcg4
       Tango642.h2 Tango642.x2].
  split_and!; first [assumption | reflexivity].
Qed.

Lemma xor_word_rel (a b r : bv) ca cb :
  word_rel m bits a ca → word_eq m bits b cb → xor a b = Some r →
  word_rel m bits r (Z.lxor ca cb).
Proof.
  intros [La Da] [Lb Db] E.
  destruct (xor_spec m a b ltac:(congruence)) as (r' & E' & Lr & Dr).
  rewrite E in E'. injection E' as <-.
  split; [congruence|]. rewrite Dr, Da, <- lxor_mod_pow2. f_equal.
  pose proof (decode_number_bound m b) as Hb. rewrite Lb, Db in Hb.
  rewrite Db. symmetry. apply Z.mod_small. exact Hb.
Qed.

Lemma feed_related fw cfw s4 c4 :
  firewall_rel m bits fw cfw → word_rel m bits s4 c4 →
  firewall_rel m bits (Tango642.feed fw s4) (Tango642.feed cfw c4).
Proof.
  intros (Hs1 & Hl1 & Hs2 & Hl2 & Hs3 & Hl3 & Hs4 & Hl4 & Hh & Hx) H.
  unfold firewall_rel, Tango642.feed.
  cbn [Tango642.seed1 Tango642.lcg1 Tango642.seed2 Tango642.lcg2
       Tango642.seed3 Tango642.lcg3 Tango642.seed4 Tango642.lcg4
       Tango642.h2 Tango642.x2].
  split_and!; assumption.
Qed.

Lemma seen_snoc4 n (obs : list Z) o0 o1 o2 o3 :
  obs !! n = Some o0 → obs !! (n + 1)%nat = Some o1 →
  obs !! (n + 2)%nat = Some o2 → obs !! (n + 3)%nat = Some o3 →
  seen bits (n + 4) obs
  = (((seen bits n obs ++ [o0 mod pow2 bits]) ++ [o1 mod pow2 bits])
     ++ [o2 mod pow2 bits]) ++ [o3 mod pow2 bits].
Proof.
  intros E0 E1 E2 E3.
  replace (n + 4)%nat with (S (n + 3)) by lia.
  rewrite (seen_snoc bits _ obs o3 E3).
  replace (n + 3)%nat with (S (n + 2)) by lia.
  rewrite (seen_snoc bits _ obs o2 E2).
  replace (n + 2)%nat with (S (n + 1)) by lia.
  rewrite (seen_snoc bits _ obs o1 E1).
  replace (n + 1)%nat with (S n) by lia.
  rewrite (seen_snoc bits _ obs o0 E0). reflexivity.
Qed.

(** The rounds of t642_sat.py. *)
Lemma tango_rounds_related hc fc R (obs : list Z) ss cs fw cfw slog clog
    ss' fw' slog' cns cs' cfw' clog' cobs :
  machine_rel m bits ss cs → firewall_rel m bits fw cfw →
  shown_log_rel m slog clog →
  for_in (range R) (Tango642.sat_round bits hc fc obs) (ss, fw, slog, [])
  = Some (ss', fw', slog', cns) →
  for_in (range R) (Tango642.calc_round bits hc fc) (cs, cfw, clog, [])
  = Some (cs', cfw', clog', cobs) →
  shown_log_rel m slog' clog'
  ∧ (satisfies m cns ↔ cobs = seen bits (4 * (R - fc)) obs).
Proof.
  intros Hm Hfw Hlog E1 E2.
  pose proof (for_in_seq_related
                (λ k '(ss, fw, slog, cns) '(cs, cfw, clog, cobs),
                   machine_rel m bits ss cs ∧ firewall_rel m bits fw cfw
                   ∧ shown_log_rel m slog clog
                   ∧ (satisfies m cns ↔ cobs = seen bits (4 * (k - fc)) obs))
                (Tango642.sat_round bits hc fc obs)
                (Tango642.calc_round bits hc fc)
                R 0 (ss, fw, slog, []) (cs, cfw, clog, [])
                (ss', fw', slog', cns) (cs', cfw', clog', cobs)) as H.
  cbn beta iota in H.
  destruct H as (_ & _ & H3 & H4); [| |exact E1|exact E2|auto].
  - split; [exact Hm|]. split; [exact Hfw|]. split; [exact Hlog|].
    unfold seen. cbn. split; [reflexivity|constructor].
  - clear E1 E2.
    intros k [[[ss1 fw1] slog1] cns1] [[[cs1 cfw1] clog1] cobs1] r1 r2 _
      (Hm1 & Hf1 & Hl1 & Hsat) B1 B2.
    unfold Tango642.sat_round in B1. unfold Tango642.calc_round in B2.
    destruct (step (sat bits) hc ss1 slog1) as [[[ss2 o1] slog2]|] eqn:S1;
      [|discriminate].
    destruct (step (calc bits) hc cs1 clog1) as [[[cs2 co1] clog2]|] eqn:C1;
      [|discriminate].
    cbn [mbind option_bind] in B1, B2.
    destruct (step_related m bits bits_even bits_pos _ _ _ _ _ _ _ _ _ _ _
                Hm1 Hl1 S1 C1) as (Hm2 & Ho1 & Hl2).
    apply next_rel in Hm2.
    destruct (xor (Tango642.seed4 fw1) o1) as [s4|] eqn:X; [|discriminate].
    cbn [mbind option_bind] in B1.
    assert (Hs4 : word_rel m bits s4 (Z.lxor (Tango642.seed4 cfw1) co1)).
    { destruct Hf1 as (_ & _ & _ & _ & _ & _ & Hs4 & _).
      exact (xor_word_rel _ _ _ _ _ Hs4 Ho1 X). }
    pose proof (feed_related _ _ _ _ Hf1 Hs4) as Hf2.
    destruct (Tango642.firewall_round (sat bits) _ slog2)
      as [[[fw3 [[[p1 p2] p3] p4]] slog3]|] eqn:F1; [|discriminate].
    destruct (Tango642.firewall_round (calc bits) _ clog2)
      as [[[cfw3 [[[q1 q2] q3] q4]] clog3]|] eqn:F2; [|discriminate].
    cbn [mbind option_bind] in B1, B2.
    destruct (firewall_round_related _ _ _ _ _ _ _ _ _ _ _ _ _ _ _ _
                Hf2 Hl2 F1 F2) as (Hf3 & P1 & P2 & P3 & P4 & Hl3).
    destruct (fc <=? k)%nat eqn:Hfc.
    + apply Nat.leb_le in Hfc.
      destruct (bind_output p1 obs _ cns1) as [cns2|] eqn:D1; [|discriminate].
      cbn [mbind option_bind] in B1.
      destruct (bind_output p2 obs _ cns2) as [cns3|] eqn:D2; [|discriminate].
      cbn [mbind option_bind] in B1.
      destruct (bind_output p3 obs _ cns3) as [cns4|] eqn:D3; [|discriminate].
      cbn [mbind option_bind] in B1.
      destruct (bind_output p4 obs _ cns4) as [cns5|] eqn:D4; [|discriminate].
      cbn [mbind option_bind] in B1.
      injection B1 as <-. injection B2 as <-.
      destruct (bind_output_related m bits bits_pos _ _ _ _ _ _ P1 D1) as (u0 & U0 & I0).
      destruct (bind_output_related m bits bits_pos _ _ _ _ _ _ P2 D2) as (u1 & U1 & I1).
      destruct (bind_output_related m bits bits_pos _ _ _ _ _ _ P3 D3) as (u2 & U2 & I2).
      destruct (bind_output_related m bits bits_pos _ _ _ _ _ _ P4 D4) as (u3 & U3 & I3).
      split; [exact Hm2|]. split; [exact Hf3|]. split; [exact Hl3|].
      replace (4 * (S k - fc))%nat with (4 * (k - fc) + 4)%nat by lia.
      replace ((k - fc) * 4 + 0)%nat with (4 * (k - fc))%nat in U0 by lia.
      replace ((k - fc) * 4 + 1)%nat with (4 * (k - fc) + 1)%nat in U1 by lia.
      replace ((k - fc) * 4 + 2)%nat with (4 * (k - fc) + 2)%nat in U2 by lia.
      replace ((k - fc) * 4 + 3)%nat with (4 * (k - fc) + 3)%nat in U3 by lia.
      rewrite (seen_snoc4 _ obs u0 u1 u2 u3 U0 U1 U2 U3).
      rewrite I3, I2, I1, I0, Hsat, !snoc_eq_iff. tauto.
    + apply Nat.leb_gt in Hfc.
      injection B1 as <-. injection B2 as <-.
      split; [exact Hm2|]. split; [exact Hf3|]. split; [exact Hl3|].
      replace (4 * (S k - fc))%nat with (4 * (k - fc))%nat by lia.
      exact Hsat.
Qed.

Lemma inject_related ivlen hc (iv : list Z) ss cs slog clog n
    ss' slog' p cs' clog' p' :
  machine_rel m bits ss cs → shown_log_rel m slog clog →
  Tango642.sat_inject bits ivlen hc iv (ss, slog, n) = Some (ss', slog', p) →
  Tango642.calc_inject bits ivlen hc iv (cs, clog, n) = Some (cs', clog', p') →
  machine_rel m bits ss' cs' ∧ shown_log_rel m slog' clog'.
Proof.
  intros Hm Hlog E1 E2.
  pose proof (inject_sim m bits ivlen hc iv ss cs slog clog n bits_even bits_pos
                Hm Hlog) as H.
  rewrite E1, E2 in H. cbn [rel_opt] in H. tauto.
Qed.

End RelatedB.

Lemma tango_related m bits hci ivlen hc fc num_obs (iv obs : list Z) inst
    st fw log cobs :
  Nat.Even bits → (0 < bits)%nat →
  Tango642.sat_run bits hci ivlen hc fc num_obs iv obs = Some inst →
  Tango642.calc_run bits hci ivlen hc fc num_obs
    (decode_number m (Tango642.start_seed inst))
    (decode_words m (Tango642.start_h inst)) iv = Some (st, fw, log, cobs) →
  shown_log_rel m (Tango642.sat_log inst) log
  ∧ (satisfies m (Tango642.constraints inst)
     ↔ cobs = seen bits (4 * num_obs) obs).
Proof.
  intros Hev Hb Es Ec.
  unfold Tango642.sat_run in Es. cbn [new_vars] in Es.
  unfold Tango642.init_h in Es. rewrite fill_h in Es.
  cbn [mbind option_bind] in Es.
  set (ws := key_words bits (0 + bits) (Nat.min hci hc)) in *.
  set (sseed := map BVar (seq 0 bits)) in *.
  destruct (warm_up (sat bits) hc _) as [s1|] eqn:W1; [|discriminate].
  cbn [mbind option_bind] in Es.
  destruct (Tango642.sat_inject bits ivlen hc iv _)
    as [[[ss2 slog2] p2]|] eqn:I1; [|discriminate].
  cbn [mbind option_bind] in Es.
  destruct (advance (sat bits) (hc + 1) hc _) as [s3|] eqn:A1; [|discriminate].
  cbn [mbind option_bind] in Es.
  destruct (for_in (range (fc + num_obs)) _ _)
    as [[[[ss' fw'] slog'] cns]|] eqn:R1; [|discriminate].
  cbn [mbind option_bind] in Es. injection Es as <-.
  cbn [Tango642.start_seed Tango642.start_h Tango642.sat_log
       Tango642.constraints] in *.
  unfold Tango642.calc_run in Ec.
  unfold Tango642.init_calc_h in Ec. rewrite fill_calc_h in Ec.
  assert (Hlen : length (decode_words m ws) = Nat.min hci hc).
  { unfold decode_words, ws. rewrite length_map, length_key_words. reflexivity. }
  rewrite Hlen, Nat.leb_refl in Ec.
  rewrite <- Hlen, firstn_all in Ec. cbn [mbind option_bind] in Ec.
  destruct (warm_up (calc bits) hc _) as [c1|] eqn:W2; [|discriminate].
  cbn [mbind option_bind] in Ec.
  destruct (Tango642.calc_inject bits ivlen hc iv _)
    as [[[cs2 clog2] q2]|] eqn:I2; [|discriminate].
  cbn [mbind option_bind] in Ec.
  destruct (advance (calc bits) (hc + 1) hc _) as [c3|] eqn:A2; [|discriminate].
  cbn [mbind option_bind] in Ec.
  assert (H0 : run_rel m bits
                 (Machine sseed (inibits bits 0)
                          (ws ++ replicate (hc - hci) (inibits bits 0)) 0, [])
                 (Machine (Z.land (decode_number m sseed) (bmask bits)) 0
                          (map (λ v, Z.land v (bmask bits)) (decode_words m ws)
                           ++ replicate (hc - hci) 0) 0, [])).
  { split; [|reflexivity]. cbn [fst snd]. unfold machine_rel.
    cbn [m_seed m_lcg m_h m_x].
    split; [apply unknown_word_related; try exact Hb;
            unfold sseed; rewrite length_map, length_seq; reflexivity|].
    split; [apply word_rel_inibits|].
    split; [|reflexivity].
    apply key_hash_related; try exact Hb. apply Forall_key_words. }
  pose proof (warm_up_related m bits Hev Hb hc _ _ _ _ H0 W1 W2) as [H1 H1'].
  destruct (inject_related m bits Hev Hb ivlen hc iv _ _ _ _ _ _ _ _ _ _ _
              H1 H1' I1 I2) as [H2 H2'].
  assert (H2r : run_rel m bits (ss2, slog2) (cs2, clog2)) by (split; assumption).
  pose proof (advance_related m bits Hev Hb _ hc _ _ _ _ H2r A1 A2) as [H3 H3'].
  assert (Hfw : firewall_rel m bits
                  (Tango642.Firewall (inibits bits 0) (inibits bits 0)
                     (inibits bits 0) (inibits bits 0) (inibits bits 0)
                     (inibits bits 0) (inibits bits 0) (inibits bits 0)
                     [inibits bits 0; inibits bits 0; inibits bits 0;
                      inibits bits 0; inibits bits 0] 0)
                  (Tango642.Firewall 0 0 0 0 0 0 0 0 [0; 0; 0; 0; 0] 0)).
  { unfold firewall_rel.
    cbn [Tango642.seed1 Tango642.lcg1 Tango642.seed2 Tango642.lcg2
         Tango642.seed3 Tango642.lcg3 Tango642.seed4 Tango642.lcg4
         Tango642.h2 Tango642.x2].
    split_and!; try apply word_rel_inibits; try reflexivity.
    do 5 (constructor; [apply word_rel_inibits|]). constructor. }
  destruct (tango_rounds_related m bits Hev Hb hc fc (fc + num_obs) obs
              _ _ _ _ _ _ _ _ _ _ _ _ _ _ H3 Hfw H3' R1 Ec) as [G1 G2].
  split; [exact G1|].
  replace (4 * (fc + num_obs - fc))%nat with (4 * num_obs)%nat in G2 by lia.
  exact G2.
Qed.

Lemma tango_calc_run_min bits hci ivlen hc fc num_obs seed_i (hcv iv : list Z) :
  Tango642.calc_run bits hci ivlen hc fc num_obs seed_i hcv iv
  = Tango642.calc_run bits (Nat.min hci hc) ivlen hc fc num_obs seed_i hcv iv.
Proof.
  unfold Tango642.calc_run, Tango642.init_calc_h. rewrite !fill_calc_h.
  replace (Nat.min (Nat.min hci hc) hc) with (Nat.min hci hc) by lia.
  replace (hc - Nat.min hci hc)%nat with (hc - hci)%nat by lia.
  reflexivity.
Qed.

Lemma tango_instance_key bits hci ivlen hc fc num_obs (iv obs : list Z) inst :
  Tango642.sat_run bits hci ivlen hc fc num_obs iv obs = Some inst →
  Tango642.start_seed inst = map BVar (seq (0 * bits) bits)
  ∧ Tango642.start_h inst = key_words bits (1 * bits) (Nat.min hci hc).
Proof.
  intros Es. unfold Tango642.sat_run in Es. cbn [new_vars] in Es.
  unfold Tango642.init_h in Es. rewrite fill_h in Es.
  cbn [mbind option_bind] in Es.
  destruct (warm_up (sat bits) hc _) as [s1|]; [|discriminate].
  cbn [mbind option_bind] in Es.
  destruct (Tango642.sat_inject bits ivlen hc iv _)
    as [[[ss2 slog2] p2]|]; [|discriminate].
  cbn [mbind option_bind] in Es.
  destruct (advance (sat bits) (hc + 1) hc _) as [s3|]; [|discriminate].
  cbn [mbind option_bind] in Es.
  destruct (for_in (range (fc + num_obs)) _ _)
    as [[[[ss' fw'] slog'] cns]|]; [|discriminate].
  cbn [mbind option_bind] in Es. injection Es as <-.
  cbn [Tango642.start_seed Tango642.start_h].
  replace (0 * bits)%nat with 0%nat by lia.
  replace (1 * bits)%nat with (0 + bits)%nat by lia.
  auto.
Qed.

Lemma tango_solutions bits hci ivlen hc fc num_obs (iv obs : list Z) :
  Nat.Even bits → (0 < bits)%nat → (0 < hc)%nat →
  (ivlen ≤ length iv)%nat → (4 * num_obs ≤ length obs)%nat →
  ∃ inst,
    Tango642.sat_run bits hci ivlen hc fc num_obs iv obs = Some inst
    ∧ ∀ m,
        satisfies m (Tango642.constraints inst)
        ↔ ∃ st fw log,
            Tango642.calc_run bits hci ivlen hc fc num_obs
              (decode_number m (Tango642.start_seed inst))
              (decode_words m (Tango642.start_h inst)) iv
            = Some (st, fw, log, seen bits (4 * num_obs) obs).
Proof.
  intros Hev Hb Hhc Hiv Hobs.
  destruct (tango_sat_run bits hci ivlen hc fc num_obs iv obs Hev Hb Hhc Hiv Hobs)
    as (inst & Es & _).
  exists inst. split; [exact Es|]. intros m.
  destruct (tango_instance_key _ _ _ _ _ _ _ _ _ Es) as [_ Kh].
  assert (Hlen : length (decode_words m (Tango642.start_h inst))
                 = Nat.min hci hc).
  { rewrite Kh. unfold decode_words.
    rewrite length_map, length_key_words. reflexivity. }
  destruct (tango_calc_run bits (Nat.min hci hc) ivlen hc fc num_obs
              (decode_number m (Tango642.start_seed inst))
              (decode_words m (Tango642.start_h inst)) iv Hhc ltac:(lia) Hiv)
    as (st & fw & log & cobs & Ec & _).
  rewrite <- tango_calc_run_min in Ec.
  destruct (tango_related m bits hci ivlen hc fc num_obs iv obs inst st fw log
              cobs Hev Hb Es Ec) as [_ Hiff].
  rewrite Hiff. split.
  - intros <-. exists st, fw, log. exact Ec.
  - intros (st' & fw'' & log' & Ec'). rewrite Ec in Ec'. congruence.
Qed.

(** [X17] What the SAT instance of t642_sat.py says: for an even positive
    width, [hc > 0], a nonce vector of at least [ivlen] words and at least
    [4 * num_obs] observations, the symbolic run returns an instance, and a
    model satisfies its constraints exactly when the concrete run with the
    same nonce, started from the seed and hash words the model gives the
    unknowns, returns the first [4 * num_obs] observations (each modulo
    [2^bits]). *)
Theorem tango_instance_solutions (bits hci ivlen hc fc num_obs : nat)
    (iv obs : list Z) :
  Nat.Even bits → (0 < bits)%nat → (0 < hc)%nat →
  (ivlen ≤ length iv)%nat → (4 * num_obs ≤ length obs)%nat →
  ∃ inst,
    Tango642.sat_run bits hci ivlen hc fc num_obs iv obs = Some inst
    ∧ ∀ m,
        satisfies m (Tango642.constraints inst)
        ↔ ∃ st fw log,
            Tango642.calc_run bits hci ivlen hc fc num_obs
              (decode_number m (Tango642.start_seed inst))
              (decode_words m (Tango642.start_h inst)) iv
            = Some (st, fw, log, seen bits (4 * num_obs) obs).
Proof. exact (tango_solutions bits hci ivlen hc fc num_obs iv obs). Qed.

Lemma tango_instance_solutions_witness :
  ∃ inst,
    Tango642.sat_run 6 2 4 16 15 1 [15; 9; 4; 6] [1; 2; 3; 4] = Some inst
    ∧ ∀ m,
        satisfies m (Tango642.constraints inst)
        ↔ ∃ st fw log,
            Tango642.calc_run 6 2 4 16 15 1
              (decode_number m (Tango642.start_seed inst))
              (decode_words m (Tango642.start_h inst)) [15; 9; 4; 6]
            = Some (st, fw, log, seen 6 (4 * 1) [1; 2; 3; 4]).
Proof.
  apply (tango_instance_solutions 6 2 4 16 15 1 [15; 9; 4; 6] [1; 2; 3; 4]);
    [exists 3%nat; reflexivity | lia | lia | cbn; lia | cbn; lia].
Defined.

(** ** The key of t642_sat.py as a model *)

Lemma tango_obs_range bits hci ivlen hc fc num_obs seed_i (hcv iv : list Z)
    st fw log obs :
  (0 < hc)%nat → (Nat.min hci hc ≤ length hcv)%nat → (ivlen ≤ length iv)%nat →
  Tango642.calc_run bits hci ivlen hc fc num_obs seed_i hcv iv
  = Some (st, fw, log, obs) →
  length obs = (4 * num_obs)%nat ∧ Forall (λ o, 0 ≤ o < pow2 bits) obs.
Proof.
  intros Hhc Hlen Hiv Ec. rewrite tango_calc_run_min in Ec.
  destruct (tango_calc_run bits (Nat.min hci hc) ivlen hc fc num_obs seed_i hcv
              iv Hhc Hlen Hiv)
    as (st' & fw'' & log' & obs' & Ec' & Hl & _ & Hshape & Ho & Hk & _).
  rewrite Ec in Ec'. injection Ec' as <- <- <- <-.
  split; [exact Ho|].
  apply (proj2 (Forall_lookup_total _ obs)). intros i Hi. rewrite Ho in Hi.
  pose proof (Nat.div_mod_eq i 4) as Hdm.
  pose proof (Nat.mod_upper_bound i 4 ltac:(lia)) as Hm4.
  rewrite Hdm, (Hk (i / 4)%nat (i mod 4)%nat) by lia.
  apply genuine_out_range.
  destruct (Hshape (fc + i / 4)%nat ltac:(lia)) as (_ & F1 & F2 & F3 & s4 & _ & F4).
  destruct (i mod 4)%nat as [|[|[|[|j]]]] eqn:Ej; [| | | |lia];
    cbn [Nat.add].
  - apply F1.
  - apply F2.
  - apply F3.
  - apply F4.
Qed.

Lemma tango_calc_run_key bits hci ivlen hc fc num_obs seed_i (hcv iv : list Z) :
  (Nat.min hci hc ≤ length hcv)%nat →
  Tango642.calc_run bits hci ivlen hc fc num_obs (seed_i mod pow2 bits)
    (map (λ v, v mod pow2 bits) (take (Nat.min hci hc) hcv)) iv
  = Tango642.calc_run bits hci ivlen hc fc num_obs seed_i hcv iv.
Proof.
  intros Hlen. unfold Tango642.calc_run, Tango642.init_calc_h.
  rewrite !fill_calc_h.
  rewrite length_map, length_take.
  replace (Nat.min hci hc <=? Nat.min (Nat.min hci hc) (length hcv))%nat
    with true by (symmetry; apply Nat.leb_le; lia).
  replace (Nat.min hci hc <=? length hcv)%nat
    with true by (symmetry; apply Nat.leb_le; lia).
  rewrite <- (length_take_le hcv (Nat.min hci hc)) at 1 by exact Hlen.
  rewrite <- (length_map (λ v, v mod pow2 bits)), firstn_all.
  rewrite map_map.
  rewrite (map_ext (λ x, Z.land (x mod pow2 bits) (bmask bits))
             (λ v, Z.land v (bmask bits)))
    by (intros v; rewrite !land_bmask, Z.mod_mod
          by (pose proof (pow2_pos bits); lia); reflexivity).
  rewrite !land_bmask, !Z.mod_mod by (pose proof (pow2_pos bits); lia).
  reflexivity.
Qed.

Lemma tango_key_model bits hci ivlen hc fc num_obs seed_i (hcv iv : list Z) :
  Nat.Even bits → (0 < bits)%nat → (0 < hc)%nat →
  (Nat.min hci hc ≤ length hcv)%nat → (ivlen ≤ length iv)%nat →
  ∃ obs inst,
    Tango642.script bits hci ivlen hc fc num_obs seed_i hcv iv
    = Some (obs, inst)
    ∧ satisfies (key_model bits (seed_i :: hcv)) (Tango642.constraints inst)
    ∧ decode_number (key_model bits (seed_i :: hcv)) (Tango642.start_seed inst)
      = Z.land seed_i (bmask bits)
    ∧ decode_words (key_model bits (seed_i :: hcv)) (Tango642.start_h inst)
      = map (λ v, Z.land v (bmask bits)) (take (Nat.min hci hc) hcv).
Proof.
  intros Hev Hb Hhc Hlen Hiv.
  destruct (tango_calc_run bits (Nat.min hci hc) ivlen hc fc num_obs seed_i hcv
              iv Hhc Hlen Hiv) as (st & fw & log & obs & Ec & _).
  rewrite <- tango_calc_run_min in Ec.
  destruct (tango_obs_range bits hci ivlen hc fc num_obs seed_i hcv iv st fw log
              obs Hhc Hlen Hiv Ec) as [Ho Hr].
  destruct (tango_solutions bits hci ivlen hc fc num_obs iv obs Hev Hb Hhc Hiv
              ltac:(lia)) as (inst & Es & Hsol).
  destruct (tango_instance_key _ _ _ _ _ _ _ _ _ Es) as (Kseed & Kh).
  set (m := key_model bits (seed_i :: hcv)) in *.
  assert (Dseed : decode_number m (Tango642.start_seed inst)
                  = seed_i mod pow2 bits).
  { rewrite Kseed. apply decode_key_word. reflexivity. }
  assert (Dh : decode_words m (Tango642.start_h inst)
               = map (λ v, v mod pow2 bits) (take (Nat.min hci hc) hcv)).
  { rewrite Kh. exact (decode_key_words bits [seed_i] hcv _ Hlen). }
  exists obs, inst. split; [|split; [|split]].
  - unfold Tango642.script. rewrite Ec. cbn [mbind option_bind].
    rewrite Es. reflexivity.
  - apply Hsol. exists st, fw, log.
    rewrite Dseed, Dh, tango_calc_run_key by exact Hlen.
    rewrite (seen_id bits (4 * num_obs) obs Ho Hr). exact Ec.
  - rewrite land_bmask. exact Dseed.
  - rewrite Dh. apply map_ext. intros v. rewrite land_bmask. reflexivity.
Qed.

(** [X18] The instance of t642_sat.py is satisfiable by the key: for an even
    positive width, [hc > 0], a key vector of at least [min hci hc] words
    and a nonce vector of at least [ivlen] words, the script returns, and
    the model that gives the unknown bits the bits of [seed_i] and of the
    key words satisfies every constraint and decodes [start_seed] and
    [start_h] to the masked key values the script prints beside them. *)
Theorem tango_key_solves_instance (bits hci ivlen hc fc num_obs : nat)
    (seed_i : Z) (hcv iv : list Z) :
  Nat.Even bits → (0 < bits)%nat → (0 < hc)%nat →
  (Nat.min hci hc ≤ length hcv)%nat → (ivlen ≤ length iv)%nat →
  ∃ obs inst,
    Tango642.script bits hci ivlen hc fc num_obs seed_i hcv iv
    = Some (obs, inst)
    ∧ satisfies (key_model bits (seed_i :: hcv)) (Tango642.constraints inst)
    ∧ decode_number (key_model bits (seed_i :: hcv)) (Tango642.start_seed inst)
      = Z.land seed_i (bmask bits)
    ∧ decode_words (key_model bits (seed_i :: hcv)) (Tango642.start_h inst)
      = map (λ v, Z.land v (bmask bits)) (take (Nat.min hci hc) hcv).
Proof.
  exact (tango_key_model bits hci ivlen hc fc num_obs seed_i hcv iv).
Qed.

Lemma tango_key_solves_instance_witness :
  ∃ obs inst,
    Tango642.script 6 2 4 16 15 16 4 [3; 14; 3; 13] [15; 9; 4; 6]
    = Some (obs, inst)
    ∧ satisfies (key_model 6 (4 :: [3; 14; 3; 13])) (Tango642.constraints inst)
    ∧ decode_number (key_model 6 (4 :: [3; 14; 3; 13]))
        (Tango642.start_seed inst)
      = Z.land 4 (bmask 6)
    ∧ decode_words (key_model 6 (4 :: [3; 14; 3; 13])) (Tango642.start_h inst)
      = map (λ v, Z.land v (bmask 6)) (take (Nat.min 2 16) [3; 14; 3; 13]).
Proof.
  apply (tango_key_solves_instance 6 2 4 16 15 16 4 [3; 14; 3; 13]
           [15; 9; 4; 6]);
    [exists 3%nat; reflexivity | lia | lia | cbn; lia | cbn; lia].
Defined.

(** ** Every model, the round constants and odd widths *)

(** ** The runs under a model *)

(** [X19] The symbolic runs follow the concrete runs under every model, not
    only under solutions: for an even positive width, [hc > 0] and enough
    nonce words and observations, the symbolic run of either script
    returns, the concrete run from the key the model gives the unknowns
    returns, and the symbolic log of calls decodes, call by call, to the
    concrete log. *)
Theorem runs_decode_under_any_model (m : nat → bool)
    (bits hci ivlen hc fc num_obs : nat) (iv obs : list Z) :
  Nat.Even bits → (0 < bits)%nat → (0 < hc)%nat → (ivlen ≤ length iv)%nat →
  (4 * num_obs ≤ length obs)%nat →
  (∃ inst st log cobs,
     Gradilac.sat_run bits hci hc num_obs obs = Some inst
     ∧ Gradilac.calc_run bits hci hc num_obs
         (decode_number m (Gradilac.start_seed inst))
         (decode_number m (Gradilac.start_lcg inst))
         (decode_words m (Gradilac.start_h inst)) = Some (st, log, cobs)
     ∧ map (shown_sat m) (Gradilac.sat_log inst) = map shown_calc log)
  ∧ (∃ inst st fw log cobs,
       Tango642.sat_run bits hci ivlen hc fc num_obs iv obs = Some inst
       ∧ Tango642.calc_run bits hci ivlen hc fc num_obs
           (decode_number m (Tango642.start_seed inst))
           (decode_words m (Tango642.start_h inst)) iv
         = Some (st, fw, log, cobs)
       ∧ map (shown_sat m) (Tango642.sat_log inst) = map shown_calc log).
Proof.
  intros Hev Hb Hhc Hiv Hobs. split.
  - destruct (gradilac_sat_run bits hci hc num_obs obs Hev Hb Hhc ltac:(lia))
      as (inst & Es & _).
    destruct (gradilac_instance_key _ _ _ _ _ _ Es) as (_ & _ & Kh).
    destruct (gradilac_calc_run bits (Nat.min hci hc) hc num_obs
                (decode_number m (Gradilac.start_seed inst))
                (decode_number m (Gradilac.start_lcg inst))
                (decode_words m (Gradilac.start_h inst)) Hhc)
      as (st & log & cobs & Ec & _).
    { rewrite Kh. unfold decode_words.
      rewrite length_map, length_key_words. lia. }
    rewrite <- gradilac_calc_run_min in Ec.
    exists inst, st, log, cobs. split; [exact Es|]. split; [exact Ec|].
    exact (proj1 (gradilac_related m bits hci hc num_obs obs inst st log cobs
                    Hev Hb Es Ec)).
  - destruct (tango_sat_run bits hci ivlen hc fc num_obs iv obs Hev Hb Hhc Hiv
                Hobs) as (inst & Es & _).
    destruct (tango_instance_key _ _ _ _ _ _ _ _ _ Es) as (_ & Kh).
    destruct (tango_calc_run bits (Nat.min hci hc) ivlen hc fc num_obs
                (decode_number m (Tango642.start_seed inst))
                (decode_words m (Tango642.start_h inst)) iv Hhc)
      as (st & fw & log & cobs & Ec & _).
    { rewrite Kh. unfold decode_words.
      rewrite length_map, length_key_words. lia. }
    { exact Hiv. }
    rewrite <- tango_calc_run_min in Ec.
    exists inst, st, fw, log, cobs. split; [exact Es|]. split; [exact Ec|].
    exact (proj1 (tango_related m bits hci ivlen hc fc num_obs iv obs inst st fw
                    log cobs Hev Hb Es Ec)).
Qed.

Lemma runs_decode_under_any_model_witness :
  (∃ inst st log cobs,
     Gradilac.sat_run 6 2 16 1 [1; 2; 3; 4] = Some inst
     ∧ Gradilac.calc_run 6 2 16 1
         (decode_number Nat.even (Gradilac.start_seed inst))
         (decode_number Nat.even (Gradilac.start_lcg inst))
         (decode_words Nat.even (Gradilac.start_h inst)) = Some (st, log, cobs)
     ∧ map (shown_sat Nat.even) (Gradilac.sat_log inst) = map shown_calc log)
  ∧ (∃ inst st fw log cobs,
       Tango642.sat_run 6 2 4 16 15 1 [15; 9; 4; 6] [1; 2; 3; 4] = Some inst
       ∧ Tango642.calc_run 6 2 4 16 15 1
           (decode_number Nat.even (Tango642.start_seed inst))
           (decode_words Nat.even (Tango642.start_h inst)) [15; 9; 4; 6]
         = Some (st, fw, log, cobs)
       ∧ map (shown_sat Nat.even) (Tango642.sat_log inst) = map shown_calc log).
Proof.
  apply (runs_decode_under_any_model Nat.even 6 2 4 16 15 1 [15; 9; 4; 6]
           [1; 2; 3; 4]);
    [exists 3%nat; reflexivity | lia | lia | cbn; lia | cbn; lia].
Defined.

(** ** The round constants as masks *)

Lemma replicate_group_double n : replicate_group 2 n = 2 * replicate_group 1 n.
Proof. induction n as [|n IH]; cbn [replicate_group]; lia. Qed.

Lemma replicate_group_thirds n : 3 * replicate_group 1 n = pow2 (2 * n) - 1.
Proof.
  induction n as [|n IH]; cbn [replicate_group]; [reflexivity|].
  replace (2 * S n)%nat with (S (S (2 * n))) by lia.
  rewrite !pow2_S. lia.
Qed.

(** [X20] The round constants: [rawbitsA] is twice [rawbits5], and three
    times [rawbits5] is [2^(2 * (bits / 2)) - 1]; for an even width the two
    constants have no bit in common and add up to the mask [bmask], so
    every bit of the word is in exactly one of them. *)
Theorem round_constants_fill_the_width (bits : nat) :
  rawbitsA bits = 2 * rawbits5 bits
  ∧ 3 * rawbits5 bits = 2 ^ Z.of_nat (2 * (bits / 2)) - 1
  ∧ (Nat.Even bits →
     rawbits5 bits + rawbitsA bits = bmask bits
     ∧ Z.land (rawbits5 bits) (rawbitsA bits) = 0).
Proof.
  rewrite rawbitsA_spec, rawbits5_spec. unfold ROUND_CONST_A, ROUND_CONST_B.
  split; [apply replicate_group_double|].
  split; [apply replicate_group_thirds|].
  intros Hev. apply even_halves in Hev.
  pose proof (replicate_group_thirds (bits / 2)) as H3.
  replace (2 * (bits / 2))%nat with bits in H3 by lia.
  assert (Hs : replicate_group 1 (bits / 2) + replicate_group 2 (bits / 2)
               = bmask bits).
  { rewrite replicate_group_double. unfold bmask.
    rewrite Z.shiftl_1_l. fold (pow2 bits). lia. }
  split; [exact Hs|].
  clear Hs H3 Hev. induction (bits / 2)%nat as [|n IH];
    cbn [replicate_group]; [reflexivity|].
  change 1 with (Z.b2z true + 2 * 0) at 1.
  change 2 with (Z.b2z false + 2 * 1) at 2.
  replace (Z.b2z true + 2 * 0 + 4 * replicate_group 1 n)
    with (Z.b2z true + 2 * (Z.b2z false + 2 * replicate_group 1 n))
    by (cbn [Z.b2z]; lia).
  replace (Z.b2z false + 2 * 1 + 4 * replicate_group 2 n)
    with (Z.b2z false + 2 * (Z.b2z true + 2 * replicate_group 2 n))
    by (cbn [Z.b2z]; lia).
  rewrite !land_cons, IH. reflexivity.
Qed.

Lemma round_constants_fill_the_width_witness :
  rawbits5 6 + rawbitsA 6 = bmask 6 ∧ Z.land (rawbits5 6) (rawbitsA 6) = 0.
Proof.
  apply (proj2 (proj2 (round_constants_fill_the_width 6))).
  exists 3%nat. reflexivity.
Defined.

(** ** An odd width *)

Lemma odd_width_halves bits :
  Nat.Odd bits → (bits = bits2 bits + bits2 bits + 1)%nat.
Proof.
  intros Ho. rewrite bits2_half. apply Nat.odd_spec in Ho.
  pose proof (odd_half bits) as H. rewrite Ho in H.
  change (Nat.b2n true) with 1%nat in H. lia.
Qed.

Lemma odd_width_sat_h m bits :
  Nat.Odd bits →
  ∃ r, prvhash_core_sat bits (inibits bits (pow2 (bits2 bits)))
         (inibits bits 0) (inibits bits 0) = Some r
       ∧ decode_number m (res_h r) = (1 + rawbitsA bits) mod pow2 bits.
Proof.
  intros Ho. pose proof (odd_width_halves bits Ho) as Hb.
  set (n := bits2 bits) in *.
  pose proof (pow2_pos n) as Hpn. pose proof (pow2_pos bits) as Hpb.
  assert (HP : pow2 bits = 2 * (pow2 n * pow2 n)).
  { rewrite Hb at 1. rewrite Nat.add_1_r, pow2_S, pow2_add. reflexivity. }
  assert (Hsq : pow2 n ≤ pow2 n * pow2 n) by nia.
  assert (Hlt : pow2 n < pow2 bits) by lia.
  unfold prvhash_core_sat. fold n.
  destruct (mul_spec m (inibits bits (pow2 n))
              ([BConst true] ++ drop_last 1 (inibits bits 0)))
    as (s1 & E1 & L1 & D1).
  { rewrite length_app. unfold drop_last.
    rewrite length_take, !length_inibits. cbn [length]. lia. }
  rewrite E1. cbn [mbind option_bind].
  rewrite length_inibits in L1, D1.
  assert (D1' : decode_number m s1 = pow2 n).
  { rewrite D1, decode_inibits, decode_number_app. unfold drop_last.
    rewrite decode_number_take, decode_inibits by lia.
    cbn [decode_number length eval].
    rewrite (Z.mod_0_l (pow2 bits)) by lia.
    rewrite Z.mod_0_l
      by (pose proof (pow2_pos (length (inibits bits 0) - 1)); lia).
    rewrite (Z.mod_small (pow2 n)) by lia.
    change (Z.b2z true) with 1.
    replace (pow2 n * (1 + 2 * 0 + pow2 1 * 0)) with (pow2 n) by ring.
    apply Z.mod_small. lia. }
  set (rs := drop n s1 ++ take n s1) in *.
  assert (Lrs : length rs = bits)
    by (unfold rs; rewrite length_app, length_drop, length_take; lia).
  assert (Drs : decode_number m rs = 1).
  { unfold rs. rewrite decode_number_app, decode_number_drop,
      decode_number_take by lia.
    rewrite D1', Z.div_same, Z.mod_same by lia. lia. }
  destruct (add_spec m rs (BITRA bits)) as (t1 & E2 & L2 & D2).
  { rewrite length_BITRA. exact Lrs. }
  rewrite E2. cbn [mbind option_bind].
  destruct (add_spec m (inibits bits 0) t1) as (h1 & E3 & L3 & D3).
  { rewrite length_inibits. lia. }
  rewrite E3. cbn [mbind option_bind].
  destruct (add_spec m s1 (BITR5 bits)) as (t2 & E4 & L4 & _).
  { rewrite length_BITR5. exact L1. }
  rewrite E4. cbn [mbind option_bind].
  destruct (add_spec m (inibits bits 0) t2) as (l1 & E5 & L5 & _).
  { rewrite length_inibits. lia. }
  rewrite E5. cbn [mbind option_bind].
  destruct (xor_spec m s1 h1) as (s2 & E6 & L6 & _).
  { rewrite length_inibits in L3. lia. }
  rewrite E6. cbn [mbind option_bind].
  destruct (xor_spec m l1 rs) as (o1 & E7 & L7 & _).
  { rewrite length_inibits in L5. lia. }
  rewrite E7. cbn [mbind option_bind].
  eexists. split; [reflexivity|]. cbn [res_h fst snd].
  rewrite D3, D2, Drs, Lrs, length_inibits, decode_inibits.
  unfold BITRA. rewrite decode_inibits.
  rewrite Z.mod_0_l by lia. rewrite Z.add_0_l, Z.mod_mod by lia.
  rewrite Z.add_mod_idemp_r by lia. reflexivity.
Qed.

Lemma odd_width_calc_h bits :
  Nat.Odd bits → (3 ≤ bits)%nat →
  res_h (prvhash_core_calc bits (pow2 (bits2 bits)) 0 0)
  = (pow2 (bits2 bits) * pow2 (bits2 bits) + (1 + rawbitsA bits)) mod pow2 bits.
Proof.
  intros Ho H3. pose proof (odd_width_halves bits Ho) as Hb.
  set (n := bits2 bits) in *.
  pose proof (pow2_pos n) as Hpn. pose proof (pow2_pos bits) as Hpb.
  assert (HP : pow2 bits = 2 * (pow2 n * pow2 n)).
  { rewrite Hb at 1. rewrite Nat.add_1_r, pow2_S, pow2_add. reflexivity. }
  assert (Hsq : pow2 n ≤ pow2 n * pow2 n) by nia.
  assert (Hlt : pow2 n < pow2 bits) by lia.
  assert (Hn1 : 2 ≤ pow2 n).
  { destruct n as [|n']; [lia|]. rewrite pow2_S.
    pose proof (pow2_pos n'). lia. }
  unfold prvhash_core_calc. fold n. cbn [res_h fst snd].
  rewrite !land_bmask.
  replace (pow2 n * (0 * 2 + 1)) with (pow2 n) by ring.
  rewrite (Z.mod_small (pow2 n)) by lia.
  rewrite Z.lor_comm, Z.shiftr_div_pow2 by lia. fold (pow2 n).
  rewrite Z.div_same by lia.
  rewrite lor_shiftl_low by (unfold pow2 in Hn1; lia). fold (pow2 n).
  rewrite (Z.mod_small (pow2 n * pow2 n + 1)) by lia.
  f_equal. ring.
Qed.

(** [X21] Odd widths break the agreement of the two steps: for every odd
    width of at least 3, on the constant inputs seed [2^(bits / 2)], lcg 0
    and h 0 the symbolic step returns, but the hash word it returns decodes,
    under every model, to a value other than the one the concrete step
    returns. The concrete step ors two shifts by [bits / 2], which is no
    rotation of an odd number of bits; the symbolic step rotates the
    vector. *)
Theorem odd_width_diverges (m : nat → bool) (bits : nat) :
  Nat.Odd bits → (3 ≤ bits)%nat →
  ∃ r, prvhash_core_sat bits (inibits bits (2 ^ Z.of_nat (bits / 2)))
         (inibits bits 0) (inibits bits 0) = Some r
       ∧ decode_number m (res_h r)
         ≠ res_h (prvhash_core_calc bits (2 ^ Z.of_nat (bits / 2)) 0 0).
Proof.
  intros Ho H3. fold (pow2 (bits / 2)). rewrite <- bits2_half.
  destruct (odd_width_sat_h m bits Ho) as (r & E & D).
  exists r. split; [exact E|].
  rewrite D, (odd_width_calc_h bits Ho H3).
  pose proof (odd_width_halves bits Ho) as Hb.
  set (n := bits2 bits) in *.
  pose proof (pow2_pos n) as Hpn. pose proof (pow2_pos bits) as Hpb.
  assert (HP : pow2 bits = 2 * (pow2 n * pow2 n)).
  { rewrite Hb at 1. rewrite Nat.add_1_r, pow2_S, pow2_add. reflexivity. }
  assert (Hsq : pow2 n ≤ pow2 n * pow2 n) by nia.
  assert (Hlt : pow2 n < pow2 bits) by lia.
  intros Heq.
  assert (H0 : (pow2 n * pow2 n) mod pow2 bits = 0).
  { replace (pow2 n * pow2 n)
      with (pow2 n * pow2 n + (1 + rawbitsA bits) - (1 + rawbitsA bits))
      by ring.
    rewrite Zminus_mod, <- Heq, Z.sub_diag. apply Z.mod_0_l. lia. }
  rewrite Z.mod_small in H0 by lia. lia.
Qed.

Lemma odd_width_diverges_witness :
  ∃ r, prvhash_core_sat 3 (inibits 3 (2 ^ Z.of_nat (3 / 2)))
         (inibits 3 0) (inibits 3 0) = Some r
       ∧ decode_number (λ _, false) (res_h r)
         ≠ res_h (prvhash_core_calc 3 (2 ^ Z.of_nat (3 / 2)) 0 0).
Proof.
  apply (odd_width_diverges (λ _, false) 3); [exists 1%nat; reflexivity | lia].
Defined.

(** ** When the concrete runs return *)

Lemma calc_inject_loop bits ivlen hc iv s :
  Tango642.calc_inject bits ivlen hc iv s
  = for_in (range hc) (calc_inject_body bits ivlen hc iv) s.
Proof.
  unfold Tango642.calc_inject. apply for_in_ext.
  intros i [[st log] ivpos]. reflexivity.
Qed.

(** After [n] steps of the pass [min (n / 2) ivlen] nonce words are
    consumed. *)
Lemma inject_prefix_ivpos bits ivlen hc (iv : list Z) n st log st' log' p :
  for_in (seq 0 n) (calc_inject_body bits ivlen hc iv) (st, log, 0%nat)
  = Some (st', log', p) →
  p = Nat.min (n / 2) ivlen.
Proof.
  revert st' log' p. induction n as [|n IH]; intros st' log' p E.
  - cbn in E. injection E as <- <- <-. reflexivity.
  - rewrite seq_S, for_in_app in E. cbn [Nat.add] in E.
    destruct (for_in (seq 0 n) _ _) as [[[st1 log1] p1]|] eqn:E1;
      [|discriminate].
    cbn [mbind option_bind for_in] in E.
    rewrite (IH st1 log1 p1 eq_refl) in E.
    unfold calc_inject_body in E. rewrite inject_condition in E.
    rewrite <- (ivpos_next ivlen n).
    destruct (injected ivlen n).
    + destruct (iv !! Nat.min (n / 2) ivlen) as [w|]; [|discriminate].
      cbn [mbind option_bind] in E.
      destruct (step (calc bits) hc _ log1) as [[[st2 o] log2]|];
        [|discriminate].
      cbn [mbind option_bind] in E. injection E as <- <- <-. reflexivity.
    + cbn [mbind option_bind] in E.
      destruct (step (calc bits) hc st1 log1) as [[[st2 o] log2]|];
        [|discriminate].
      cbn [mbind option_bind] in E. injection E as <- <- <-. reflexivity.
Qed.

Lemma odd_below_half n hc :
  Nat.odd n = true → (n < hc)%nat → (n / 2 < hc / 2)%nat.
Proof.
  intros Ho Hn. pose proof (odd_half n) as H1. pose proof (odd_half hc) as H2.
  rewrite Ho in H1. change (Nat.b2n true) with 1%nat in H1.
  destruct (Nat.odd hc); cbn [Nat.b2n] in H2; lia.
Qed.

(** Only the first [hc / 2] nonce words can be reached. *)
Lemma inject_prefix_min bits ivlen hc (iv : list Z) n st log :
  (n ≤ hc)%nat →
  for_in (seq 0 n) (calc_inject_body bits ivlen hc iv) (st, log, 0%nat)
  = for_in (seq 0 n) (calc_inject_body bits (Nat.min ivlen (hc / 2)) hc iv)
      (st, log, 0%nat).
Proof.
  induction n as [|n IH]; intros Hn; [reflexivity|].
  rewrite seq_S, !for_in_app, IH by lia. clear IH. cbn [Nat.add].
  destruct (for_in (seq 0 n)
              (calc_inject_body bits (Nat.min ivlen (hc / 2)) hc iv)
              (st, log, 0%nat)) as [[[st1 log1] p1]|] eqn:E1;
    [|reflexivity].
  cbn [mbind option_bind for_in].
  apply inject_prefix_ivpos in E1. f_equal.
  unfold calc_inject_body.
  replace ((Nat.land n 1 =? 1)%nat && (p1 <? Nat.min ivlen (hc / 2))%nat)
    with ((Nat.land n 1 =? 1)%nat && (p1 <? ivlen)%nat); [reflexivity|].
  rewrite land_1_odd. destruct (Nat.odd n) eqn:Ho; [|reflexivity].
  cbn [andb]. pose proof (odd_below_half n hc Ho ltac:(lia)) as Hh.
  destruct (p1 <? ivlen)%nat eqn:A, (p1 <? Nat.min ivlen (hc / 2))%nat eqn:B;
    try reflexivity.
  - apply Nat.ltb_lt in A. apply Nat.ltb_ge in B. lia.
  - apply Nat.ltb_ge in A. apply Nat.ltb_lt in B. lia.
Qed.

Lemma calc_inject_min bits ivlen hc (iv : list Z) st log :
  Tango642.calc_inject bits ivlen hc iv (st, log, 0%nat)
  = Tango642.calc_inject bits (Nat.min ivlen (hc / 2)) hc iv (st, log, 0%nat).
Proof.
  rewrite !calc_inject_loop. unfold range.
  apply inject_prefix_min. lia.
Qed.

(** The pass reads past the end of a nonce vector that is too short. *)
Lemma calc_inject_short bits ivlen hc (iv : list Z) st log :
  (length iv < Nat.min ivlen (hc / 2))%nat →
  Tango642.calc_inject bits ivlen hc iv (st, log, 0%nat) = None.
Proof.
  intros Hlen. rewrite calc_inject_loop. unfold range.
  set (i := (length iv * 2 + 1)%nat).
  pose proof (odd_half hc) as Hhc.
  assert (Hi : (i < hc)%nat) by (unfold i; lia).
  replace hc with (i + S (hc - i - 1))%nat at 1 by lia.
  rewrite seq_app, for_in_app. cbn [Nat.add seq].
  destruct (for_in (seq 0 i) _ _) as [[[st1 log1] p1]|] eqn:E1;
    [|reflexivity].
  apply inject_prefix_ivpos in E1.
  assert (Hdiv : (i / 2 = length iv)%nat).
  { unfold i. rewrite Nat.div_add_l by lia. cbn. lia. }
  rewrite Hdiv, Nat.min_l in E1 by lia. subst p1.
  cbn [mbind option_bind for_in].
  assert (E2 : calc_inject_body bits ivlen hc iv i (st1, log1, length iv)
               = None).
  { unfold calc_inject_body. rewrite (land_1_odd i).
    replace (Nat.odd i) with true
      by (symmetry; apply Nat.odd_spec; exists (length iv); unfold i; lia).
    replace (length iv <? ivlen)%nat with true
      by (symmetry; apply Nat.ltb_lt; lia).
    cbn [andb]. rewrite (lookup_ge_None_2 iv (length iv)) by lia.
    reflexivity. }
  rewrite E2. reflexivity.
Qed.

Lemma tango_calc_run_ivmin bits hci ivlen hc fc num_obs seed_i
    (hcv iv : list Z) :
  Tango642.calc_run bits hci ivlen hc fc num_obs seed_i hcv iv
  = Tango642.calc_run bits hci (Nat.min ivlen (hc / 2)) hc fc num_obs seed_i
      hcv iv.
Proof.
  unfold Tango642.calc_run.
  destruct (Tango642.init_calc_h bits hci hc hcv) as [calc_h|]; [|reflexivity].
  cbn [mbind option_bind].
  destruct (warm_up (calc bits) hc _) as [[st log]|]; [|reflexivity].
  cbn [mbind option_bind fst snd].
  rewrite calc_inject_min. reflexivity.
Qed.

Lemma gradilac_calc_run_returns bits hci hc num_obs seed_i lcg_i (hcv : list Z) :
  is_Some (Gradilac.calc_run bits hci hc num_obs seed_i lcg_i hcv)
  ↔ (0 < hc)%nat ∧ (Nat.min hci hc ≤ length hcv)%nat.
Proof.
  split.
  - intros [r E]. destruct hc as [|hc']; [discriminate|].
    split; [lia|].
    unfold Gradilac.calc_run, Gradilac.init_calc_h in E.
    rewrite fill_calc_h in E.
    destruct (Nat.min hci (S hc') <=? length hcv)%nat eqn:L;
      [apply Nat.leb_le in L; exact L | discriminate].
  - intros [Hhc Hlen]. rewrite gradilac_calc_run_min.
    destruct (gradilac_calc_run bits (Nat.min hci hc) hc num_obs seed_i lcg_i
                hcv Hhc Hlen) as (st & log & obs & E & _).
    rewrite E. eexists. reflexivity.
Qed.

Lemma tango_calc_run_returns bits hci ivlen hc fc num_obs seed_i
    (hcv iv : list Z) :
  is_Some (Tango642.calc_run bits hci ivlen hc fc num_obs seed_i hcv iv)
  ↔ (0 < hc)%nat ∧ (Nat.min hci hc ≤ length hcv)%nat
    ∧ (Nat.min ivlen (hc / 2) ≤ length iv)%nat.
Proof.
  split.
  - intros [r E]. destruct hc as [|hc']; [discriminate|].
    split; [lia|].
    unfold Tango642.calc_run, Tango642.init_calc_h in E.
    rewrite fill_calc_h in E.
    destruct (Nat.min hci (S hc') <=? length hcv)%nat eqn:L; [|discriminate].
    apply Nat.leb_le in L. split; [exact L|].
    cbn [mbind option_bind] in E.
    destruct (warm_up (calc bits) (S hc') _) as [[st log]|]; [|discriminate].
    cbn [mbind option_bind fst snd] in E.
    destruct (Nat.le_gt_cases (Nat.min ivlen (S hc' / 2)) (length iv))
      as [Hle|Hgt]; [exact Hle|].
    rewrite (calc_inject_short bits ivlen (S hc') iv st log Hgt) in E.
    discriminate.
  - intros (Hhc & Hlen & Hiv).
    rewrite tango_calc_run_ivmin, tango_calc_run_min.
    destruct (tango_calc_run bits (Nat.min hci hc) (Nat.min ivlen (hc / 2)) hc
                fc num_obs seed_i hcv iv Hhc Hlen Hiv)
      as (st & fw & log & obs & E & _).
    rewrite E. eexists. reflexivity.
Qed.

(** [X22] When the concrete runs return: the run of gradilac_sat.py returns
    exactly when [hc > 0] and the key vector has at least [min hci hc]
    words; the run of t642_sat.py returns exactly when moreover the nonce
    vector has at least [min ivlen (hc / 2)] words, since the pass over the
    nonce reads one word at each odd index below [hc]. In every other case
    an index or a division raises. *)
Theorem concrete_runs_return_iff (bits hci ivlen hc fc num_obs : nat)
    (seed_i lcg_i : Z) (hcv iv : list Z) :
  (is_Some (Gradilac.calc_run bits hci hc num_obs seed_i lcg_i hcv)
   ↔ (0 < hc)%nat ∧ (Nat.min hci hc ≤ length hcv)%nat)
  ∧ (is_Some (Tango642.calc_run bits hci ivlen hc fc num_obs seed_i hcv iv)
     ↔ (0 < hc)%nat ∧ (Nat.min hci hc ≤ length hcv)%nat
       ∧ (Nat.min ivlen (hc / 2) ≤ length iv)%nat).
Proof.
  split; [apply gradilac_calc_run_returns | apply tango_calc_run_returns].
Qed.

Lemma concrete_runs_return_iff_witness :
  is_Some (Gradilac.calc_run 6 2 2 64 4 5 [13; 4])
  ∧ is_Some (Tango642.calc_run 6 2 4 16 15 16 4 [3; 14] [15; 9; 4; 6])
  ∧ ¬ is_Some (Tango642.calc_run 6 2 4 16 15 16 4 [3; 14] [15; 9; 4]).
Proof.
  destruct (concrete_runs_return_iff 6 2 4 16 15 16 4 5 [3; 14] [15; 9; 4; 6])
    as [_ H2].
  destruct (concrete_runs_return_iff 6 2 4 2 15 64 4 5 [13; 4] [15; 9; 4])
    as [H1 _].
  destruct (concrete_runs_return_iff 6 2 4 16 15 16 4 5 [3; 14] [15; 9; 4])
    as [_ H3].
  split; [apply H1; cbn; lia|]. split; [apply H2; cbn; lia|].
  intros H. apply H3 in H. cbn in H. lia.
Defined.

(** ** The observations are words *)

(** [X23] The observations are words: whenever the concrete run of either
    script returns, it returns [num_obs] observations (gradilac_sat.py) or
    [4 * num_obs] observations (t642_sat.py), each in [0, 2^bits), whatever
    integers the key and the nonce hold. *)
Theorem observations_are_words (bits hci ivlen hc fc num_obs : nat)
    (seed_i lcg_i : Z) (hcv iv : list Z) :
  (∀ st log obs,
     Gradilac.calc_run bits hci hc num_obs seed_i lcg_i hcv
     = Some (st, log, obs) →
     length obs = num_obs
     ∧ Forall (λ o, 0 ≤ o < 2 ^ Z.of_nat bits) obs)
  ∧ (∀ st fw log obs,
       Tango642.calc_run bits hci ivlen hc fc num_obs seed_i hcv iv
       = Some (st, fw, log, obs) →
       length obs = (4 * num_obs)%nat
       ∧ Forall (λ o, 0 ≤ o < 2 ^ Z.of_nat bits) obs).
Proof.
  split.
  - intros st log obs E.
    destruct (proj1 (gradilac_calc_run_returns bits hci hc num_obs seed_i lcg_i
                       hcv)) as [Hhc Hlen]; [rewrite E; eexists; reflexivity|].
    exact (gradilac_obs_range bits hci hc num_obs seed_i lcg_i hcv st log obs
             Hhc Hlen E).
  - intros st fw log obs E.
    destruct (proj1 (tango_calc_run_returns bits hci ivlen hc fc num_obs seed_i
                       hcv iv)) as (Hhc & Hlen & Hiv);
      [rewrite E; eexists; reflexivity|].
    rewrite tango_calc_run_ivmin in E.
    exact (tango_obs_range bits hci (Nat.min ivlen (hc / 2)) hc fc num_obs
             seed_i hcv iv st fw log obs Hhc Hlen Hiv E).
Qed.

Lemma observations_are_words_witness :
  length [17; 3; 57] = 3%nat ∧ Forall (λ o, 0 ≤ o < 2 ^ Z.of_nat 6) [17; 3; 57].
Proof.
  destruct (observations_are_words 6 2 0 2 0 3 4 5 [13; 4] []) as [H _].
  destruct (Gradilac.calc_run 6 2 2 3 4 5 [13; 4]) as [[[st log] obs]|] eqn:E;
    [|vm_compute in E; discriminate].
  pose proof (H st log obs eq_refl) as Hw.
  vm_compute in E. injection E as _ _ <-. exact Hw.
Defined.
